(** * Merge transforms of [packages/core/tooling/js/kit.ts] and helpers of
      [packages/ast-tooling/index.ts]

    A shallow embedding of [addHooksHandle] and [addGlobalAppInterface], and,
    in the last part, of [guessIndentString], [stripAst] and the tag search of
    [parseSvelte].

    [addHooksHandle] moves statement objects around the program body, compares
    them by identity ([n !== originalHandleDecl]) and mutates them through
    references that alias ([exportDecl.declaration] is the very object held in
    [originalHandleDecl]).  It is therefore modelled over an explicit object
    store: a heap of nodes addressed by locations, the program body being a list
    of locations.

    [addGlobalAppInterface] only ever appends children to blocks, so it is
    modelled over a plain tree in which a node is identified by its path. *)

From Stdlib Require Import Ascii DecimalString String List Bool Arith Lia Permutation.
From stdpp Require Import base list option.
Import ListNotations.
Open Scope string_scope.
Open Scope list_scope.
Set Warnings "-register-all".

(** ** Syntax shared by both transforms *)

(** Expressions.  The transform inspects identifiers and call expressions;
    every other expression kind is kept as a generic node carrying its kind
    (with its own scalar fields) and its sub-expressions. *)
Inductive Expr : Type :=
| Identifier (name : string)
| CallExpression (callee : Expr) (arguments : list Expr)
| OtherExpression (shape : string) (children : list Expr).

(** Binding patterns: [d.id.type === 'Identifier'] or anything else. *)
Inductive Pattern : Type :=
| PIdentifier (name : string) (typeAnnotation : option string)
| POther (shape : string).

Inductive VariableDeclarator : Type :=
| Declarator (id : Pattern) (init : option Expr).

(** [AstKinds.DeclarationKind], as far as the transform tells kinds apart.  The
    body of a function is kept as the expressions occurring in it. *)
Inductive Declaration : Type :=
| VariableDeclaration (kind : string) (declarations : list VariableDeclarator)
| FunctionDeclaration (id : option string) (body : list Expr)
| OtherDeclaration (shape : string) (children : list Expr).

Inductive ExportSpecifier : Type :=
| Specifier (local : option string) (exported : string).

Inductive ImportSpecifier : Type :=
| ImportSpec (imported : string) (local : string).

(** A top-level statement as printed: the tree the caller sees. *)
Inductive Statement : Type :=
| ImportDeclaration (source : string) (specifiers : list ImportSpecifier) (isType : bool)
| DeclarationStatement (d : Declaration)
| ExportNamedDeclaration (declaration : option Declaration) (specifiers : list ExportSpecifier)
| ExpressionStatement (e : Expr)
| OtherStatement (shape : string) (children : list Expr).

Definition Program := list Statement.

(** ** The object store *)

Abbreviation loc := nat (only parsing).

(** A statement object.  An export holds its inline declaration by reference,
    which is what makes [exportDecl.declaration] and [originalHandleDecl]
    aliases of one object. *)
Inductive Node : Type :=
| NImport (source : string) (specifiers : list ImportSpecifier) (isType : bool)
| NDeclaration (d : Declaration)
| NExport (declaration : option loc) (specifiers : list ExportSpecifier)
| NExpression (e : Expr)
| NOther (shape : string) (children : list Expr).

Record Ast : Type := mkAst { heap : list Node; body : list loc }.

(** Object creation: the new object gets the next free location. *)
Definition alloc (n : Node) (ast : Ast) : loc * Ast :=
  (length (heap ast), mkAst (heap ast ++ [n]) (body ast)).

(** In-place mutation of the object at [l]. *)
Definition mutate (l : loc) (f : Node -> Node) (ast : Ast) : Ast :=
  mkAst (alter f l (heap ast)) (body ast).

(** [ast.body.push(...)], [ast.body.unshift(...)] and [ast.body = ...]. *)
Definition push (ls : list loc) (ast : Ast) : Ast :=
  mkAst (heap ast) (body ast ++ ls).

Definition unshift (l : loc) (ast : Ast) : Ast :=
  mkAst (heap ast) (l :: body ast).

Definition setBody (b : list loc) (ast : Ast) : Ast :=
  mkAst (heap ast) b.

(** The object graph the parser builds for a program: one object per
    statement, plus one for the inline declaration of an export. *)
Definition allocStatement (s : Statement) (h : list Node) : loc * list Node :=
  match s with
  | ImportDeclaration src sp k => (length h, h ++ [NImport src sp k])
  | DeclarationStatement d => (length h, h ++ [NDeclaration d])
  | ExportNamedDeclaration (Some d) sp =>
      (S (length h), h ++ [NDeclaration d; NExport (Some (length h)) sp])
  | ExportNamedDeclaration None sp => (length h, h ++ [NExport None sp])
  | ExpressionStatement e => (length h, h ++ [NExpression e])
  | OtherStatement k c => (length h, h ++ [NOther k c])
  end.

Fixpoint loadFrom (h : list Node) (p : Program) : list Node * list loc :=
  match p with
  | [] => (h, [])
  | s :: p' =>
      let '(l, h1) := allocStatement s h in
      let '(h2, ls) := loadFrom h1 p' in
      (h2, l :: ls)
  end.

Definition load (p : Program) : Ast :=
  let '(h, ls) := loadFrom [] p in mkAst h ls.

(** Reading the program back off the store, as the printer does. *)
Definition printDeclaration (h : list Node) (l : loc) : Declaration :=
  match h !! l with
  | Some (NDeclaration d) => d
  | _ => OtherDeclaration "undefined" []
  end.

Definition printStatement (h : list Node) (l : loc) : Statement :=
  match h !! l with
  | Some (NImport src sp k) => ImportDeclaration src sp k
  | Some (NDeclaration d) => DeclarationStatement d
  | Some (NExport d sp) => ExportNamedDeclaration (printDeclaration h <$> d) sp
  | Some (NExpression e) => ExpressionStatement e
  | Some (NOther k c) => OtherStatement k c
  | None => OtherStatement "undefined" []
  end.

Definition print (ast : Ast) : Program :=
  map (printStatement (heap ast)) (body ast).

(** ** Helpers of [tooling/js] that [kit.ts] calls

    The modules [common], [functions], [variables], [exports] and [imports] of
    [tooling/js/index.ts] are called by [kit.ts]; they are rendered below under
    their own names. *)

Module common.

(** Structural equality of two expression nodes ([areNodesEqual]). *)
Fixpoint areNodesEqual (a b : Expr) {struct a} : bool :=
  let fix all2 (xs ys : list Expr) {struct xs} : bool :=
    match xs, ys with
    | [], [] => true
    | x :: xs', y :: ys' => areNodesEqual x y && all2 xs' ys'
    | _, _ => false
    end in
  match a, b with
  | Identifier x, Identifier y => String.eqb x y
  | CallExpression f xs, CallExpression g ys => areNodesEqual f g && all2 xs ys
  | OtherExpression k xs, OtherExpression k' ys => String.eqb k k' && all2 xs ys
  | _, _ => false
  end.

(** Does [nodeToMatch] occur in the expression [e], at its root or below? *)
Fixpoint occursIn (nodeToMatch e : Expr) {struct e} : bool :=
  areNodesEqual e nodeToMatch ||
  match e with
  | Identifier _ => false
  | CallExpression f xs => occursIn nodeToMatch f || existsb (occursIn nodeToMatch) xs
  | OtherExpression _ xs => existsb (occursIn nodeToMatch) xs
  end.

Definition occursInDeclarator (nodeToMatch : Expr) (d : VariableDeclarator) : bool :=
  match d with
  | Declarator _ (Some e) => occursIn nodeToMatch e
  | Declarator _ None => false
  end.

Definition occursInDeclaration (nodeToMatch : Expr) (d : Declaration) : bool :=
  match d with
  | VariableDeclaration _ ds => existsb (occursInDeclarator nodeToMatch) ds
  | FunctionDeclaration _ b => existsb (occursIn nodeToMatch) b
  | OtherDeclaration _ c => existsb (occursIn nodeToMatch) c
  end.

Definition occursInStatement (nodeToMatch : Expr) (s : Statement) : bool :=
  match s with
  | ImportDeclaration _ _ _ => false
  | DeclarationStatement d => occursInDeclaration nodeToMatch d
  | ExportNamedDeclaration (Some d) _ => occursInDeclaration nodeToMatch d
  | ExportNamedDeclaration None _ => false
  | ExpressionStatement e => occursIn nodeToMatch e
  | OtherStatement _ c => existsb (occursIn nodeToMatch) c
  end.

(** Modelled from the spec: [common.hasNode], whose source is not part of the
    files at hand.  The spec describes the duplicate check as a
    "structural-equality check against the new fragment's expression": the
    walk over the program reports whether some expression node reachable from
    the body is structurally equal to the fragment.  It only reads. *)
Definition hasNode (ast : Ast) (nodeToMatch : Expr) : bool :=
  existsb (occursInStatement nodeToMatch) (print ast).

(** Modelled from the spec: [common.expressionFromString] applied to a binding
    name.  The parser itself is out of scope; on the source text of an
    identifier it yields the reference to that identifier ("a second
    declaration that simply re-exports the new binding"). *)
Definition expressionFromString (name : string) : Expr := Identifier name.

End common.

Module functions.

(** Modelled from the spec: [functions.callByIdentifier], "build-call(calleeName,
    argumentNames) -> Composition Call": a call of the named callee whose
    arguments are the identifier references, in the order given. *)
Definition callByIdentifier (name : string) (args : list string) : Expr :=
  CallExpression (Identifier name) (map Identifier args).

End functions.

Module variables.

(** Modelled from the spec: [variables.declaration], "build-declaration(kind,
    name, initializer) -> Declaration Node": a fresh declaration with one
    declarator. *)
Definition declaration (kind name : string) (value : Expr) : Declaration :=
  VariableDeclaration kind [Declarator (PIdentifier name None) (Some value)].

(** Modelled from the spec: [variables.identifier], "build-identifier(name) ->
    reference node". *)
Definition identifier (name : string) : Expr := Identifier name.

(** Modelled from the spec: [variables.typeAnnotateDeclarator],
    "attach-type-annotation(declarator, typeName) -> mutates declarator in
    place". *)
Definition typeAnnotateDeclarator (d : VariableDeclarator) (typeName : string)
  : VariableDeclarator :=
  match d with
  | Declarator (PIdentifier n _) i => Declarator (PIdentifier n (Some typeName)) i
  | Declarator (POther k) i => Declarator (POther k) i
  end.

End variables.

Module exports.

(** Modelled from the spec: [exports.namedExport], "build-export(name,
    declarationOrNothing) -> Export Wrapper".  [kit.ts] discards the result
    and relies on the wrapper being emitted into the program: the wrapper
    holds the given declaration object and is appended to the body. *)
Definition namedExport (ast : Ast) (name : string) (fallback : loc) : Ast :=
  let '(e, ast) := alloc (NExport (Some fallback) []) ast in
  push [e] ast.

End exports.

Module imports.

Definition isImportFrom (h : list Node) (importFrom : string) (l : loc) : bool :=
  match h !! l with
  | Some (NImport src _ _) => String.eqb src importFrom
  | _ => false
  end.

Definition sameBinding (imported local : string) (s : ImportSpecifier) : bool :=
  match s with
  | ImportSpec i l => String.eqb i imported || String.eqb l local
  end.

Definition addSpecifier (imported local : string) (n : Node) : Node :=
  match n with
  | NImport src sp k => NImport src (sp ++ [ImportSpec imported local]) k
  | _ => n
  end.

Definition lastImportFrom (ast : Ast) (importFrom : string) : option loc :=
  fold_left
    (fun found l => if isImportFrom (heap ast) importFrom l then Some l else found)
    (body ast) None.

(** Modelled from the spec: [imports.addNamed], "build-import(moduleSpecifier,
    namedBindings, isTypeOnly) -> import statement", which the merge uses to
    "add an import".  The binding is merged into the program: when an import
    from the module exists (the last one in the body is taken), the binding
    is added to it unless it is already there; otherwise a new import
    statement is put in front of the body. *)
Definition addNamed (ast : Ast) (importFrom imported local : string) (isType : bool)
  : Ast :=
  match lastImportFrom ast importFrom with
  | Some l =>
      match heap ast !! l with
      | Some (NImport _ sp _) =>
          if existsb (sameBinding imported local) sp then ast
          else mutate l (addSpecifier imported local) ast
      | _ => ast
      end
  | None =>
      let '(l, ast) := alloc (NImport importFrom [ImportSpec imported local] isType) ast in
      unshift l ast
  end.

End imports.

(** ** [kit.ts]: helper predicates (lines 238-271) *)

Definition usingSequence (node : VariableDeclarator) (handleName : string) : bool :=
  match node with
  | Declarator (PIdentifier name _) (Some (CallExpression (Identifier callee) _)) =>
      String.eqb name handleName && String.eqb callee "sequence"
  | _ => false
  end.

Definition declaratorNamed (handleName : string) (d : VariableDeclarator) : bool :=
  match d with
  | Declarator (PIdentifier name _) _ => String.eqb name handleName
  | Declarator (POther _) _ => false
  end.

Definition getVariableDeclarator (node : Declaration) (handleName : string)
  : option VariableDeclarator :=
  match node with
  | VariableDeclaration _ ds => List.find (declaratorNamed handleName) ds
  | _ => None
  end.

Definition isVariableDeclaration (node : option Node) (variableName : string) : bool :=
  match node with
  | Some (NDeclaration (VariableDeclaration k ds)) =>
      match getVariableDeclarator (VariableDeclaration k ds) variableName with
      | Some _ => true
      | None => false
      end
  | _ => false
  end.

Definition isFunctionDeclaration (node : option Node) (funcName : string) : bool :=
  match node with
  | Some (NDeclaration (FunctionDeclaration (Some name) _)) => String.eqb name funcName
  | _ => false
  end.

(** ** [kit.ts]: [addHooksHandle] (lines 59-236) *)

(** The four variables the export walk writes (lines 69-72). *)
Record Finding : Type := mkFinding {
  isSpecifier : bool;
  handleName : string;
  exportDecl : option loc;
  originalHandleDecl : option loc
}.

Definition noFinding : Finding := mkFinding false "handle" None None.

Definition exportedName (s : ExportSpecifier) : string :=
  match s with Specifier _ e => e end.

Definition localName (s : ExportSpecifier) : string :=
  match s with
  | Specifier (Some l) _ => l
  | Specifier None e => e
  end.

(** Lines 81-97: what one export statement resolves to, before it is checked
    against the name: the flag, the name searched for and the candidate
    declaration. *)
Definition resolveExport (ast : Ast) (st : Finding)
  (declaration : option loc) (specifiers : list ExportSpecifier)
  : bool * string * option loc :=
  let '(isSpec, name, maybeHandleDecl) :=
    match List.find (fun s => String.eqb (exportedName s) "handle") specifiers with
    | Some handleSpecifier =>
        let name := localName handleSpecifier in
        let handleFunc :=
          List.find (fun n => isFunctionDeclaration (heap ast !! n) name) (body ast) in
        let handleVar :=
          List.find (fun n => isVariableDeclaration (heap ast !! n) name) (body ast) in
        (true, name, match handleFunc with Some f => Some f | None => handleVar end)
    | None => (isSpecifier st, handleName st, None)
    end in
  (isSpec, name,
   match maybeHandleDecl with Some d => Some d | None => declaration end).

(** Lines 99-109: the candidate counts when it declares the name as a variable
    or as a function. *)
Definition declaresHandle (ast : Ast) (maybeHandleDecl : option loc) (name : string)
  : bool :=
  match maybeHandleDecl with
  | Some d =>
      isVariableDeclaration (heap ast !! d) name
      || isFunctionDeclaration (heap ast !! d) name
  | None => false
  end.

(** The [ExportNamedDeclaration] visitor (lines 80-110), for one export
    statement.  It does not call [next]: nothing below an export statement is
    visited. *)
Definition visitExport (ast : Ast) (st : Finding) (node : loc) : Finding :=
  match heap ast !! node with
  | Some (NExport declaration specifiers) =>
      let '(isSpec, name, maybeHandleDecl) :=
        resolveExport ast st declaration specifiers in
      if declaresHandle ast maybeHandleDecl name
      then mkFinding isSpec name (Some node) maybeHandleDecl
      else mkFinding isSpec name (exportDecl st) (originalHandleDecl st)
  | _ => st
  end.

(** The walk of line 79 over the export statements of the body, in source
    order.  [Walker.walk] also enters the nodes that have no visitor, and so
    reaches the export statements inside a namespace or module block; this
    store holds the top-level statements only, and [locate] is the walk for a
    program without such a block (see [flat] below). *)
Definition locate (ast : Ast) : Finding :=
  fold_left (visitExport ast) (body ast) noFinding.

(** A declaration built by [variables.declaration] and, under TypeScript,
    annotated on its first declarator (lines 119-123, 126-135, 142-146,
    228-232). *)
Definition annotated (typescript : bool) (d : Declaration) : Declaration :=
  match d with
  | VariableDeclaration k (d0 :: ds) =>
      if typescript
      then VariableDeclaration k (variables.typeAnnotateDeclarator d0 "Handle" :: ds)
      else d
  | _ => d
  end.

(** Lines 118-139: no existing handle. *)
Definition createHandle (ast : Ast) (typescript : bool)
  (newHandleName : string) (newHandle : Expr) (handleName : string) : Ast :=
  let '(newDecl, ast) :=
    alloc (NDeclaration
             (annotated typescript (variables.declaration "const" newHandleName newHandle)))
          ast in
  let ast := push [newDecl] ast in
  let '(handleDecl, ast) :=
    alloc (NDeclaration
             (annotated typescript
                (variables.declaration "const" handleName
                   (common.expressionFromString newHandleName))))
          ast in
  exports.namedExport ast handleName handleDecl.

(** Apply [f] to the first element satisfying [p]: the model of mutating the
    object that [Array.prototype.find] returned. *)
Fixpoint alterFirst {A : Type} (p : A -> bool) (f : A -> A) (l : list A) : list A :=
  match l with
  | [] => []
  | x :: r => if p x then f x :: r else x :: alterFirst p f r
  end.

(** Lines 149-156: the arguments of the [sequence] call of the original
    declaration, if it has one. *)
Definition findSequence (node : option Node) (handleName : string)
  : option (list Expr) :=
  match node with
  | Some (NDeclaration (VariableDeclaration _ ds)) =>
      match List.find (fun d => usingSequence d handleName) ds with
      | Some (Declarator _ (Some (CallExpression _ args))) => Some args
      | _ => None
      end
  | _ => None
  end.

Definition isIdentifierNamed (name : string) (arg : Expr) : bool :=
  match arg with
  | Identifier n => String.eqb n name
  | _ => false
  end.

(** [sequence.arguments.push(...)] seen from the declaration that holds the
    call. *)
Definition pushArgument (handleName : string) (arg : Expr) (n : Node) : Node :=
  match n with
  | NDeclaration (VariableDeclaration k ds) =>
      NDeclaration (VariableDeclaration k
        (alterFirst (fun d => usingSequence d handleName)
           (fun d => match d with
                     | Declarator i (Some (CallExpression c args)) =>
                         Declarator i (Some (CallExpression c (args ++ [arg])))
                     | _ => d
                     end) ds))
  | _ => n
  end.

Definition keep (originalHandleDecl exportDecl newDecl : loc) (n : loc) : bool :=
  negb (Nat.eqb n originalHandleDecl) && negb (Nat.eqb n exportDecl)
  && negb (Nat.eqb n newDecl).

(** Lines 161-180: the existing handle already calls [sequence].  The block
    does not return: control continues with line 185. *)
Definition appendToSequence (ast : Ast) (isSpecifier : bool) (handleName : string)
  (originalHandleDecl exportDecl newDecl : loc) (newHandleName : string) : Ast :=
  match findSequence (heap ast !! originalHandleDecl) handleName with
  | Some arguments =>
      let hasNewArg := existsb (isIdentifierNamed newHandleName) arguments in
      let ast :=
        if hasNewArg then ast
        else mutate originalHandleDecl
               (pushArgument handleName (variables.identifier newHandleName)) ast in
      let ast :=
        setBody (List.filter (keep originalHandleDecl exportDecl newDecl) (body ast)) ast in
      if isSpecifier
      then push [newDecl; originalHandleDecl; exportDecl] ast
      else push [newDecl; exportDecl] ast
  | None => ast
  end.

Definition NEW_HANDLE_NAME : string := "originalHandle".

Definition initIsIdentifier (d : VariableDeclarator) : bool :=
  match d with
  | Declarator _ (Some (Identifier _)) => true
  | _ => false
  end.

Definition renameDeclarator (handleName : string) (n : Node) : Node :=
  match n with
  | NDeclaration (VariableDeclaration k ds) =>
      NDeclaration (VariableDeclaration k
        (alterFirst (declaratorNamed handleName)
           (fun d => match d with
                     | Declarator (PIdentifier _ t) i =>
                         Declarator (PIdentifier NEW_HANDLE_NAME t) i
                     | _ => d
                     end) ds))
  | _ => n
  end.

Definition renameFunction (n : Node) : Node :=
  match n with
  | NDeclaration (FunctionDeclaration (Some _) b) =>
      NDeclaration (FunctionDeclaration (Some NEW_HANDLE_NAME) b)
  | _ => n
  end.

(** Lines 191-199: rename [export const handle]. *)
Definition renameVariable (ast : Ast) (handleName : string) (originalHandleDecl : loc)
  : bool * Ast :=
  match heap ast !! originalHandleDecl with
  | Some (NDeclaration (VariableDeclaration k ds)) =>
      match getVariableDeclarator (VariableDeclaration k ds) handleName with
      | Some handle =>
          if negb (initIsIdentifier handle)
          then (true, mutate originalHandleDecl (renameDeclarator handleName) ast)
          else (false, ast)
      | None => (false, ast)
      end
  | _ => (false, ast)
  end.

(** Lines 200-204: rename [export function handle]. *)
Definition renameFunctionDecl (ast : Ast) (handleName : string)
  (originalHandleDecl : loc) (renameRequired : bool) : bool * Ast :=
  if isFunctionDeclaration (heap ast !! originalHandleDecl) handleName
  then (true, mutate originalHandleDecl renameFunction ast)
  else (renameRequired, ast).

Definition declarationOf (n : option Node) : option loc :=
  match n with
  | Some (NExport d _) => d
  | _ => None
  end.

(** The name read at line 225, [(variableDeclarator?.init as Identifier).name]. *)
Definition initName (ast : Ast) (handleName : string) (originalHandleDecl : loc)
  : string :=
  match heap ast !! originalHandleDecl with
  | Some (NDeclaration d) =>
      match getVariableDeclarator d handleName with
      | Some (Declarator _ (Some (Identifier n))) => n
      | _ => "undefined"
      end
  | _ => "undefined"
  end.

(** Lines 206-235: filter the body and re-append the declarations. *)
Definition reappend (ast : Ast) (typescript isSpecifier : bool) (handleName : string)
  (originalHandleDecl exportDecl newDecl newHandleDecl : loc)
  (newHandleName : string) (renameRequired : bool) : Ast :=
  let ast :=
    setBody (List.filter (keep originalHandleDecl exportDecl newDecl) (body ast)) ast in
  let ast :=
    if isSpecifier
    then push [originalHandleDecl; newDecl; newHandleDecl; exportDecl] ast
    else ast in
  match declarationOf (heap ast !! exportDecl) with
  | Some declaration =>
      if renameRequired then
        let ast := push [declaration; newDecl] ast in
        exports.namedExport ast handleName newHandleDecl
      else if isVariableDeclaration (heap ast !! originalHandleDecl) handleName then
        let sequenceCall :=
          functions.callByIdentifier "sequence"
            [initName ast handleName originalHandleDecl; newHandleName] in
        let '(newHandleDecl, ast) :=
          alloc (NDeclaration
                   (annotated typescript
                      (variables.declaration "const" handleName sequenceCall)))
                ast in
        let ast := push [newDecl] ast in
        exports.namedExport ast handleName newHandleDecl
      else ast
  | None => ast
  end.

(** Lines 141-235: an existing handle was found. *)
Definition mergeHandle (ast : Ast) (typescript isSpecifier : bool) (handleName : string)
  (originalHandleDecl exportDecl : loc) (newHandleName : string) (newHandle : Expr)
  : Ast :=
  let '(newDecl, ast) :=
    alloc (NDeclaration
             (annotated typescript (variables.declaration "const" newHandleName newHandle)))
          ast in
  let ast :=
    appendToSequence ast isSpecifier handleName originalHandleDecl exportDecl newDecl
      newHandleName in
  let sequenceCall :=
    functions.callByIdentifier "sequence" [NEW_HANDLE_NAME; newHandleName] in
  let '(newHandleDecl, ast) :=
    alloc (NDeclaration (variables.declaration "const" handleName sequenceCall)) ast in
  let ast := imports.addNamed ast "@sveltejs/kit/hooks" "sequence" "sequence" false in
  let '(renameRequired, ast) := renameVariable ast handleName originalHandleDecl in
  let '(renameRequired, ast) :=
    renameFunctionDecl ast handleName originalHandleDecl renameRequired in
  reappend ast typescript isSpecifier handleName originalHandleDecl exportDecl newDecl
    newHandleDecl newHandleName renameRequired.

(** Lines 65-67. *)
Definition addHandleType (ast : Ast) (typescript : bool) : Ast :=
  if typescript then imports.addNamed ast "@sveltejs/kit" "Handle" "Handle" true else ast.

(** [addHooksHandle(ast, typescript, newHandleName, handleContent)], the
    fragment being given as the expression [common.expressionFromString]
    parses out of [handleContent]. *)
Definition addHooksHandle (ast : Ast) (typescript : bool)
  (newHandleName : string) (newHandle : Expr) : Ast :=
  let ast := addHandleType ast typescript in
  let finding := locate ast in
  if common.hasNode ast newHandle then ast
  else
    match originalHandleDecl finding, exportDecl finding with
    | Some originalHandleDecl, Some exportDecl =>
        mergeHandle ast typescript (isSpecifier finding) (handleName finding)
          originalHandleDecl exportDecl newHandleName newHandle
    | _, _ =>
        createHandle ast typescript newHandleName newHandle (handleName finding)
    end.

(** The merge as the caller sees it: parse, transform, print. *)
Definition merged (p : Program) (typescript : bool) (newHandleName : string)
  (newHandle : Expr) : Program :=
  print (addHooksHandle (load p) typescript newHandleName newHandle).

(** ** Observations on printed programs used by the statements below *)

(** An export of the public name [handle]: a specifier exported as [handle],
    or an inline declaration of a variable or function named [handle]. *)
Definition exportsHandle (s : Statement) : bool :=
  match s with
  | ExportNamedDeclaration d sp =>
      existsb (fun s => String.eqb (exportedName s) "handle") sp
      || match d with
         | Some (VariableDeclaration _ ds) => existsb (declaratorNamed "handle") ds
         | Some (FunctionDeclaration (Some n) _) => String.eqb n "handle"
         | _ => false
         end
  | _ => false
  end.

Definition countHandleExports (p : Program) : nat :=
  length (List.filter exportsHandle p).

(** The export statement the locator settles on, as printed. *)
Definition locatedExport (ast : Ast) : option Statement :=
  printStatement (heap ast) <$> exportDecl (locate ast).

(** Does the visitor, in state [st], record [node]?  And does it when it
    reaches [node] after the statements [before]? *)
Definition matches (ast : Ast) (st : Finding) (node : loc) : bool :=
  match heap ast !! node with
  | Some (NExport declaration specifiers) =>
      let '(_, name, maybeHandleDecl) :=
        resolveExport ast st declaration specifiers in
      declaresHandle ast maybeHandleDecl name
  | _ => false
  end.

Definition matchesAfter (ast : Ast) (before : list loc) (node : loc) : bool :=
  matches ast (fold_left (visitExport ast) before noFinding) node.

(** The references of a store: the body, and the inline declarations of its
    exports. *)
Definition references (ast : Ast) : list loc :=
  body ast ++ omap (fun l => declarationOf (heap ast !! l)) (body ast).

(** ** [kit.ts]: [addGlobalAppInterface] (lines 4-57) *)

(** The declaration file [src/app.d.ts].  Module declarations, their blocks and
    interface declarations are told apart; any other node is generic and the
    walker descends into its children by default. *)
Inductive ModuleId : Type :=
| IdIdentifier (name : string)
| IdStringLiteral (value : string).

Inductive TSNode : Type :=
| TSModuleDeclaration (global declare : bool) (id : ModuleId) (body : option TSNode)
| TSModuleBlock (body : list TSNode)
| TSInterfaceDeclaration (id : string) (members : list string)
| TSOther (type : string) (children : list TSNode).

(** The [name] parameter: ['Error' | 'Locals' | 'PageData' | 'PageState' |
    'Platform']. *)
Inductive InterfaceName : Type := Error | Locals | PageData | PageState | Platform.

Definition nameString (name : InterfaceName) : string :=
  match name with
  | Error => "Error"
  | Locals => "Locals"
  | PageData => "PageData"
  | PageState => "PageState"
  | Platform => "Platform"
  end.

(** A node is identified by its path from the program: the index of the
    top-level statement, then child indices.  The body of a module declaration
    is its child 0.  The transform only appends children, so the path of an
    existing node never changes. *)
Definition Path := list nat.

Fixpoint childAt (path : Path) (node : TSNode) : option TSNode :=
  match path with
  | [] => Some node
  | i :: rest =>
      match node with
      | TSModuleDeclaration _ _ _ (Some b) =>
          match i with O => childAt rest b | S _ => None end
      | TSModuleDeclaration _ _ _ None => None
      | TSModuleBlock ns => n ← ns !! i; childAt rest n
      | TSInterfaceDeclaration _ _ => None
      | TSOther _ cs => n ← cs !! i; childAt rest n
      end
  end.

Definition nodeAt (ast : list TSNode) (path : Path) : option TSNode :=
  match path with
  | [] => None
  | i :: rest => n ← ast !! i; childAt rest n
  end.

(** [x.body.body.push(new)] for the module declaration [x] at [path]. *)
Fixpoint pushChild (path : Path) (new : TSNode) (node : TSNode) : TSNode :=
  match path with
  | [] =>
      match node with
      | TSModuleDeclaration g d i (Some (TSModuleBlock ns)) =>
          TSModuleDeclaration g d i (Some (TSModuleBlock (ns ++ [new])))
      | _ => node
      end
  | i :: rest =>
      match node with
      | TSModuleDeclaration g d m (Some b) =>
          match i with
          | O => TSModuleDeclaration g d m (Some (pushChild rest new b))
          | S _ => node
          end
      | TSModuleDeclaration _ _ _ None => node
      | TSModuleBlock ns => TSModuleBlock (alter (pushChild rest new) i ns)
      | TSInterfaceDeclaration _ _ => node
      | TSOther t cs => TSOther t (alter (pushChild rest new) i cs)
      end
  end.

Definition pushInto (path : Path) (new : TSNode) (ast : list TSNode) : list TSNode :=
  match path with
  | [] => ast
  | i :: rest => alter (pushChild rest new) i ast
  end.

(** Number of statements in the block of the module declaration at [path]. *)
Definition blockLength (ast : list TSNode) (path : Path) : nat :=
  match nodeAt ast path with
  | Some (TSModuleDeclaration _ _ _ (Some (TSModuleBlock ns))) => length ns
  | _ => 0
  end.

(** Modelled from the spec: [common.statementFromString] on the three texts
    [kit.ts] passes to it; the parser is out of scope.  The spec has the
    blocks "created on demand": an empty [declare global] block, an empty
    [namespace App] block and an empty interface of the requested name. *)
Definition declareGlobal : TSNode :=
  TSModuleDeclaration true true (IdIdentifier "global") (Some (TSModuleBlock [])).

Definition namespaceApp : TSNode :=
  TSModuleDeclaration false false (IdIdentifier "App") (Some (TSModuleBlock [])).

Definition emptyInterface (name : InterfaceName) : TSNode :=
  TSInterfaceDeclaration (nameString name) [].

(** Lines 8-10: the first top-level module declaration with [global] and
    [declare]. *)
Definition isGlobalDecl (n : TSNode) : bool :=
  match n with
  | TSModuleDeclaration g d _ _ => g && d
  | _ => false
  end.

Fixpoint findGlobalDecl (i : nat) (ns : list TSNode) : option nat :=
  match ns with
  | [] => None
  | n :: rest => if isGlobalDecl n then Some i else findGlobalDecl (S i) rest
  end.

(** The two variables the walk writes (lines 21-22). *)
Record Seen : Type := mkSeen { app : option Path; interfaceNode : option Path }.

Definition nothingSeen : Seen := mkSeen None None.

Definition isApp (id : ModuleId) : bool :=
  match id with
  | IdIdentifier n => String.eqb n "App"
  | IdStringLiteral _ => false
  end.

(** Lines 25-37: the walk from [globalDecl].  The module visitor calls [next],
    the interface visitor does not; other nodes are descended into. *)
Fixpoint walk (name : string) (path : Path) (node : TSNode) (st : Seen) : Seen :=
  let fix walkAll (i : nat) (ns : list TSNode) (st : Seen) {struct ns} : Seen :=
    match ns with
    | [] => st
    | n :: rest => walkAll (S i) rest (walk name (path ++ [i]) n st)
    end in
  match node with
  | TSModuleDeclaration _ _ id body =>
      let st := if isApp id then mkSeen (Some path) (interfaceNode st) else st in
      match body with
      | Some b => walk name (path ++ [0]) b st
      | None => st
      end
  | TSModuleBlock ns => walkAll 0 ns st
  | TSInterfaceDeclaration id _ =>
      if String.eqb id name then mkSeen (app st) (Some path) else st
  | TSOther _ cs => walkAll 0 cs st
  end.

Definition hasBlockBody (n : option TSNode) : bool :=
  match n with
  | Some (TSModuleDeclaration _ _ _ (Some (TSModuleBlock _))) => true
  | _ => false
  end.

(** The result of a call: the node returned, or the error thrown, each with
    the program as the call leaves it. *)
Inductive Outcome : Type :=
| Returned (ast : list TSNode) (interfaceNode : Path)
| Thrown (ast : list TSNode) (message : string).

(** Lines 17-56: what the function does once [globalDecl] is settled. *)
Definition withGlobalDecl (ast : list TSNode) (globalDecl : Path) (name : InterfaceName)
  : Outcome :=
  (* lines 17-19 *)
  if negb (hasBlockBody (nodeAt ast globalDecl))
  then Thrown ast "Unexpected body type of `declare global` in `src/app.d.ts`"
  else
    (* lines 21-37 *)
    let seen :=
      match nodeAt ast globalDecl with
      | Some g => walk (nameString name) globalDecl g nothingSeen
      | None => nothingSeen
      end in
    (* lines 39-42 *)
    let '(ast, app) :=
      match app seen with
      | Some a => (ast, a)
      | None =>
          (pushInto globalDecl namespaceApp ast,
           globalDecl ++ [0; blockLength ast globalDecl])
      end in
    (* lines 44-46 *)
    if negb (hasBlockBody (nodeAt ast app))
    then Thrown ast "Unexpected body type of `namespace App` in `src/app.d.ts`"
    else
      (* lines 48-56 *)
      match interfaceNode seen with
      | Some i => Returned ast i
      | None =>
          Returned (pushInto app (emptyInterface name) ast)
                   (app ++ [0; blockLength ast app])
      end.

Definition addGlobalAppInterface (ast : list TSNode) (name : InterfaceName) : Outcome :=
  (* lines 8-15 *)
  let '(ast, globalDecl) :=
    match findGlobalDecl 0 ast with
    | Some g => (ast, [g])
    | None => (ast ++ [declareGlobal], [length ast])
    end in
  withGlobalDecl ast globalDecl name.

(** Observations on declaration files. *)
Fixpoint countInterfaces (name : string) (node : TSNode) : nat :=
  match node with
  | TSModuleDeclaration _ _ _ (Some b) => countInterfaces name b
  | TSModuleDeclaration _ _ _ None => 0
  | TSModuleBlock ns => list_sum (map (countInterfaces name) ns)
  | TSInterfaceDeclaration id _ => if String.eqb id name then 1 else 0
  | TSOther _ cs => list_sum (map (countInterfaces name) cs)
  end.

Definition interfacesNamed (name : InterfaceName) (ast : list TSNode) : nat :=
  list_sum (map (countInterfaces (nameString name)) ast).



(** The program a call leaves behind. *)
Definition programOf (o : Outcome) : list TSNode :=
  match o with
  | Returned ast _ => ast
  | Thrown ast _ => ast
  end.

(** Kinds of statement objects. *)
Definition isImportNode (n : Node) : bool :=
  match n with NImport _ _ _ => true | _ => false end.

Definition isDeclarationNode (n : Node) : bool :=
  match n with NDeclaration _ => true | _ => false end.

Definition isExportNode (n : Node) : bool :=
  match n with NExport _ _ => true | _ => false end.

(** Sample fragments and programs used to exercise the statements. *)
Definition sampleHandle : Expr :=
  OtherExpression "ArrowFunctionExpression" [Identifier "event"; Identifier "resolve"].

Definition exportConst (name : string) (annotation : option string) (init : Expr)
  : Statement :=
  ExportNamedDeclaration
    (Some (VariableDeclaration "const"
             [Declarator (PIdentifier name annotation) (Some init)])) [].

Definition constDecl (name : string) (annotation : option string) (init : Expr)
  : Statement :=
  DeclarationStatement
    (VariableDeclaration "const" [Declarator (PIdentifier name annotation) (Some init)]).

Definition sequenceOf (names : list string) : Expr :=
  functions.callByIdentifier "sequence" names.

Definition hooksImport : Statement :=
  ImportDeclaration "@sveltejs/kit/hooks" [ImportSpec "sequence" "sequence"] false.

Definition kitImport : Statement :=
  ImportDeclaration "@sveltejs/kit" [ImportSpec "Handle" "Handle"] true.

(** The annotation the new declarations carry. *)
Definition handleType (typescript : bool) : option string :=
  if typescript then Some "Handle" else None.

(** Observations that say nothing of imports nor of a missing statement. *)
Definition importBlind (q : Statement -> bool) : Prop :=
  (forall src sp k, q (ImportDeclaration src sp k) = false)
  /\ q (OtherStatement "undefined" []) = false.

(** Every reference of the store is to a live object. *)
Definition closed (ast : Ast) : Prop :=
  Forall (fun l => l < length (heap ast)) (references ast).

(** ** How a call may change the store

    Mutation never turns an object into one of another kind, nor an import
    into an import from another module. *)
Definition sameKind (n n' : Node) : bool :=
  match n, n' with
  | NImport s _ _, NImport s' _ _ => String.eqb s s'
  | NDeclaration _, NDeclaration _ => true
  | NExport _ _, NExport _ _ => true
  | NExpression _, NExpression _ => true
  | NOther _ _, NOther _ _ => true
  | _, _ => false
  end.

Definition isFrom (importFrom : string) (n : Node) : bool :=
  match n with
  | NImport s _ _ => String.eqb s importFrom
  | _ => false
  end.

Definition KIT : string := "@sveltejs/kit".
Definition HOOKS : string := "@sveltejs/kit/hooks".

(** [evolves mut a a']: every object of [a] lives on in [a'] with its kind;
    apart from the object [mut] and the imports from [HOOKS] the objects of
    [a] are untouched; and no object created since is an import from [KIT]. *)
Record evolves (mut : option loc) (a a' : Ast) : Prop := mkEvolves {
  ev_kind : forall l n, heap a !! l = Some n ->
    exists n', heap a' !! l = Some n' /\ sameKind n n' = true;
  ev_same : forall l n, heap a !! l = Some n -> mut <> Some l ->
    isFrom HOOKS n = false -> heap a' !! l = Some n;
  ev_new : forall l n', heap a !! l = None -> heap a' !! l = Some n' ->
    isFrom KIT n' = false
}.

(** The import statements from [KIT], in body order. *)
Definition kitImports (ast : Ast) : list loc :=
  List.filter (imports.isImportFrom (heap ast) KIT) (body ast).

(** What holds of the finding at every point of the export walk. *)
Definition findingOk (ast : Ast) (st : Finding) : Prop :=
  (forall o, originalHandleDecl st = Some o ->
     exists d, heap ast !! o = Some (NDeclaration d))
  /\ (forall x, exportDecl st = Some x ->
        exists d sp, heap ast !! x = Some (NExport d sp))
  /\ (isSpecifier st = false ->
        handleName st = "handle"
        /\ forall o x, originalHandleDecl st = Some o -> exportDecl st = Some x ->
             (exists sp, heap ast !! x = Some (NExport (Some o) sp))
             /\ declaresHandle ast (Some o) "handle" = true).

(** The inline declaration of every export statement is a declaration
    object. *)
Definition declarationsOk (ast : Ast) : Prop :=
  forall l d, In l (body ast) -> declarationOf (heap ast !! l) = Some d ->
    exists decl, heap ast !! d = Some (NDeclaration decl).

(** The program already imports [Handle] in its last import from [KIT]. *)
Definition kitSatisfied (ast : Ast) : Prop :=
  exists i s sp k,
    imports.lastImportFrom ast KIT = Some i
    /\ heap ast !! i = Some (NImport s sp k)
    /\ existsb (imports.sameBinding "Handle" "Handle") sp = true.

(** Two stores that differ at most in their import objects, a missing object
    counting as one. *)
Definition importOrNone (n : option Node) : Prop :=
  match n with
  | None => True
  | Some (NImport _ _ _) => True
  | _ => False
  end.

Definition sameButImports (h h' : list Node) : Prop :=
  forall l, h' !! l = h !! l \/ (importOrNone (h !! l) /\ importOrNone (h' !! l)).

(** The shapes for which [addGlobalAppInterface] throws: the [declare global]
    block it found, or the [App] namespace the walk found in it, has a body
    that is not a block. *)
Definition malformed (ast : list TSNode) (name : InterfaceName) : bool :=
  match findGlobalDecl 0 ast with
  | Some g =>
      negb (hasBlockBody (nodeAt ast [g]))
      || match nodeAt ast [g] with
         | Some gd =>
             match app (walk (nameString name) [g] gd nothingSeen) with
             | Some a => negb (hasBlockBody (nodeAt ast a))
             | None => false
             end
         | None => false
         end
  | None => false
  end.

(** The walk over a list of children, child [i] first: the inner loop of
    [walk] on its own. *)
Fixpoint walkList (name : string) (path : Path) (i : nat) (ns : list TSNode)
  (st : Seen) : Seen :=
  match ns with
  | [] => st
  | n :: rest => walkList name path (S i) rest (walk name (path ++ [i]) n st)
  end.

(** The paths the walk records lead to nodes of the right kind. *)
Definition appAt (n : TSNode) (rest : Path) : Prop :=
  exists g d m b, childAt rest n = Some (TSModuleDeclaration g d m b) /\ isApp m = true.

Definition interfaceAt (name : string) (n : TSNode) (rest : Path) : Prop :=
  exists ms, childAt rest n = Some (TSInterfaceDeclaration name ms).


(** The store is the object graph of a tree: no object is referenced twice,
    every reference is to a live object, and the inline declaration of an
    export is a declaration object. *)
Definition treeShaped (ast : Ast) : Prop :=
  List.NoDup (references ast) /\ closed ast /\ declarationsOk ast.

(** An export statement with both a declaration and specifiers: no parser
    produces one. *)
Definition bothFields (s : Statement) : bool :=
  match s with
  | ExportNamedDeclaration (Some _) (_ :: _) => true
  | _ => false
  end.

(** Where the finding comes from: both references are set together; the
    original declaration is a statement of the body or the inline declaration
    of the export found; and the flag is set only if some export statement of
    the body has a specifier exported as [handle]. *)
Definition hasHandleSpecifier (sp : list ExportSpecifier) : bool :=
  existsb (fun s => String.eqb (exportedName s) "handle") sp.

Definition findingOrigin (ast : Ast) (st : Finding) : Prop :=
  (exportDecl st = None <-> originalHandleDecl st = None)
  /\ (forall o x, originalHandleDecl st = Some o -> exportDecl st = Some x ->
        In o (body ast) \/ declarationOf (heap ast !! x) = Some o)
  /\ (isSpecifier st = true ->
        exists s d sp, In s (body ast) /\ heap ast !! s = Some (NExport d sp)
                       /\ hasHandleSpecifier sp = true).

(** * [packages/ast-tooling/index.ts] *)

(** ** [guessIndentString] (lines 172-201)

    Strings are lists of characters; a line is counted by the whitespace run
    it starts with. *)

Definition newline : ascii := "010"%char.
Definition tab : ascii := "009"%char.
Definition space : ascii := " "%char.

(** [str.split('\n')]: the pieces between the line feeds; a string without
    line feed is its only piece. *)
Fixpoint split_lines (str : string) : list string :=
  match str with
  | EmptyString => [EmptyString]
  | String c rest =>
      if Ascii.eqb c newline then EmptyString :: split_lines rest
      else match split_lines rest with
           | line :: lines => String c line :: lines
           | [] => [String c EmptyString]
           end
  end.

(** The longest prefix of [line] made of the character [c]. *)
Fixpoint leadingRun (c : ascii) (line : string) : string :=
  match line with
  | String d rest => if Ascii.eqb d c then String d (leadingRun c rest) else EmptyString
  | EmptyString => EmptyString
  end.

(** [/^(?: +|\t+)/.exec(line)]: the run of spaces, or else the run of tabs,
    the line starts with; [match[0]] when there is a match. *)
Definition execLeadingWhitespace (line : string) : option string :=
  match line with
  | String c _ =>
      if Ascii.eqb c space then Some (leadingRun space line)
      else if Ascii.eqb c tab then Some (leadingRun tab line)
      else None
  | EmptyString => None
  end.

(** [whitespace[0] === '\t'] (line 186). *)
Definition startsWithTab (whitespace : string) : bool :=
  match String.get 0 whitespace with
  | Some c => Ascii.eqb c tab
  | None => false
  end.

(** The three counters of lines 175-177. *)
Record Tally : Type := mkTally { tabs : nat; spaces : nat; minSpaces : nat }.

(** The callback of [lines.forEach] (lines 179-194). *)
Definition tallyLine (t : Tally) (line : string) : Tally :=
  match execLeadingWhitespace line with
  | None => t
  | Some whitespace =>
      if Nat.eqb (String.length whitespace) (String.length line) then t
      else
        if startsWithTab whitespace
        then mkTally (tabs t + 1) (spaces t) (minSpaces t)
        else
          mkTally (tabs t) (spaces t + 1)
            (if Nat.ltb 1 (String.length whitespace)
                && Nat.ltb (String.length whitespace) (minSpaces t)
             then String.length whitespace else minSpaces t)
  end.

(** Lines 197-198: [while (minSpaces--) result += ' ']. *)
Fixpoint padding (minSpaces : nat) (result : string) : string :=
  match minSpaces with
  | 0 => result
  | S n => padding n (result ++ String space EmptyString)
  end.

(** [guessIndentString(str)]; [None] is [undefined]. *)
Definition guessIndentString (str : string) : option nat :=
  let t := fold_left tallyLine (split_lines str) (mkTally 0 0 8) in
  if Nat.ltb (tabs t) (spaces t) then Some (String.length (padding (minSpaces t) EmptyString))
  else None.

(** The width a line adds to the space-indented lines, if it is one: it
    starts with a space and is not made of spaces only. *)
Definition spaceIndent (line : string) : option nat :=
  match execLeadingWhitespace line with
  | Some whitespace =>
      if Nat.eqb (String.length whitespace) (String.length line) then None
      else if startsWithTab whitespace then None
           else Some (String.length whitespace)
  | None => None
  end.

(** A line the tally passes over: no leading whitespace, or whitespace only. *)
Definition uncounted (line : string) : bool :=
  match execLeadingWhitespace line with
  | Some whitespace => Nat.eqb (String.length whitespace) (String.length line)
  | None => true
  end.

Definition hasNewline (str : string) : bool :=
  existsb (Ascii.eqb newline) (list_ascii_of_string str).

(** A line counted as indented with tabs. *)
Definition tabIndented (line : string) : bool :=
  negb (uncounted line)
  && match spaceIndent line with Some _ => false | None => true end.

Definition spaceIndented (line : string) : bool :=
  match spaceIndent line with Some _ => true | None => false end.

(** ** [stripAst] (lines 100-117)

    The values the function is run on: primitives (anything whose [typeof] is
    not ['object'], and [null]), arrays, whose slots may be empty once an index
    has been deleted, and plain objects with their own enumerable properties
    in enumeration order. *)
Inductive JsValue : Type :=
| JsPrimitive (literal : string)
| JsArray (elements : list (option JsValue))
| JsObject (properties : list (string * JsValue)).

(** How a call completes: it returns, or [delete] throws a [TypeError] (the
    file is a module, hence strict code). *)
Inductive Completion (A : Type) : Type :=
| Normal (value : A)
| ThrowTypeError.
Arguments Normal {A} value.
Arguments ThrowTypeError {A}.

(** The property key of the array index [i]. *)
Definition indexKey (i : nat) : string := NilEmpty.string_of_uint (Nat.to_uint i).

(** [stripAst(node, propToRemove)].  Line 102 deletes the own property; on an
    array that empties the slot of an index and throws for ['length'], which
    cannot be deleted.  The loop of lines 105-114 then runs over the keys that
    are left: a child that is an array has [stripAst] applied to its elements
    (line 109), not to itself; any other object child is stripped (line 111). *)
Fixpoint stripAst (node : JsValue) (propToRemove : string) {struct node}
  : Completion JsValue :=
  let forEach :=
    fix forEach (elements : list (option JsValue)) : Completion (list (option JsValue)) :=
      match elements with
      | [] => Normal []
      | None :: rest =>
          match forEach rest with
          | Normal rest' => Normal (None :: rest')
          | ThrowTypeError => ThrowTypeError
          end
      | Some element :: rest =>
          match stripAst element propToRemove with
          | Normal element' =>
              match forEach rest with
              | Normal rest' => Normal (Some element' :: rest')
              | ThrowTypeError => ThrowTypeError
              end
          | ThrowTypeError => ThrowTypeError
          end
      end in
  let visit (child : JsValue) : Completion JsValue :=
    match child with
    | JsPrimitive _ => Normal child
    | JsArray elements =>
        match forEach elements with
        | Normal elements' => Normal (JsArray elements')
        | ThrowTypeError => ThrowTypeError
        end
    | JsObject _ => stripAst child propToRemove
    end in
  match node with
  | JsPrimitive _ => Normal node
  | JsObject properties =>
      let loop :=
        fix loop (properties : list (string * JsValue))
          : Completion (list (string * JsValue)) :=
          match properties with
          | [] => Normal []
          | (key, child) :: rest =>
              if String.eqb key propToRemove then loop rest
              else
                match visit child with
                | Normal child' =>
                    match loop rest with
                    | Normal rest' => Normal ((key, child') :: rest')
                    | ThrowTypeError => ThrowTypeError
                    end
                | ThrowTypeError => ThrowTypeError
                end
          end in
      match loop properties with
      | Normal properties' => Normal (JsObject properties')
      | ThrowTypeError => ThrowTypeError
      end
  | JsArray elements =>
      if String.eqb propToRemove "length" then ThrowTypeError
      else
        let loop :=
          fix loop (index : nat) (elements : list (option JsValue))
            : Completion (list (option JsValue)) :=
            match elements with
            | [] => Normal []
            | None :: rest =>
                match loop (S index) rest with
                | Normal rest' => Normal (None :: rest')
                | ThrowTypeError => ThrowTypeError
                end
            | Some child :: rest =>
                if String.eqb (indexKey index) propToRemove then
                  match loop (S index) rest with
                  | Normal rest' => Normal (None :: rest')
                  | ThrowTypeError => ThrowTypeError
                  end
                else
                  match visit child with
                  | Normal child' =>
                      match loop (S index) rest with
                      | Normal rest' => Normal (Some child' :: rest')
                      | ThrowTypeError => ThrowTypeError
                      end
                  | ThrowTypeError => ThrowTypeError
                  end
            end in
        match loop 0 elements with
        | Normal elements' => Normal (JsArray elements')
        | ThrowTypeError => ThrowTypeError
        end
  end.

(** The loops of [stripAst] under names of their own: the [forEach] of line
    109, the body of the [for] loop for one child (lines 106-113), and the
    [for] loop over the keys of an object and of an array. *)
Definition forEachElement (propToRemove : string)
  : list (option JsValue) -> Completion (list (option JsValue)) :=
  fix forEach (elements : list (option JsValue)) : Completion (list (option JsValue)) :=
    match elements with
    | [] => Normal []
    | None :: rest =>
        match forEach rest with
        | Normal rest' => Normal (None :: rest')
        | ThrowTypeError => ThrowTypeError
        end
    | Some element :: rest =>
        match stripAst element propToRemove with
        | Normal element' =>
            match forEach rest with
            | Normal rest' => Normal (Some element' :: rest')
            | ThrowTypeError => ThrowTypeError
            end
        | ThrowTypeError => ThrowTypeError
        end
    end.

Definition visitChild (propToRemove : string) (child : JsValue) : Completion JsValue :=
  match child with
  | JsPrimitive _ => Normal child
  | JsArray elements =>
      match forEachElement propToRemove elements with
      | Normal elements' => Normal (JsArray elements')
      | ThrowTypeError => ThrowTypeError
      end
  | JsObject _ => stripAst child propToRemove
  end.

Definition forInObject (propToRemove : string)
  : list (string * JsValue) -> Completion (list (string * JsValue)) :=
  fix loop (properties : list (string * JsValue)) : Completion (list (string * JsValue)) :=
    match properties with
    | [] => Normal []
    | (key, child) :: rest =>
        if String.eqb key propToRemove then loop rest
        else
          match visitChild propToRemove child with
          | Normal child' =>
              match loop rest with
              | Normal rest' => Normal ((key, child') :: rest')
              | ThrowTypeError => ThrowTypeError
              end
          | ThrowTypeError => ThrowTypeError
          end
    end.

Definition forInArray (propToRemove : string)
  : nat -> list (option JsValue) -> Completion (list (option JsValue)) :=
  fix loop (index : nat) (elements : list (option JsValue))
    : Completion (list (option JsValue)) :=
    match elements with
    | [] => Normal []
    | None :: rest =>
        match loop (S index) rest with
        | Normal rest' => Normal (None :: rest')
        | ThrowTypeError => ThrowTypeError
        end
    | Some child :: rest =>
        if String.eqb (indexKey index) propToRemove then
          match loop (S index) rest with
          | Normal rest' => Normal (None :: rest')
          | ThrowTypeError => ThrowTypeError
          end
        else
          match visitChild propToRemove child with
          | Normal child' =>
              match loop (S index) rest with
              | Normal rest' => Normal (Some child' :: rest')
              | ThrowTypeError => ThrowTypeError
              end
          | ThrowTypeError => ThrowTypeError
          end
    end.

(** Does some object of the tree own the property? *)
Fixpoint ownsProperty (key : string) (node : JsValue) {struct node} : bool :=
  match node with
  | JsPrimitive _ => false
  | JsArray elements =>
      existsb (fun slot => match slot with
                           | Some element => ownsProperty key element
                           | None => false
                           end) elements
  | JsObject properties =>
      existsb (fun '(k, child) => String.eqb k key || ownsProperty key child) properties
  end.

(** The children of every node satisfy [P]. *)
Definition slotHolds (P : JsValue -> Prop) (slot : option JsValue) : Prop :=
  match slot with
  | Some element => P element
  | None => True
  end.

(** The call returns: no error is thrown. *)
Definition returns {A : Type} (c : Completion A) : Prop := exists value, c = Normal value.

(** Sample trees: an identifier node with its location, and a call with an
    argument list. *)
Definition sampleIdentifier (name : string) : JsValue :=
  JsObject [("type", JsPrimitive "Identifier"); ("name", JsPrimitive name);
            ("loc", JsObject [("start", JsPrimitive "0"); ("end", JsPrimitive "1")])].

Definition sampleCall : JsValue :=
  JsObject [("type", JsPrimitive "CallExpression");
            ("loc", JsObject [("start", JsPrimitive "0"); ("end", JsPrimitive "9")]);
            ("callee", sampleIdentifier "f");
            ("arguments", JsArray [Some (sampleIdentifier "a"); Some (sampleIdentifier "b")])].

(** ** [parseSvelte] (lines 125-153)

    The function takes the [script] and [style] elements out of the children
    of the parsed document and hands their text to the script and the style
    parser.  The model starts from the child nodes [parseHtml] returns and
    stops at the two texts handed on: the three parsers are libraries. *)

(** [ElementType] of the HTML parser. *)
Inductive ElementType : Type :=
| Root | Text | Directive | Comment | Script | Style | Tag | CDATA | Doctype.

(** A child node of the document: its type and the text [textContent]
    reads off it. *)
Record ChildNode : Type := mkChildNode { nodeType : ElementType; textContent : string }.

Definition isScript (node : ChildNode) : bool :=
  match nodeType node with Script => true | _ => false end.

Definition isStyle (node : ChildNode) : bool :=
  match nodeType node with Style => true | _ => false end.

(** The variables of the loop, with the array [htmlAst.childNodes] the loop
    runs over and [removeElement] takes nodes out of. *)
Record Tags : Type := mkTags {
  childNodes : list ChildNode;
  scriptTag : option ChildNode;
  styleTag : option ChildNode
}.

(** Lines 130-136, for the node at [index].  The nodes of a document are
    distinct objects, so [removeElement] takes out the slot the iterator is
    at. *)
Definition visitNode (node : ChildNode) (index : nat) (st : Tags) : Tags :=
  if isScript node then
    mkTags (delete index (childNodes st)) (Some node) (styleTag st)
  else if isStyle node then
    mkTags (delete index (childNodes st)) (scriptTag st) (Some node)
  else st.

(** [for (const node of htmlAst.childNodes)] (line 129): the array iterator
    reads the slot at its index from the array as it is at that moment and
    ends when the index is past the end.  [None]: out of fuel. *)
Fixpoint forOfChildNodes (fuel : nat) (index : nat) (st : Tags)
  : option Tags :=
  match fuel with
  | 0 => None
  | S fuel =>
      match childNodes st !! index with
      | None => Some st
      | Some node => forOfChildNodes fuel (S index) (visitNode node index st)
      end
  end.

(** What [parseSvelte] hands on: the script text for [parseScript], the
    children left in the document, the style text for [parseCss]. *)
Record SvelteParts : Type := mkSvelteParts {
  scriptValue : string;
  htmlChildren : list ChildNode;
  css : string
}.

(** Lines 139-144: a missing tag is replaced by a new, empty element. *)
Definition orNewElement (tag : option ChildNode) (type : ElementType) : ChildNode :=
  match tag with
  | Some node => node
  | None => mkChildNode type EmptyString
  end.

Definition parseSvelte (nodes : list ChildNode) : option SvelteParts :=
  match forOfChildNodes (S (length nodes)) 0 (mkTags nodes None None) with
  | Some st =>
      let scriptTag := orNewElement (scriptTag st) Script in
      let styleTag := orNewElement (styleTag st) Style in
      Some (mkSvelteParts (textContent scriptTag) (childNodes st) (textContent styleTag))
  | None => None
  end.

Definition isTag (node : ChildNode) : bool := isScript node || isStyle node.

(** The loop read along the nodes still to come: a node taken out makes the
    iterator pass over the node that follows it. *)
Fixpoint scanNodes (nodes : list ChildNode) (scriptTag styleTag : option ChildNode)
  {struct nodes} : list ChildNode * option ChildNode * option ChildNode :=
  match nodes with
  | [] => ([], scriptTag, styleTag)
  | node :: rest =>
      let skipNext (scriptTag styleTag : option ChildNode) :=
        match rest with
        | [] => ([], scriptTag, styleTag)
        | next :: rest' =>
            let '(kept, s, t) := scanNodes rest' scriptTag styleTag in
            (next :: kept, s, t)
        end in
      if isScript node then skipNext (Some node) styleTag
      else if isStyle node then skipNext scriptTag (Some node)
      else
        let '(kept, s, t) := scanNodes rest scriptTag styleTag in
        (node :: kept, s, t)
  end.

(** No [script] or [style] element is directly followed by another. *)
Fixpoint separated (nodes : list ChildNode) : bool :=
  match nodes with
  | node :: ((next :: _) as rest) => negb (isTag node && isTag next) && separated rest
  | _ => true
  end.

(** The last node of a list that satisfies [P]. *)
Definition lastSuch (P : ChildNode -> bool) (nodes : list ChildNode) : option ChildNode :=
  fold_left (fun found node => if P node then Some node else found) nodes None.

Definition isOther (node : ChildNode) : bool := negb (isTag node).

(** The last node satisfying [P], after [found]. *)
Definition lastAfter (P : ChildNode -> bool) (found : option ChildNode)
  (nodes : list ChildNode) : option ChildNode :=
  fold_left (fun found node => if P node then Some node else found) nodes found.

(** The blocks [addGlobalAppInterface] creates in a file without
    [declare global]: [declare global { namespace App { interface Name {} } }]. *)
Definition appSkeleton (name : InterfaceName) : TSNode :=
  TSModuleDeclaration true true (IdIdentifier "global")
    (Some (TSModuleBlock
       [TSModuleDeclaration false false (IdIdentifier "App")
          (Some (TSModuleBlock [emptyInterface name]))])).

(** A declaration file whose interface sits directly in [declare global]. *)
Definition localsOutsideApp : list TSNode :=
  [TSOther "ExportNamedDeclaration" [];
   TSModuleDeclaration true true (IdIdentifier "global")
     (Some (TSModuleBlock [TSInterfaceDeclaration "Locals" ["user: User"]]))].

(** The statements a merge has no business with: every statement of the body
    that is not an import and is neither the declaration nor the export the
    locator found. *)
Definition bystander (ast : Ast) (finding : Finding) (l : loc) : bool :=
  match heap ast !! l with
  | Some n => negb (isImportNode n)
  | None => false
  end
  && negb (bool_decide (originalHandleDecl finding = Some l))
  && negb (bool_decide (exportDecl finding = Some l)).

Definition bystanders (ast : Ast) : list Statement :=
  map (printStatement (heap ast)) (List.filter (bystander ast (locate ast)) (body ast)).

(** ** Programs the locator is stated for

    A namespace or module block ([namespace N { ... }], [declare module],
    [declare global]) is a [TSModuleDeclaration] statement; the statements
    inside it are not part of [Program], which keeps such a block as
    [OtherStatement "TSModuleDeclaration" _].  The walker of line 79 goes into
    the block and visits the export statements it holds, which [locate] does
    not see.  A program is flat when it has no such block: there the walker
    visits exactly the export statements of the body, in order.  (An exported
    block, [export namespace N { ... }], is an export statement, below which
    nothing is visited.) *)
Definition isModuleBlock (s : Statement) : bool :=
  match s with
  | OtherStatement shape _ => String.eqb shape "TSModuleDeclaration"
  | _ => false
  end.

Definition flat (p : Program) : bool := negb (existsb isModuleBlock p).

(** The declaration the visitor takes for an export statement (lines 84-97):
    for a [handle] specifier the first function declaration of the body with
    the local name, else the first variable declaration with it; failing
    that, and without a [handle] specifier, the inline declaration. *)
Definition candidate (ast : Ast) (declaration : option loc)
  (specifiers : list ExportSpecifier) : option loc :=
  match List.find (fun s => String.eqb (exportedName s) "handle") specifiers with
  | Some handleSpecifier =>
      match List.find (fun n => isFunctionDeclaration (heap ast !! n)
                                  (localName handleSpecifier)) (body ast) with
      | Some handleFunc => Some handleFunc
      | None =>
          match List.find (fun n => isVariableDeclaration (heap ast !! n)
                                      (localName handleSpecifier)) (body ast) with
          | Some handleVar => Some handleVar
          | None => declaration
          end
      end
  | None => declaration
  end.

(** The flag and the name after the visitor has been at an export statement
    (lines 85-88): set by a [handle] specifier, otherwise as they were. *)
Definition settingAt (st : Finding) (specifiers : list ExportSpecifier) : bool * string :=
  match List.find (fun s => String.eqb (exportedName s) "handle") specifiers with
  | Some handleSpecifier => (true, localName handleSpecifier)
  | None => (isSpecifier st, handleName st)
  end.

(** No export statement among [ls] carries a [handle] specifier. *)
Definition noHandleSpecifier (ast : Ast) (ls : list loc) : Prop :=
  forall y d sp, In y ls -> heap ast !! y = Some (NExport d sp) ->
    hasHandleSpecifier sp = false.

(** Every inline-exported declaration is a function or a variable declaration
    whose declarators bind plain identifiers: the declarations of which
    [exportsHandle] can tell the exported names. *)
Definition bindsIdentifier (d : VariableDeclarator) : bool :=
  match d with
  | Declarator (PIdentifier _ _) _ => true
  | Declarator (POther _) _ => false
  end.

Definition plainExport (s : Statement) : bool :=
  match s with
  | ExportNamedDeclaration (Some (VariableDeclaration _ ds)) _ => forallb bindsIdentifier ds
  | ExportNamedDeclaration (Some (FunctionDeclaration (Some _) _)) _ => true
  | ExportNamedDeclaration (Some _) _ => false
  | _ => true
  end.

Definition plainExports (p : Program) : bool := forallb plainExport p.

(** * Properties *)

(** ** Structural equality and the duplicate check *)

Lemma areNodesEqual_refl : forall e, common.areNodesEqual e e = true.
Proof.
  fix IH 1.
  intros [x | f xs | k xs]; simpl.
  - apply String.eqb_refl.
  - rewrite IH. simpl.
    induction xs as [| x xs IHxs]; [reflexivity |].
    rewrite IH. exact IHxs.
  - rewrite String.eqb_refl. simpl.
    induction xs as [| x xs IHxs]; [reflexivity |].
    rewrite IH. exact IHxs.
Qed.

Lemma occursIn_refl e : common.occursIn e e = true.
Proof.
  assert (H : forall t, common.areNodesEqual t t = true -> common.occursIn t t = true).
  { intros [x | f xs | k xs] Ht; cbn [common.occursIn]; rewrite Ht; reflexivity. }
  apply H, areNodesEqual_refl.
Qed.

(** A declaration built for the fragment holds the fragment. *)
Lemma occursIn_new_declaration ts name e :
  common.occursInDeclaration e (annotated ts (variables.declaration "const" name e)) = true.
Proof.
  destruct ts; simpl; rewrite occursIn_refl; reflexivity.
Qed.

Lemma hasNode_intro ast l d e :
  In l (body ast) ->
  heap ast !! l = Some (NDeclaration d) ->
  common.occursInDeclaration e d = true ->
  common.hasNode ast e = true.
Proof.
  intros Hin Hl Hd. unfold common.hasNode, print.
  apply existsb_exists. exists (DeclarationStatement d). split.
  - apply in_map_iff. exists l. split; [| exact Hin].
    unfold printStatement. rewrite Hl. reflexivity.
  - exact Hd.
Qed.

(** ** The store: lookups after creation and mutation *)

Lemma lookup_alloc_old (h : list Node) n l :
  l < length h -> (h ++ [n]) !! l = h !! l.
Proof. intros H. apply lookup_app_l. exact H. Qed.

Lemma lookup_alloc_new (h : list Node) n : (h ++ [n]) !! length h = Some n.
Proof. apply list_lookup_middle. reflexivity. Qed.

Lemma lookup_fresh (h ext : list Node) i k :
  i = length h + k -> (h ++ ext) !! i = ext !! k.
Proof.
  intros ->. rewrite lookup_app_r by lia.
  replace (length h + k - length h) with k by lia. reflexivity.
Qed.

Lemma lookup_alloc_Some (h : list Node) n l x :
  h !! l = Some x -> (h ++ [n]) !! l = Some x.
Proof. intros H. apply lookup_app_l_Some. exact H. Qed.

Lemma lookup_alloc_cases (h : list Node) n l :
  (l < length h /\ (h ++ [n]) !! l = h !! l)
  \/ (l = length h /\ (h ++ [n]) !! l = Some n)
  \/ (length h < l /\ (h ++ [n]) !! l = None /\ h !! l = None).
Proof.
  destruct (lt_eq_lt_dec l (length h)) as [[Hlt | Heq] | Hgt].
  - left. split; [exact Hlt | apply lookup_alloc_old; exact Hlt].
  - right. left. subst l. split; [reflexivity | apply lookup_alloc_new].
  - right. right. split; [exact Hgt |]. split.
    + apply lookup_ge_None. rewrite length_app. simpl. lia.
    + apply lookup_ge_None. lia.
Qed.

(** ** Imports do not hold expressions: the duplicate check ignores them *)

Lemma printDeclaration_alloc_import h n d :
  isImportNode n = true ->
  printDeclaration (h ++ [n]) d = printDeclaration h d.
Proof.
  intros Hn. unfold printDeclaration.
  destruct (lookup_alloc_cases h n d) as [[_ E] | [[Hd E] | [_ [E E']]]].
  - rewrite E. reflexivity.
  - rewrite E. destruct n; try discriminate.
    rewrite (lookup_ge_None_2 h d) by lia. reflexivity.
  - rewrite E, E'. reflexivity.
Qed.

Lemma occursInStatement_importBlind e : importBlind (common.occursInStatement e).
Proof. split; reflexivity. Qed.

Lemma exportsHandle_importBlind : importBlind exportsHandle.
Proof. split; reflexivity. Qed.

Lemma blind_print_alloc_import q h n l :
  importBlind q -> isImportNode n = true ->
  q (printStatement (h ++ [n]) l) = q (printStatement h l).
Proof.
  intros [Hq Hu] Hn. unfold printStatement.
  destruct (lookup_alloc_cases h n l) as [[_ E] | [[Hl E] | [_ [E E']]]].
  - rewrite E. destruct (h !! l) as [[| | d sp | |]|]; try reflexivity.
    destruct d as [d|]; [| reflexivity]. simpl.
    rewrite printDeclaration_alloc_import by exact Hn. reflexivity.
  - rewrite E. rewrite (lookup_ge_None_2 h l) by lia.
    destruct n; try discriminate. rewrite Hq, Hu. reflexivity.
  - rewrite E, E'. reflexivity.
Qed.

Lemma printDeclaration_alter_import h i f d :
  (forall n, isImportNode n = true -> isImportNode (f n) = true) ->
  (exists n, h !! i = Some n /\ isImportNode n = true) ->
  printDeclaration (alter f i h) d = printDeclaration h d.
Proof.
  intros Hf [n [Hi Hn]]. unfold printDeclaration.
  destruct (decide (i = d)) as [<- | Hne].
  - rewrite list_lookup_alter_eq, Hi. simpl.
    specialize (Hf n Hn). destruct (f n); try discriminate.
    destruct n; try discriminate. reflexivity.
  - rewrite list_lookup_alter_ne by exact Hne. reflexivity.
Qed.

Lemma blind_print_alter_import q h i f l :
  importBlind q ->
  (forall n, isImportNode n = true -> isImportNode (f n) = true) ->
  (exists n, h !! i = Some n /\ isImportNode n = true) ->
  q (printStatement (alter f i h) l) = q (printStatement h l).
Proof.
  intros [Hq Hu] Hf Hi. unfold printStatement.
  destruct (decide (i = l)) as [<- | Hne].
  - destruct Hi as [n [Hi Hn]]. rewrite list_lookup_alter_eq, Hi. simpl.
    specialize (Hf n Hn). destruct (f n); try discriminate.
    destruct n; try discriminate. rewrite !Hq. reflexivity.
  - rewrite list_lookup_alter_ne by exact Hne.
    destruct (h !! l) as [[| | d sp | |]|]; try reflexivity.
    destruct d as [d|]; [| reflexivity]. simpl.
    rewrite printDeclaration_alter_import by assumption. reflexivity.
Qed.

Lemma addSpecifier_import a b n :
  isImportNode n = true -> isImportNode (imports.addSpecifier a b n) = true.
Proof. destruct n; simpl; congruence. Qed.

Lemma filter_map_ext {A B} (f g : A -> B) (p : B -> bool) (l : list A) :
  (forall x, p (f x) = p (g x)) ->
  map p (map f l) = map p (map g l).
Proof.
  intros H. induction l as [| x l IH]; simpl; [reflexivity |].
  rewrite H, IH. reflexivity.
Qed.

Lemma existsb_as_map {A} (p : A -> bool) (l : list A) :
  existsb p l = existsb (fun b => b) (map p l).
Proof. induction l as [| x l IH]; simpl; [reflexivity | rewrite IH; reflexivity]. Qed.

Lemma count_as_map {A} (p : A -> bool) (l : list A) :
  length (List.filter p l) = length (List.filter (fun b => b) (map p l)).
Proof.
  induction l as [| x l IH]; simpl; [reflexivity |].
  destruct (p x); simpl; rewrite IH; reflexivity.
Qed.

(** What an import-blind observation sees of each statement is the same
    before and after [imports.addNamed], the new import statement apart. *)
Lemma blind_addNamed q ast src a b k :
  importBlind q ->
  List.filter (fun b => b) (map q (print (imports.addNamed ast src a b k)))
  = List.filter (fun b => b) (map q (print ast)).
Proof.
  intros Hq. unfold imports.addNamed.
  destruct (imports.lastImportFrom ast src) as [l|].
  - destruct (heap ast !! l) as [[s sp t | | | |]|] eqn:Hl; try reflexivity.
    destruct (existsb _ sp); [reflexivity |].
    unfold print, mutate. simpl. f_equal.
    apply filter_map_ext. intros x.
    apply blind_print_alter_import; [exact Hq | |].
    + intros n. apply addSpecifier_import.
    + exists (NImport s sp t). split; [exact Hl | reflexivity].
  - unfold print, alloc, unshift. simpl.
    rewrite blind_print_alloc_import by (exact Hq || reflexivity).
    unfold printStatement at 1. rewrite (lookup_ge_None_2 (heap ast)) by lia.
    destruct Hq as [Hq Hu]. rewrite Hu. simpl. f_equal.
    apply filter_map_ext. intros x.
    apply blind_print_alloc_import; [split; assumption | reflexivity].
Qed.

(** [imports.addNamed] has no bearing on the duplicate check, nor on the
    exports of [handle]. *)
Lemma hasNode_addNamed ast src a b k e :
  common.hasNode (imports.addNamed ast src a b k) e = common.hasNode ast e.
Proof.
  unfold common.hasNode. rewrite !(existsb_as_map (common.occursInStatement e)).
  assert (H : forall l : list bool,
             existsb (fun b => b) l = existsb (fun b => b) (List.filter (fun b => b) l)).
  { induction l as [| [] l IH]; simpl; congruence. }
  rewrite H, (H (map _ (print ast))).
  rewrite blind_addNamed by apply occursInStatement_importBlind. reflexivity.
Qed.

Lemma countHandleExports_addNamed ast src a b k :
  countHandleExports (print (imports.addNamed ast src a b k))
  = countHandleExports (print ast).
Proof.
  unfold countHandleExports. rewrite !(count_as_map exportsHandle).
  rewrite blind_addNamed by apply exportsHandle_importBlind. reflexivity.
Qed.

Lemma hasNode_addHandleType ast ts e :
  common.hasNode (addHandleType ast ts) e = common.hasNode ast e.
Proof. destruct ts; simpl; [apply hasNode_addNamed | reflexivity]. Qed.

(** A call that the duplicate check stops only does what lines 65-67 do. *)
Lemma addHooksHandle_present ast ts name e :
  common.hasNode ast e = true ->
  addHooksHandle ast ts name e = addHandleType ast ts.
Proof.
  intros H. unfold addHooksHandle.
  rewrite hasNode_addHandleType, H. reflexivity.
Qed.

(** ** C10: the type import precedes the duplicate check *)

(** C10.  When the fragment's expression is already in the tree, a call with
    [typescript = true] still merges the type import [{ Handle }] from
    ['@sveltejs/kit'] into the tree and does nothing else: the result is that
    of [imports.addNamed] alone, and where the tree had no import from that
    module the printed program changes, a new import statement heading it.
    With [typescript = false] the same call leaves the store as it was. *)
Theorem present_fragment_still_adds_type_import ast name e :
  common.hasNode ast e = true ->
  addHooksHandle ast true name e
    = imports.addNamed ast "@sveltejs/kit" "Handle" "Handle" true
  /\ (imports.lastImportFrom ast "@sveltejs/kit" = None ->
      hd_error (print (addHooksHandle ast true name e))
        = Some (ImportDeclaration "@sveltejs/kit" [ImportSpec "Handle" "Handle"] true)
      /\ print (addHooksHandle ast true name e) <> print ast)
  /\ addHooksHandle ast false name e = ast.
Proof.
  intros H. split; [| split].
  - rewrite addHooksHandle_present by exact H. reflexivity.
  - intros Hnone. rewrite addHooksHandle_present by exact H.
    unfold addHandleType, imports.addNamed. rewrite Hnone.
    unfold print, alloc, unshift. simpl. split.
    + unfold printStatement. rewrite lookup_alloc_new. reflexivity.
    + intros Heq. apply (f_equal (@length Statement)) in Heq.
      simpl in Heq. rewrite !length_map in Heq. lia.
  - rewrite addHooksHandle_present by exact H. reflexivity.
Qed.

Lemma present_fragment_still_adds_type_import_witness :
  common.hasNode (load [ExpressionStatement sampleHandle]) sampleHandle = true
  /\ print (addHooksHandle (load [ExpressionStatement sampleHandle]) true "c" sampleHandle)
     <> print (load [ExpressionStatement sampleHandle])
  /\ addHooksHandle (load [ExpressionStatement sampleHandle]) false "c" sampleHandle
     = load [ExpressionStatement sampleHandle].
Proof.
  split; [reflexivity |].
  destruct (present_fragment_still_adds_type_import
              (load [ExpressionStatement sampleHandle]) "c" sampleHandle eq_refl)
    as [_ [Hb Hc]].
  split; [| exact Hc].
  apply Hb. reflexivity.
Defined.

(** ** C7: which export the locator settles on *)

Lemma visitExport_exportDecl ast st node :
  exportDecl (visitExport ast st node)
  = if matches ast st node then Some node else exportDecl st.
Proof.
  unfold visitExport, matches.
  destruct (heap ast !! node) as [[| | d sp | |]|]; try reflexivity.
  destruct (resolveExport ast st d sp) as [[isSpec name] maybe].
  destruct (declaresHandle ast maybe name); reflexivity.
Qed.

Lemma fold_visit_no_match ast post : forall pre st,
  st = fold_left (visitExport ast) pre noFinding ->
  (forall post1 y post2, post = post1 ++ y :: post2 ->
     matchesAfter ast (pre ++ post1) y = false) ->
  exportDecl (fold_left (visitExport ast) post st) = exportDecl st.
Proof.
  induction post as [| y post IH]; intros pre st Hst Hno; [reflexivity |].
  simpl. rewrite (IH (pre ++ [y])).
  - rewrite visitExport_exportDecl.
    specialize (Hno [] y post eq_refl). rewrite app_nil_r in Hno.
    unfold matchesAfter in Hno. rewrite <- Hst in Hno. rewrite Hno. reflexivity.
  - rewrite fold_left_app. simpl. rewrite Hst. reflexivity.
  - intros post1 z post2 Heq.
    rewrite <- app_assoc. simpl.
    apply (Hno (y :: post1) z post2). rewrite Heq. reflexivity.
Qed.

Lemma resolveExport_parts ast st d sp :
  resolveExport ast st d sp
  = ((settingAt st sp).1, (settingAt st sp).2, candidate ast d sp).
Proof.
  unfold resolveExport, settingAt, candidate.
  destruct (List.find _ sp) as [s |]; [| destruct d; reflexivity].
  destruct (List.find _ (body ast)) as [f |]; [reflexivity |].
  destruct (List.find _ (body ast)) as [v |]; [reflexivity |].
  destruct d; reflexivity.
Qed.

(** The visitor at an export statement: the flag and the name are set as the
    specifiers say; the two references are overwritten when the statement
    matches and kept when it does not. *)
Lemma visitExport_fields ast st node d sp :
  heap ast !! node = Some (NExport d sp) ->
  visitExport ast st node
  = if matches ast st node
    then mkFinding (settingAt st sp).1 (settingAt st sp).2 (Some node) (candidate ast d sp)
    else mkFinding (settingAt st sp).1 (settingAt st sp).2
           (exportDecl st) (originalHandleDecl st).
Proof.
  intros H. unfold visitExport, matches. rewrite H, resolveExport_parts.
  destruct (declaresHandle _ _ _); reflexivity.
Qed.

Lemma visitExport_passes ast st node :
  matches ast st node = false ->
  (forall d sp, heap ast !! node = Some (NExport d sp) -> hasHandleSpecifier sp = false) ->
  visitExport ast st node = st.
Proof.
  intros Hm Hs. destruct (heap ast !! node) as [[| | d sp | |] |] eqn:H;
    try (unfold visitExport; rewrite H; reflexivity).
  rewrite (visitExport_fields ast st node d sp H), Hm.
  specialize (Hs d sp eq_refl). unfold settingAt.
  replace (List.find (fun s => String.eqb (exportedName s) "handle") sp) with (@None ExportSpecifier).
  - destruct st; reflexivity.
  - symmetry. unfold hasHandleSpecifier in Hs.
    destruct (List.find _ sp) as [s |] eqn:Hf; [| reflexivity].
    apply List.find_some in Hf. destruct Hf as [Hin Hq].
    assert (existsb (fun s => String.eqb (exportedName s) "handle") sp = true)
      by (apply existsb_exists; exists s; split; assumption).
    congruence.
Qed.

Lemma visitExport_keeps_references ast st node :
  matches ast st node = false ->
  exportDecl (visitExport ast st node) = exportDecl st
  /\ originalHandleDecl (visitExport ast st node) = originalHandleDecl st.
Proof.
  intros Hm. destruct (heap ast !! node) as [[| | d sp | |] |] eqn:H;
    try (unfold visitExport; rewrite H; split; reflexivity).
  rewrite (visitExport_fields ast st node d sp H), Hm. split; reflexivity.
Qed.

(** Statements that do not match leave the two references as they are, and
    the whole finding when none of them carries a [handle] specifier. *)
Lemma fold_visit_keeps ast post : forall pre st,
  st = fold_left (visitExport ast) pre noFinding ->
  (forall post1 y post2, post = post1 ++ y :: post2 ->
     matchesAfter ast (pre ++ post1) y = false) ->
  originalHandleDecl (fold_left (visitExport ast) post st) = originalHandleDecl st
  /\ (noHandleSpecifier ast post -> fold_left (visitExport ast) post st = st).
Proof.
  induction post as [| y post IH]; intros pre st Hst Hno; [split; reflexivity |].
  assert (Hy : matches ast st y = false).
  { specialize (Hno [] y post eq_refl). rewrite app_nil_r in Hno.
    unfold matchesAfter in Hno. rewrite <- Hst in Hno. exact Hno. }
  destruct (IH (pre ++ [y]) (visitExport ast st y)) as [IH1 IH2].
  - rewrite fold_left_app. simpl. rewrite Hst. reflexivity.
  - intros post1 z post2 Heq. rewrite <- app_assoc. simpl.
    apply (Hno (y :: post1) z post2). rewrite Heq. reflexivity.
  - simpl. split.
    + rewrite IH1. exact (proj2 (visitExport_keeps_references ast st y Hy)).
    + intros Hs.
      assert (Hpass : visitExport ast st y = st).
      { apply visitExport_passes; [exact Hy |].
        intros d sp H. apply (Hs y d sp); [left; reflexivity | exact H]. }
      rewrite IH2.
      * exact Hpass.
      * intros z d sp Hin. apply Hs. right. exact Hin.
Qed.

(** C7 (as amended).  In a program without namespace or module blocks every
    export that matches overwrites both references of the finding, so the
    locator returns the export that matches last in source order: when [x]
    matches as the walk reaches it and no export after it matches, the export
    returned is [x] and the declaration returned is the one [x] resolves to,
    whatever matched before; and the flag and the name are those set at [x]
    unless a later export statement carries a [handle] specifier. *)
Theorem locate_returns_last_match p pre x post d sp :
  flat p = true ->
  body (load p) = pre ++ x :: post ->
  heap (load p) !! x = Some (NExport d sp) ->
  matchesAfter (load p) pre x = true ->
  (forall post1 y post2, post = post1 ++ y :: post2 ->
     matchesAfter (load p) (pre ++ x :: post1) y = false) ->
  exportDecl (locate (load p)) = Some x
  /\ originalHandleDecl (locate (load p)) = candidate (load p) d sp
  /\ (noHandleSpecifier (load p) post ->
      (isSpecifier (locate (load p)), handleName (locate (load p)))
      = settingAt (fold_left (visitExport (load p)) pre noFinding) sp).
Proof.
  intros _ Hbody Hx Hm Hpost. set (ast := load p) in *.
  set (st := fold_left (visitExport ast) pre noFinding).
  assert (Hat : visitExport ast st x
                = mkFinding (settingAt st sp).1 (settingAt st sp).2 (Some x)
                    (candidate ast d sp)).
  { rewrite (visitExport_fields ast st x d sp Hx).
    unfold matchesAfter in Hm. fold st in Hm. rewrite Hm. reflexivity. }
  assert (Hlocate : locate ast = fold_left (visitExport ast) post (visitExport ast st x)).
  { unfold locate. rewrite Hbody, fold_left_app. reflexivity. }
  assert (Hno : forall post1 y post2, post = post1 ++ y :: post2 ->
                  matchesAfter ast ((pre ++ [x]) ++ post1) y = false).
  { intros post1 y post2 Heq. rewrite <- app_assoc. simpl. exact (Hpost post1 y post2 Heq). }
  assert (Hst : visitExport ast st x = fold_left (visitExport ast) (pre ++ [x]) noFinding).
  { rewrite fold_left_app. reflexivity. }
  destruct (fold_visit_keeps ast post (pre ++ [x]) _ Hst Hno) as [Ho Hall].
  split; [| split].
  - rewrite Hlocate, (fold_visit_no_match ast post (pre ++ [x]) _ Hst Hno), Hat.
    reflexivity.
  - rewrite Hlocate, Ho, Hat. reflexivity.
  - intros Hs. rewrite Hlocate, (Hall Hs), Hat. cbn [isSpecifier handleName].
    destruct (settingAt st sp); reflexivity.
Qed.

Lemma locate_returns_last_match_witness :
  exportDecl
    (locate (load [exportConst "handle" None (Identifier "first");
                   exportConst "handle" None (Identifier "second")])) = Some 3
  /\ originalHandleDecl
       (locate (load [exportConst "handle" None (Identifier "first");
                      exportConst "handle" None (Identifier "second")])) = Some 2.
Proof.
  destruct (locate_returns_last_match
              [exportConst "handle" None (Identifier "first");
               exportConst "handle" None (Identifier "second")]
              [1] 3 [] (Some 2) []) as [He [Ho _]].
  - reflexivity.
  - reflexivity.
  - reflexivity.
  - reflexivity.
  - intros [| z post1] y post2 H; discriminate H.
  - split; [exact He | exact Ho].
Defined.

(** The claim as stated fails: with two exports of [handle] the locator
    returns the second, not the first. *)
Lemma locate_returns_first_match_fails :
  locatedExport
    (load [exportConst "handle" None (Identifier "first");
           exportConst "handle" None (Identifier "second")])
  = Some (exportConst "handle" None (Identifier "second"))
  /\ locatedExport
       (load [exportConst "handle" None (Identifier "first");
              exportConst "handle" None (Identifier "second")])
     <> Some (exportConst "handle" None (Identifier "first")).
Proof. split; [reflexivity | discriminate]. Qed.

(** ** C2: an existing [sequence] call *)

(** C2 (the code at the failing input).  On
    [export const handle = sequence(a, b);] and the new unit [c] the append is
    performed, and then, the block of lines 161-180 not returning, the promote
    path runs as well: the composition is renamed to [originalHandle] and
    wrapped in a second [sequence] call. *)
Theorem append_then_promote :
  merged [exportConst "handle" None (sequenceOf ["a"; "b"])] false "c" sampleHandle
  = [hooksImport;
     constDecl "originalHandle" None (sequenceOf ["a"; "b"; "c"]);
     constDecl "c" None sampleHandle;
     exportConst "handle" None (sequenceOf ["originalHandle"; "c"])].
Proof. reflexivity. Qed.

(** ** C5: a function exported through an aliasing specifier *)

(** The claim as stated fails: the export of the public name stays the
    specifier [export { foo as handle }]; no [export const handle] appears. *)
Lemma specifier_export_not_replaced :
  List.filter exportsHandle
    (merged [DeclarationStatement (FunctionDeclaration (Some "foo") []);
             ExportNamedDeclaration None [Specifier (Some "foo") "handle"]]
            false "c" sampleHandle)
  = [ExportNamedDeclaration None [Specifier (Some "foo") "handle"]]
  /\ ~ In (exportConst "handle" None (sequenceOf ["originalHandle"; "c"]))
          (merged [DeclarationStatement (FunctionDeclaration (Some "foo") []);
                   ExportNamedDeclaration None [Specifier (Some "foo") "handle"]]
                  false "c" sampleHandle).
Proof.
  split; [reflexivity |].
  vm_compute. intros H.
  repeat (destruct H as [H | H]; [discriminate H |]). exact H.
Qed.

(** ** C6: no existing handle *)

(** The claim as stated fails: a program without a [handle] export that
    already holds the fragment's expression gets nothing emitted. *)
Lemma create_skipped_when_fragment_present :
  countHandleExports [ExpressionStatement sampleHandle] = 0
  /\ merged [ExpressionStatement sampleHandle] false "c" sampleHandle
     = [ExpressionStatement sampleHandle].
Proof. split; reflexivity. Qed.

(** ** Closed stores and the parser's object graph *)

Lemma closed_alt ast :
  closed ast <->
  forall l, In l (body ast) ->
    l < length (heap ast)
    /\ forall d, declarationOf (heap ast !! l) = Some d -> d < length (heap ast).
Proof.
  unfold closed, references. rewrite Forall_app, !List.Forall_forall. split.
  - intros [Hb Hd] l Hl. split.
    + apply Hb. exact Hl.
    + intros d Hdl. apply Hd. apply list_elem_of_In. apply list_elem_of_omap.
      exists l. split; [apply list_elem_of_In; exact Hl | exact Hdl].
  - intros H. split.
    + intros l Hl. apply H. exact Hl.
    + intros d Hd. apply list_elem_of_In in Hd.
      apply list_elem_of_omap in Hd as [l [Hl Hdl]].
      apply list_elem_of_In in Hl. apply (H l Hl). exact Hdl.
Qed.

Lemma printDeclaration_ext (h ext : list Node) d :
  d < length h -> printDeclaration (h ++ ext) d = printDeclaration h d.
Proof. intros H. unfold printDeclaration. rewrite lookup_app_l by exact H. reflexivity. Qed.

Lemma printStatement_ext (h ext : list Node) l :
  l < length h ->
  (forall d, declarationOf (h !! l) = Some d -> d < length h) ->
  printStatement (h ++ ext) l = printStatement h l.
Proof.
  intros Hl Hd. unfold printStatement. rewrite lookup_app_l by exact Hl.
  destruct (h !! l) as [[| | d sp | |]|]; try reflexivity.
  destruct d as [d|]; [| reflexivity]. simpl.
  rewrite printDeclaration_ext; [reflexivity |]. apply Hd. reflexivity.
Qed.

Lemma print_ext ast ext :
  closed ast ->
  map (printStatement (heap ast ++ ext)) (body ast)
  = map (printStatement (heap ast)) (body ast).
Proof.
  intros Hc. apply map_ext_in. intros l Hl.
  apply closed_alt in Hl as [H1 H2]; [| exact Hc].
  apply printStatement_ext; assumption.
Qed.

Lemma allocStatement_spec s h :
  exists ext,
    snd (allocStatement s h) = h ++ ext
    /\ length h <= fst (allocStatement s h) < length (h ++ ext)
    /\ (forall d, declarationOf ((h ++ ext) !! fst (allocStatement s h)) = Some d ->
          length h <= d < length (h ++ ext))
    /\ printStatement (h ++ ext) (fst (allocStatement s h)) = s.
Proof.
  destruct s as [src sp k | d | [d|] sp | e | k c]; simpl;
    match goal with
    | |- exists ext, ?h ++ ?x = _ /\ _ => exists x
    end;
    (split; [reflexivity |]); rewrite length_app; simpl;
    (split; [lia |]).
  3: {
    assert (E1 : (h ++ [NDeclaration d; NExport (Some (length h)) sp]) !! S (length h)
                 = Some (NExport (Some (length h)) sp)).
    { rewrite lookup_app_r by lia. replace (S (length h) - length h) with 1 by lia.
      reflexivity. }
    assert (E0 : (h ++ [NDeclaration d; NExport (Some (length h)) sp]) !! length h
                 = Some (NDeclaration d)).
    { rewrite lookup_app_r by lia. rewrite Nat.sub_diag. reflexivity. }
    unfold printStatement, printDeclaration. rewrite E1. simpl. rewrite E0.
    split; [| reflexivity].
    intros d' Hd'. injection Hd' as <-. lia. }
  all: unfold printStatement; rewrite lookup_alloc_new; simpl;
    (split; [intros; discriminate | reflexivity]).
Qed.

Lemma loadFrom_spec p : forall h,
  exists ext,
    fst (loadFrom h p) = h ++ ext
    /\ map (printStatement (h ++ ext)) (snd (loadFrom h p)) = p
    /\ forall l, In l (snd (loadFrom h p)) ->
         length h <= l < length (h ++ ext)
         /\ forall d, declarationOf ((h ++ ext) !! l) = Some d ->
              length h <= d < length (h ++ ext).
Proof.
  induction p as [| s p IH]; intros h.
  - exists []. simpl. rewrite app_nil_r. split; [reflexivity |]. split; [reflexivity |].
    intros l0 [].
  - simpl. destruct (allocStatement_spec s h) as [e1 [H1 [H2 [H3 H4]]]].
    destruct (allocStatement s h) as [l0 h1] eqn:Ha. simpl in H1, H2, H3, H4. subst h1.
    destruct (IH (h ++ e1)) as [e2 [G1 [G2 G3]]].
    destruct (loadFrom (h ++ e1) p) as [h2 ls] eqn:Hl. simpl in G1, G2, G3. subst h2.
    exists (e1 ++ e2). simpl. rewrite app_assoc.
    assert (Hl0 : ((h ++ e1) ++ e2) !! l0 = (h ++ e1) !! l0).
    { apply lookup_app_l. lia. }
    split; [reflexivity |]. split.
    + f_equal; [| exact G2].
      rewrite printStatement_ext; [exact H4 | lia |].
      intros d Hd. apply H3 in Hd. lia.
    + intros l [<- | Hin].
      * rewrite Hl0. rewrite !length_app in *. split; [lia |].
        intros d Hd. apply H3 in Hd. rewrite ?length_app in Hd. lia.
      * destruct (G3 l Hin) as [K1 K2]. rewrite !length_app in *. split; [lia |].
        intros d Hd. apply K2 in Hd. lia.
Qed.

Lemma print_load p : print (load p) = p.
Proof.
  unfold load. destruct (loadFrom_spec p []) as [ext [H1 [H2 _]]].
  destruct (loadFrom [] p) as [h ls]. simpl in *. subst h. exact H2.
Qed.

Lemma closed_load p : closed (load p).
Proof.
  unfold load. destruct (loadFrom_spec p []) as [ext [H1 [_ H3]]].
  destruct (loadFrom [] p) as [h ls]. simpl in *. subst h.
  apply closed_alt. simpl. intros l Hl. destruct (H3 l Hl) as [K1 K2].
  split; [lia |]. intros d Hd. apply K2 in Hd. lia.
Qed.

(** ** C6: creating the handle *)

Lemma find_existsb_false {A} (p : A -> bool) (l : list A) :
  existsb p l = false -> List.find p l = None.
Proof.
  induction l as [| x l IH]; simpl; [reflexivity |].
  destruct (p x); simpl; [discriminate | exact IH].
Qed.

Lemma isVariableDeclaration_print h d name :
  isVariableDeclaration (h !! d) name
  = match printDeclaration h d with
    | VariableDeclaration _ ds => existsb (declaratorNamed name) ds
    | _ => false
    end.
Proof.
  unfold printDeclaration, isVariableDeclaration.
  destruct (h !! d) as [[| [k ds | |] | | |]|]; try reflexivity.
  simpl. induction ds as [| x ds IH]; simpl; [reflexivity |].
  destruct (declaratorNamed name x); simpl; [reflexivity | exact IH].
Qed.

Lemma isFunctionDeclaration_print h d name :
  isFunctionDeclaration (h !! d) name
  = match printDeclaration h d with
    | FunctionDeclaration (Some n) _ => String.eqb n name
    | _ => false
    end.
Proof.
  unfold printDeclaration, isFunctionDeclaration.
  destruct (h !! d) as [[| [| [n|] b |] | | |]|]; reflexivity.
Qed.

(** An export statement that does not export [handle] leaves the initial
    finding as it is. *)
Lemma visitExport_no_handle ast l :
  exportsHandle (printStatement (heap ast) l) = false ->
  visitExport ast noFinding l = noFinding.
Proof.
  unfold visitExport, printStatement.
  destruct (heap ast !! l) as [[| | d sp | |]|]; try reflexivity.
  simpl. intros H. apply orb_false_iff in H as [Hsp Hd].
  unfold resolveExport. rewrite (find_existsb_false _ _ Hsp). simpl.
  destruct d as [d|]; [| reflexivity]. simpl in *.
  rewrite isVariableDeclaration_print, isFunctionDeclaration_print.
  destruct (printDeclaration (heap ast) d) as [k ds | [n|] b | k c];
    try rewrite Hd; try reflexivity.
Qed.

Lemma locate_no_handle ast :
  countHandleExports (print ast) = 0 -> locate ast = noFinding.
Proof.
  unfold countHandleExports, print, locate.
  induction (body ast) as [| l ls IH]; simpl; [reflexivity |].
  destruct (exportsHandle (printStatement (heap ast) l)) eqn:E; simpl; [discriminate |].
  intros H. rewrite visitExport_no_handle by exact E. apply IH. exact H.
Qed.

Lemma closed_addNamed ast src a b k :
  closed ast -> closed (imports.addNamed ast src a b k).
Proof.
  intros Hc. unfold imports.addNamed.
  destruct (imports.lastImportFrom ast src) as [l|].
  - destruct (heap ast !! l) as [[s sp t | | | |]|] eqn:Hl; try exact Hc.
    destruct (existsb _ sp); [exact Hc |].
    apply closed_alt. unfold mutate. simpl. rewrite length_alter.
    intros x Hx. apply closed_alt in Hx as [H1 H2]; [| exact Hc].
    split; [exact H1 |]. intros d Hd. apply H2.
    destruct (decide (l = x)) as [<- | Hne].
    + rewrite list_lookup_alter_eq, Hl in Hd. discriminate Hd.
    + rewrite list_lookup_alter_ne in Hd by exact Hne. exact Hd.
  - apply closed_alt. unfold alloc, unshift. simpl. rewrite length_app. simpl.
    intros x [<- | Hx].
    + split; [lia |]. rewrite lookup_alloc_new. intros d Hd. discriminate Hd.
    + apply closed_alt in Hx as [H1 H2]; [| exact Hc].
      split; [lia |]. intros d Hd.
      rewrite lookup_alloc_old in Hd by exact H1. apply H2 in Hd. lia.
Qed.

Lemma closed_addHandleType ast ts : closed ast -> closed (addHandleType ast ts).
Proof. destruct ts; simpl; [apply closed_addNamed | auto]. Qed.

Lemma printStatement_new_declaration (h ext : list Node) d :
  printStatement ((h ++ [NDeclaration d]) ++ ext) (length h) = DeclarationStatement d.
Proof.
  unfold printStatement. rewrite <- app_assoc. simpl.
  rewrite list_lookup_middle by reflexivity. reflexivity.
Qed.

(** What [createHandle] prints: the program as it was, then the two new
    statements. *)
Lemma print_createHandle ast ts name e hname :
  closed ast ->
  print (createHandle ast ts name e hname)
  = print ast
    ++ [DeclarationStatement (annotated ts (variables.declaration "const" name e));
        ExportNamedDeclaration
          (Some (annotated ts (variables.declaration "const" hname (Identifier name))))
          []].
Proof.
  intros Hc. unfold createHandle, exports.namedExport, alloc, push, print.
  cbn [heap body]. unfold common.expressionFromString.
  set (d0 := annotated ts (variables.declaration "const" name e)).
  set (d1 := annotated ts (variables.declaration "const" hname (Identifier name))).
  rewrite <- !app_assoc. rewrite !map_app. cbn [map app]. f_equal.
  - apply print_ext. exact Hc.
  - cbn [app]. unfold printStatement, printDeclaration.
    rewrite (lookup_fresh _ _ _ 0) by lia.
    rewrite (lookup_fresh _ _ (length (heap ast ++ _)) 2)
      by (rewrite length_app; simpl; lia).
    cbn. rewrite (lookup_fresh _ _ _ 1) by (rewrite length_app; simpl; lia).
    reflexivity.
Qed.

Lemma annotated_declaration ts name e :
  annotated ts (variables.declaration "const" name e)
  = VariableDeclaration "const" [Declarator (PIdentifier name (handleType ts)) (Some e)].
Proof. destruct ts; reflexivity. Qed.

(** Without an export of [handle] and without the fragment, the call appends
    the two new statements to the program. *)
Lemma merged_absent p ts name e :
  countHandleExports p = 0 ->
  existsb (common.occursInStatement e) p = false ->
  merged p ts name e
  = print (addHandleType (load p) ts)
    ++ [constDecl name (handleType ts) e;
        exportConst "handle" (handleType ts) (Identifier name)].
Proof.
  intros Hcount Hfresh.
  unfold merged, addHooksHandle.
  rewrite hasNode_addHandleType. unfold common.hasNode at 1.
  rewrite print_load, Hfresh.
  assert (Hloc : locate (addHandleType (load p) ts) = noFinding).
  { apply locate_no_handle. destruct ts; simpl.
    - rewrite countHandleExports_addNamed, print_load. exact Hcount.
    - rewrite print_load. exact Hcount. }
  rewrite Hloc. cbn [originalHandleDecl exportDecl handleName noFinding].
  rewrite print_createHandle by (apply closed_addHandleType, closed_load).
  rewrite !annotated_declaration. reflexivity.
Qed.

(** C6 (as amended).  For every program without namespace or module blocks
    that has no export of [handle], and every fragment whose expression does
    not yet occur in it, the call emits exactly two statements after the
    program (which, under TypeScript, first gets the type import merged in):
    the declaration of the new unit and [export const handle = c;], whose
    initializer is the new binding's identifier.  No composition call is
    introduced. *)
Theorem create_when_absent p ts name e :
  flat p = true ->
  countHandleExports p = 0 ->
  existsb (common.occursInStatement e) p = false ->
  merged p ts name e
  = print (addHandleType (load p) ts)
    ++ [constDecl name (handleType ts) e;
        exportConst "handle" (handleType ts) (Identifier name)]
  /\ print (addHandleType (load p) false) = p.
Proof.
  intros _ Hcount Hfresh. split; [apply merged_absent; assumption | apply print_load].
Qed.

Lemma create_when_absent_witness :
  merged [] false "c" sampleHandle
  = [constDecl "c" None sampleHandle; exportConst "handle" None (Identifier "c")].
Proof.
  destruct (create_when_absent [] false "c" sampleHandle eq_refl eq_refl eq_refl)
    as [H _].
  exact H.
Defined.

(** C5 (as amended).  For every tree of the shape
    [function foo() {...}; export { foo as handle };] and new unit [c] whose
    expression does not occur in the function, the function is renamed to
    [originalHandle], the composition is declared under the local name [foo]
    as [const foo = sequence(originalHandle, c);], and the export of the
    public name stays the specifier [export { foo as handle }]. *)
Theorem specifier_alias_promoted foo fbody ts name e :
  existsb (common.occursIn e) fbody = false ->
  merged [DeclarationStatement (FunctionDeclaration (Some foo) fbody);
          ExportNamedDeclaration None [Specifier (Some foo) "handle"]]
         ts name e
  = (if ts then [hooksImport; kitImport] else [hooksImport])
    ++ [DeclarationStatement (FunctionDeclaration (Some NEW_HANDLE_NAME) fbody);
        constDecl name (handleType ts) e;
        constDecl foo None (sequenceOf [NEW_HANDLE_NAME; name]);
        ExportNamedDeclaration None [Specifier (Some foo) "handle"]].
Proof.
  intros Hfresh. unfold merged, addHooksHandle.
  rewrite hasNode_addHandleType. unfold common.hasNode.
  rewrite print_load. cbn [existsb common.occursInStatement common.occursInDeclaration].
  rewrite Hfresh. cbn [orb].
  destruct ts; cbn; rewrite ?String.eqb_refl; cbn; rewrite ?String.eqb_refl; cbn;
    unfold renameFunctionDecl; cbn; rewrite ?String.eqb_refl; cbn; reflexivity.
Qed.

Lemma specifier_alias_promoted_witness :
  merged [DeclarationStatement (FunctionDeclaration (Some "foo") [Identifier "event"]);
          ExportNamedDeclaration None [Specifier (Some "foo") "handle"]]
         false "c" sampleHandle
  = [hooksImport;
     DeclarationStatement (FunctionDeclaration (Some "originalHandle") [Identifier "event"]);
     constDecl "c" None sampleHandle;
     constDecl "foo" None (sequenceOf ["originalHandle"; "c"]);
     ExportNamedDeclaration None [Specifier (Some "foo") "handle"]].
Proof.
  exact (specifier_alias_promoted "foo" [Identifier "event"] false "c" sampleHandle eq_refl).
Defined.

(** ** What the locator guarantees about its finding *)

Lemma declaresHandle_declaration ast o name :
  declaresHandle ast (Some o) name = true ->
  exists d, heap ast !! o = Some (NDeclaration d).
Proof.
  unfold declaresHandle, isVariableDeclaration, isFunctionDeclaration.
  destruct (heap ast !! o) as [[| d | | |]|]; simpl; try discriminate.
  intros _. exists d. reflexivity.
Qed.

Lemma visitExport_findingOk ast st node :
  findingOk ast st -> findingOk ast (visitExport ast st node).
Proof.
  intros [H1 [H2 H3]]. unfold visitExport.
  destruct (heap ast !! node) as [[| | d sp | |]|] eqn:Hnode;
    try (split; [exact H1 | split; [exact H2 | exact H3]]).
  unfold resolveExport.
  destruct (List.find _ sp) as [s|] eqn:Hfind.
  - (* a specifier exports handle: the flag is set *)
    match goal with
    | |- findingOk _ (if declaresHandle ast ?m ?nm then _ else _) =>
        destruct (declaresHandle ast m nm) eqn:Hdecl; [destruct m as [o|]; [| discriminate]|]
    end.
    + split; [| split]; cbn.
      * intros o' [= <-]. eapply declaresHandle_declaration. exact Hdecl.
      * intros x [= <-]. exists d, sp. exact Hnode.
      * discriminate.
    + split; [exact H1 | split; [exact H2 | cbn; discriminate]].
  - destruct d as [o|]; [| cbn; split; [exact H1 | split; [exact H2 | exact H3]]].
    destruct (declaresHandle ast (Some o) (handleName st)) eqn:Hdecl.
    + split; [| split]; cbn.
      * intros o' [= <-]. eapply declaresHandle_declaration. exact Hdecl.
      * intros x [= <-]. exists (Some o), sp. exact Hnode.
      * intros Hs. destruct (H3 Hs) as [Hn _]. split; [exact Hn |].
        intros o' x [= <-] [= <-]. split; [exists sp; exact Hnode |].
        rewrite <- Hn. exact Hdecl.
    + split; [exact H1 | split; [exact H2 | exact H3]].
Qed.

Lemma locate_findingOk ast : findingOk ast (locate ast).
Proof.
  unfold locate.
  assert (H : findingOk ast noFinding).
  { split; [| split]; cbn; try discriminate. intros _. split; [reflexivity |].
    discriminate. }
  revert H. generalize noFinding. induction (body ast) as [| l ls IH]; intros st H.
  - exact H.
  - simpl. apply IH. apply visitExport_findingOk. exact H.
Qed.

(** ** Evolution of the store along a call *)

Lemma sameKind_refl n : sameKind n n = true.
Proof. destruct n; simpl; try reflexivity. apply String.eqb_refl. Qed.

Lemma sameKind_trans n1 n2 n3 :
  sameKind n1 n2 = true -> sameKind n2 n3 = true -> sameKind n1 n3 = true.
Proof.
  destruct n1, n2; simpl; try discriminate; destruct n3; simpl; try discriminate;
    try reflexivity.
  intros H1 H2. apply String.eqb_eq in H1, H2. subst. apply String.eqb_refl.
Qed.

Lemma sameKind_isFrom s n n' : sameKind n n' = true -> isFrom s n' = isFrom s n.
Proof.
  destruct n, n'; simpl; try discriminate; try reflexivity.
  intros H. apply String.eqb_eq in H. subst. reflexivity.
Qed.

Lemma sameKind_declaration n n' :
  sameKind n n' = true -> isDeclarationNode n' = isDeclarationNode n.
Proof. destruct n, n'; simpl; try discriminate; reflexivity. Qed.

Lemma evolves_refl mut a : evolves mut a a.
Proof.
  split.
  - intros l n H. exists n. split; [exact H | apply sameKind_refl].
  - intros l n H _ _. exact H.
  - intros l n' H1 H2. congruence.
Qed.

Lemma evolves_trans mut a b c : evolves mut a b -> evolves mut b c -> evolves mut a c.
Proof.
  intros [K1 S1 N1] [K2 S2 N2]. split.
  - intros l n H. destruct (K1 l n H) as [n' [H' Hk]].
    destruct (K2 l n' H') as [n'' [H'' Hk']]. exists n''. split; [exact H'' |].
    eapply sameKind_trans; eassumption.
  - intros l n H Hm Hh. apply S2; [| exact Hm | exact Hh]. apply S1; assumption.
  - intros l n'' H H''. destruct (heap b !! l) as [n'|] eqn:Hb.
    + destruct (K2 l n' Hb) as [m [Hm Hk]]. rewrite H'' in Hm. injection Hm as <-.
      rewrite (sameKind_isFrom KIT _ _ Hk). eapply N1; eassumption.
    + eapply N2; eassumption.
Qed.

Lemma evolves_weaken mut a a' : evolves None a a' -> evolves mut a a'.
Proof.
  intros [K S N]. split; [exact K | | exact N].
  intros l n H _ Hh. apply S; [exact H | discriminate | exact Hh].
Qed.

Lemma evolves_heap mut a a' : heap a' = heap a -> evolves mut a a'.
Proof.
  intros E. split; rewrite E.
  - intros l n H. exists n. split; [exact H | apply sameKind_refl].
  - intros l n H _ _. exact H.
  - intros l n' H1 H2. congruence.
Qed.

Lemma evolves_alloc mut n a :
  isFrom KIT n = false -> evolves mut a (snd (alloc n a)).
Proof.
  intros Hn. unfold alloc. cbn [snd heap]. split.
  - intros l m H. exists m. split; [apply lookup_alloc_Some; exact H | apply sameKind_refl].
  - intros l m H _ _. apply lookup_alloc_Some. exact H.
  - intros l n' H H'. cbn [heap] in H'.
    destruct (lookup_alloc_cases (heap a) n l) as [[Hlt E] | [[Hl E] | [_ [E E']]]].
    + apply lookup_lt_is_Some_2 in Hlt. rewrite H in Hlt. destruct Hlt as [? ?]. discriminate.
    + rewrite E in H'. injection H' as <-. exact Hn.
    + rewrite E in H'. discriminate.
Qed.

Lemma evolves_mutate o f a :
  (forall n, sameKind n (f n) = true) -> evolves (Some o) a (mutate o f a).
Proof.
  intros Hf. unfold mutate. split; cbn [heap].
  - intros l n H. destruct (decide (o = l)) as [<- | Hne].
    + exists (f n). rewrite list_lookup_alter_eq, H. split; [reflexivity | apply Hf].
    + exists n. rewrite list_lookup_alter_ne by exact Hne.
      split; [exact H | apply sameKind_refl].
  - intros l n H Hm _. rewrite list_lookup_alter_ne; [exact H |]. congruence.
  - intros l n' H H'. destruct (decide (o = l)) as [<- | Hne].
    + rewrite list_lookup_alter_eq, H in H'. discriminate.
    + rewrite list_lookup_alter_ne in H' by exact Hne. congruence.
Qed.

Lemma evolves_mutate_hooks mut i f a :
  (forall n, sameKind n (f n) = true) ->
  (forall n, heap a !! i = Some n -> isFrom HOOKS n = true) ->
  evolves mut a (mutate i f a).
Proof.
  intros Hf Hi. unfold mutate. split; cbn [heap].
  - intros l n H. destruct (decide (i = l)) as [<- | Hne].
    + exists (f n). rewrite list_lookup_alter_eq, H. split; [reflexivity | apply Hf].
    + exists n. rewrite list_lookup_alter_ne by exact Hne.
      split; [exact H | apply sameKind_refl].
  - intros l n H _ Hh. destruct (decide (i = l)) as [<- | Hne].
    + rewrite (Hi n H) in Hh. discriminate.
    + rewrite list_lookup_alter_ne by exact Hne. exact H.
  - intros l n' H H'. destruct (decide (i = l)) as [<- | Hne].
    + rewrite list_lookup_alter_eq, H in H'. discriminate.
    + rewrite list_lookup_alter_ne in H' by exact Hne. congruence.
Qed.

Lemma evolves_isImportFrom mut a a' l :
  evolves mut a a' ->
  imports.isImportFrom (heap a') KIT l = imports.isImportFrom (heap a) KIT l.
Proof.
  intros [K S N]. unfold imports.isImportFrom.
  destruct (heap a !! l) as [n|] eqn:H.
  - destruct (K l n H) as [n' [H' Hk]]. rewrite H'.
    pose proof (sameKind_isFrom KIT _ _ Hk) as E. unfold isFrom in E.
    destruct n, n'; try discriminate; try reflexivity. exact E.
  - destruct (heap a' !! l) as [n'|] eqn:H'; [| reflexivity].
    pose proof (N l n' H H') as E. unfold isFrom in E.
    destruct n'; try reflexivity. exact E.
Qed.

Lemma sameKind_pushArgument name arg n : sameKind n (pushArgument name arg n) = true.
Proof. destruct n as [| [] | | |]; simpl; try reflexivity. apply String.eqb_refl. Qed.

Lemma sameKind_renameDeclarator name n : sameKind n (renameDeclarator name n) = true.
Proof. destruct n as [| [] | | |]; simpl; try reflexivity. apply String.eqb_refl. Qed.

Lemma sameKind_renameFunction n : sameKind n (renameFunction n) = true.
Proof. destruct n as [| [| [] |] | | |]; simpl; try reflexivity. apply String.eqb_refl. Qed.

Lemma sameKind_addSpecifier a b n : sameKind n (imports.addSpecifier a b n) = true.
Proof. destruct n; simpl; try reflexivity; apply String.eqb_refl. Qed.

(** *** Body edits seen through a filter *)

Lemma filter_keep_neutral (P : nat -> bool) o x l0 b :
  P o = false -> P x = false -> P l0 = false ->
  List.filter P (List.filter (keep o x l0) b) = List.filter P b.
Proof.
  intros Ho Hx Hl. induction b as [| l b IH]; [reflexivity |].
  simpl. unfold keep at 1.
  destruct (Nat.eqb_spec l o) as [-> | _]; simpl.
  { rewrite Ho. exact IH. }
  destruct (Nat.eqb_spec l x) as [-> | _]; simpl.
  { rewrite Hx. exact IH. }
  destruct (Nat.eqb_spec l l0) as [-> | _]; simpl.
  { rewrite Hl. exact IH. }
  rewrite IH. reflexivity.
Qed.

Lemma filter_push_neutral (P : nat -> bool) b ls :
  (forall l, In l ls -> P l = false) ->
  List.filter P (b ++ ls) = List.filter P b.
Proof.
  intros H. rewrite List.filter_app.
  replace (List.filter P ls) with (@nil nat); [apply app_nil_r |].
  induction ls as [| l ls IH]; [reflexivity |]. simpl.
  rewrite (H l) by (left; reflexivity). apply IH. intros l' Hl'. apply H. right. exact Hl'.
Qed.

(** *** Lines 161-180 *)

Lemma evolves_appendToSequence a isSpec name o x l0 nm :
  evolves (Some o) a (appendToSequence a isSpec name o x l0 nm).
Proof.
  unfold appendToSequence.
  destruct (findSequence (heap a !! o) name) as [args|]; [| apply evolves_refl].
  eapply evolves_trans with
    (b := if existsb (isIdentifierNamed nm) args then a
          else mutate o (pushArgument name (variables.identifier nm)) a).
  - destruct (existsb _ args); [apply evolves_refl |].
    apply evolves_mutate. intros n. apply sameKind_pushArgument.
  - apply evolves_heap. destruct isSpec; reflexivity.
Qed.

Lemma body_appendToSequence (P : nat -> bool) a isSpec name o x l0 nm :
  P o = false -> P x = false -> P l0 = false ->
  List.filter P (body (appendToSequence a isSpec name o x l0 nm))
  = List.filter P (body a).
Proof.
  intros Ho Hx Hl. unfold appendToSequence.
  destruct (findSequence (heap a !! o) name) as [args|]; [| reflexivity].
  assert (E : body (if existsb (isIdentifierNamed nm) args then a
                    else mutate o (pushArgument name (variables.identifier nm)) a)
              = body a) by (destruct (existsb _ args); reflexivity).
  destruct isSpec; cbn [push setBody body heap]; rewrite E;
    rewrite filter_push_neutral;
    try (apply filter_keep_neutral; assumption);
    intros l Hin; simpl in Hin; intuition (subst; assumption).
Qed.

(** *** [imports.addNamed] for the composition helper *)

Lemma lastImportFrom_true a src l :
  imports.lastImportFrom a src = Some l ->
  imports.isImportFrom (heap a) src l = true.
Proof.
  unfold imports.lastImportFrom.
  assert (H : forall b acc,
    (forall i, acc = Some i -> imports.isImportFrom (heap a) src i = true) ->
    fold_left (fun found i => if imports.isImportFrom (heap a) src i then Some i else found)
      b acc = Some l ->
    imports.isImportFrom (heap a) src l = true).
  { induction b as [| i b IH]; intros acc Hacc; simpl.
    - apply Hacc.
    - apply IH. destruct (imports.isImportFrom (heap a) src i) eqn:E.
      + intros j [= <-]. exact E.
      + exact Hacc. }
  apply H. discriminate.
Qed.

Lemma evolves_addNamed_hooks a imported local isType :
  evolves None a (imports.addNamed a HOOKS imported local isType).
Proof.
  unfold imports.addNamed.
  destruct (imports.lastImportFrom a HOOKS) as [l|] eqn:Hlast.
  - destruct (heap a !! l) as [[s sp t | | | |]|] eqn:Hl; try apply evolves_refl.
    destruct (existsb _ sp); [apply evolves_refl |].
    apply evolves_mutate_hooks.
    + intros n. apply sameKind_addSpecifier.
    + intros n Hn. apply lastImportFrom_true in Hlast.
      unfold imports.isImportFrom in Hlast. rewrite Hn in Hlast.
      destruct n; try discriminate. exact Hlast.
  - eapply evolves_trans with (b := snd (alloc (NImport HOOKS [ImportSpec imported local] isType) a)).
    + apply evolves_alloc. reflexivity.
    + apply evolves_heap. reflexivity.
Qed.

Lemma body_addNamed (P : nat -> bool) a src imported local isType :
  P (length (heap a)) = false ->
  List.filter P (body (imports.addNamed a src imported local isType))
  = List.filter P (body a).
Proof.
  intros Hfresh. unfold imports.addNamed.
  destruct (imports.lastImportFrom a src) as [l|].
  - destruct (heap a !! l) as [[s sp t | | | |]|]; try reflexivity.
    destruct (existsb _ sp); reflexivity.
  - cbn. rewrite Hfresh. reflexivity.
Qed.

(** *** Lines 191-204 *)

Lemma evolves_renameVariable a name o :
  evolves (Some o) a (snd (renameVariable a name o))
  /\ body (snd (renameVariable a name o)) = body a.
Proof.
  unfold renameVariable.
  destruct (heap a !! o) as [[| [k ds | |] | | |]|];
    try (split; [apply evolves_refl | reflexivity]).
  destruct (getVariableDeclarator _ name) as [h|];
    [| split; [apply evolves_refl | reflexivity]].
  destruct (negb (initIsIdentifier h)); cbn [snd];
    [| split; [apply evolves_refl | reflexivity]].
  split; [| reflexivity]. apply evolves_mutate. intros n. apply sameKind_renameDeclarator.
Qed.

Lemma evolves_renameFunctionDecl a name o r :
  evolves (Some o) a (snd (renameFunctionDecl a name o r))
  /\ body (snd (renameFunctionDecl a name o r)) = body a.
Proof.
  unfold renameFunctionDecl.
  destruct (isFunctionDeclaration (heap a !! o) name); cbn [snd];
    [| split; [apply evolves_refl | reflexivity]].
  split; [| reflexivity]. apply evolves_mutate. intros n. apply sameKind_renameFunction.
Qed.

(** *** Lines 206-235 *)

Lemma evolves_grow mut n a a' :
  isFrom KIT n = false -> heap a' = heap a ++ [n] -> evolves mut a a'.
Proof.
  intros Hn E. eapply evolves_trans; [apply (evolves_alloc mut n a Hn) |].
  apply evolves_heap. exact E.
Qed.

Lemma evolves_namedExport mut a name d :
  evolves mut a (exports.namedExport a name d).
Proof. apply (evolves_grow mut (NExport (Some d) []) a); reflexivity. Qed.

Lemma evolves_reappend a ts isSpec name o x l0 nhd nm rr :
  evolves None a (reappend a ts isSpec name o x l0 nhd nm rr).
Proof.
  unfold reappend.
  set (a1 := setBody _ a).
  set (a2 := if isSpec then push _ a1 else a1).
  assert (E2 : evolves None a a2).
  { apply evolves_heap. unfold a2. destruct isSpec; reflexivity. }
  destruct (declarationOf (heap a2 !! x)) as [d|]; [| exact E2].
  destruct rr.
  - eapply evolves_trans; [exact E2 |].
    eapply evolves_trans; [| apply evolves_namedExport].
    apply evolves_heap. reflexivity.
  - destruct (isVariableDeclaration (heap a2 !! o) name); [| exact E2].
    eapply evolves_trans; [exact E2 |].
    cbv beta iota zeta delta [alloc].
    eapply evolves_trans; [| apply evolves_namedExport].
    match goal with
    | |- evolves _ _ (push _ {| heap := _ ++ [?n]; body := _ |}) =>
        apply (evolves_grow None n a2); reflexivity
    end.
Qed.

Lemma body_reappend (P : nat -> bool) a ts isSpec name o x l0 nhd nm rr :
  P o = false -> P x = false -> P l0 = false -> P nhd = false ->
  (forall d, declarationOf (heap a !! x) = Some d -> P d = false) ->
  P (length (heap a)) = false -> P (S (length (heap a))) = false ->
  List.filter P (body (reappend a ts isSpec name o x l0 nhd nm rr))
  = List.filter P (body a).
Proof.
  intros Ho Hx Hl Hn Hd Hf1 Hf2. unfold reappend.
  set (a1 := setBody _ a).
  set (a2 := if isSpec then push _ a1 else a1).
  assert (Hh : heap a2 = heap a) by (unfold a2; destruct isSpec; reflexivity).
  assert (E2 : List.filter P (body a2) = List.filter P (body a)).
  { unfold a2, a1. destruct isSpec; cbn [push setBody body heap].
    - rewrite filter_push_neutral; [apply filter_keep_neutral; assumption |].
      intros l Hin; simpl in Hin; intuition (subst; assumption).
    - apply filter_keep_neutral; assumption. }
  rewrite Hh.
  destruct (declarationOf (heap a !! x)) as [d|] eqn:Hdx; [| exact E2].
  specialize (Hd d eq_refl).
  destruct rr.
  - unfold exports.namedExport, alloc, push. cbn [body heap].
    rewrite !filter_push_neutral; [exact E2 | |].
    + intros l Hin; simpl in Hin; intuition (subst; assumption).
    + intros l Hin; simpl in Hin. rewrite Hh in Hin. intuition (subst; assumption).
  - destruct (isVariableDeclaration (heap a !! o) name); [| exact E2].
    unfold exports.namedExport, alloc, push. cbn [body heap].
    rewrite !filter_push_neutral; [exact E2 | |].
    + intros l Hin; simpl in Hin; intuition (subst; assumption).
    + intros l Hin; simpl in Hin. rewrite Hh, length_app in Hin. simpl in Hin.
      replace (length (heap a) + 1) with (S (length (heap a))) in Hin by lia.
      intuition (subst; assumption).
Qed.

Lemma reappend_keeps_newDecl a ts isSpec name o x l0 nhd nm rr :
  isSpec = true
  \/ ((exists d, declarationOf (heap a !! x) = Some d)
      /\ (rr = true \/ isVariableDeclaration (heap a !! o) name = true)) ->
  In l0 (body (reappend a ts isSpec name o x l0 nhd nm rr)).
Proof.
  intros H. unfold reappend.
  set (a1 := setBody _ a).
  set (a2 := if isSpec then push _ a1 else a1).
  assert (Hh : heap a2 = heap a) by (unfold a2; destruct isSpec; reflexivity).
  assert (H2 : isSpec = true -> In l0 (body a2)).
  { intros ->. unfold a2, a1, push. cbn [body]. apply in_or_app. right.
    simpl. auto. }
  rewrite Hh.
  destruct (declarationOf (heap a !! x)) as [d|] eqn:Hdx.
  - destruct rr.
    + unfold exports.namedExport, alloc, push. cbn [body].
      apply in_or_app. left. apply in_or_app. right. simpl. auto.
    + destruct (isVariableDeclaration (heap a !! o) name) eqn:Hv.
      * unfold exports.namedExport, alloc, push. cbn [body].
        apply in_or_app. left. apply in_or_app. right. simpl. auto.
      * destruct H as [H | [_ [H | H]]]; [auto | discriminate | discriminate].
  - destruct H as [H | [[d Hd] _]]; [auto | discriminate].
Qed.

(** *** The original declaration along the way *)

Lemma find_alterFirst_named {A} (p q : A -> bool) (f : A -> A) (l : list A) :
  (forall x, q (f x) = q x) ->
  existsb q (alterFirst p f l) = existsb q l.
Proof.
  intros H. induction l as [| x l IH]; simpl; [reflexivity |].
  destruct (p x); simpl; [rewrite H; reflexivity | rewrite IH; reflexivity].
Qed.

Lemma isVariableDeclaration_existsb n name :
  isVariableDeclaration n name
  = match n with
    | Some (NDeclaration (VariableDeclaration _ ds)) => existsb (declaratorNamed name) ds
    | _ => false
    end.
Proof.
  destruct n as [[| [k ds | |] | | |]|]; try reflexivity. simpl.
  induction ds as [| d ds IH]; simpl; [reflexivity |].
  destruct (declaratorNamed name d); simpl; [reflexivity | exact IH].
Qed.

Lemma declares_pushArgument name arg n name' :
  isVariableDeclaration (Some (pushArgument name arg n)) name'
  || isFunctionDeclaration (Some (pushArgument name arg n)) name'
  = isVariableDeclaration (Some n) name' || isFunctionDeclaration (Some n) name'.
Proof.
  destruct n as [| [k ds | |] | | |]; try reflexivity.
  rewrite !isVariableDeclaration_existsb. cbn [pushArgument].
  rewrite find_alterFirst_named; [reflexivity |].
  intros [[n0 t | s] [[| |]|]]; reflexivity.
Qed.

Lemma appendToSequence_declares a isSpec name o x l0 nm name' :
  isVariableDeclaration (heap (appendToSequence a isSpec name o x l0 nm) !! o) name'
  || isFunctionDeclaration (heap (appendToSequence a isSpec name o x l0 nm) !! o) name'
  = isVariableDeclaration (heap a !! o) name' || isFunctionDeclaration (heap a !! o) name'.
Proof.
  unfold appendToSequence.
  destruct (findSequence (heap a !! o) name) as [args|]; [| reflexivity].
  assert (E : forall b, heap (if isSpec then push [l0; o; x] (setBody
                (List.filter (keep o x l0) (body b)) b)
              else push [l0; x] (setBody (List.filter (keep o x l0) (body b)) b))
              = heap b) by (intros b; destruct isSpec; reflexivity).
  rewrite E. destruct (existsb _ args); [reflexivity |].
  unfold mutate. cbn [heap]. rewrite list_lookup_alter_eq.
  destruct (heap a !! o) as [n|]; [| reflexivity].
  apply declares_pushArgument.
Qed.

Lemma rename_outcome a name o :
  isVariableDeclaration (heap a !! o) name || isFunctionDeclaration (heap a !! o) name
  = true ->
  fst (renameFunctionDecl (snd (renameVariable a name o)) name o
         (fst (renameVariable a name o))) = true
  \/ isVariableDeclaration
       (heap (snd (renameFunctionDecl (snd (renameVariable a name o)) name o
                     (fst (renameVariable a name o)))) !! o) name = true.
Proof.
  unfold renameVariable, renameFunctionDecl.
  destruct (heap a !! o) as [[| [k ds | [f|] b |] | | |]|] eqn:Ho; try discriminate.
  - cbn [isVariableDeclaration isFunctionDeclaration orb].
    destruct (getVariableDeclarator (VariableDeclaration k ds) name) as [h|] eqn:Hg;
      [| discriminate].
    intros _. destruct (negb (initIsIdentifier h)); cbn [fst snd].
    + left. destruct (isFunctionDeclaration _ name); reflexivity.
    + rewrite Ho. cbn [isFunctionDeclaration fst snd]. right. rewrite Ho.
      cbn [isVariableDeclaration]. rewrite Hg. reflexivity.
  - cbn [isVariableDeclaration isFunctionDeclaration orb fst snd].
    intros Hf. rewrite Ho. cbn [isFunctionDeclaration]. rewrite Hf. left. reflexivity.
Qed.

Lemma evolves_length mut a a' : evolves mut a a' -> length (heap a) <= length (heap a').
Proof.
  intros [K _ _]. destruct (le_lt_dec (length (heap a)) (length (heap a'))) as [H | H];
    [exact H | exfalso].
  destruct (lookup_lt_is_Some_2 (heap a) (length (heap a')) H) as [n Hn].
  destruct (K _ _ Hn) as [n' [Hn' _]]. apply lookup_lt_Some in Hn'. lia.
Qed.

Lemma evolves_fresh mut a a' l :
  evolves mut a a' -> length (heap a') <= l -> heap a !! l = None.
Proof.
  intros E H. apply lookup_ge_None. apply evolves_length in E. lia.
Qed.

(** *** Lines 141-235 as one step *)

Lemma mergeHandle_unfold a ts isSpec name o x nm e :
  mergeHandle a ts isSpec name o x nm e
  = let a2 := snd (alloc (NDeclaration
                 (annotated ts (variables.declaration "const" nm e))) a) in
    let a3 := appendToSequence a2 isSpec name o x (length (heap a)) nm in
    let a4 := snd (alloc (NDeclaration
                 (variables.declaration "const" name
                    (functions.callByIdentifier "sequence" [NEW_HANDLE_NAME; nm]))) a3) in
    let a5 := imports.addNamed a4 HOOKS "sequence" "sequence" false in
    let p1 := renameVariable a5 name o in
    let p2 := renameFunctionDecl (snd p1) name o (fst p1) in
    reappend (snd p2) ts isSpec name o x (length (heap a)) (length (heap a3)) nm (fst p2).
Proof.
  unfold mergeHandle, alloc. cbn [fst snd].
  destruct (renameVariable _ name o) as [r1 a6].
  cbn [fst snd]. destruct (renameFunctionDecl a6 name o r1) as [r2 a7]. reflexivity.
Qed.

Lemma mergeHandle_spec a ts isSpec name o x nm e :
  (exists d, heap a !! o = Some (NDeclaration d)) ->
  (exists d sp, heap a !! x = Some (NExport d sp)) ->
  evolves (Some o) a (mergeHandle a ts isSpec name o x nm e)
  /\ heap (mergeHandle a ts isSpec name o x nm e) !! length (heap a)
     = Some (NDeclaration (annotated ts (variables.declaration "const" nm e)))
  /\ (forall P : nat -> bool,
        P o = false -> P x = false ->
        (forall d, declarationOf (heap a !! x) = Some d -> P d = false) ->
        (forall l, length (heap a) <= l -> P l = false) ->
        List.filter P (body (mergeHandle a ts isSpec name o x nm e))
        = List.filter P (body a))
  /\ (isSpec = true
      \/ ((exists d, declarationOf (heap a !! x) = Some d)
          /\ isVariableDeclaration (heap a !! o) name
             || isFunctionDeclaration (heap a !! o) name = true) ->
      In (length (heap a)) (body (mergeHandle a ts isSpec name o x nm e))).
Proof.
  intros [od Ho] [xd [xsp Hx]]. rewrite mergeHandle_unfold.
  set (n0 := NDeclaration (annotated ts (variables.declaration "const" nm e))).
  set (a2 := snd (alloc n0 a)).
  set (a3 := appendToSequence a2 isSpec name o x (length (heap a)) nm).
  set (n1 := NDeclaration _).
  set (a4 := snd (alloc n1 a3)).
  set (a5 := imports.addNamed a4 HOOKS "sequence" "sequence" false).
  set (p1 := renameVariable a5 name o).
  set (p2 := renameFunctionDecl (snd p1) name o (fst p1)).
  cbv zeta.
  set (r := reappend (snd p2) ts isSpec name o x (length (heap a)) (length (heap a3)) nm
              (fst p2)).
  assert (E2 : evolves (Some o) a a2) by (apply evolves_alloc; reflexivity).
  assert (E23 : evolves (Some o) a2 a3) by apply evolves_appendToSequence.
  assert (E34 : evolves (Some o) a3 a4) by (apply evolves_alloc; reflexivity).
  assert (E45 : evolves (Some o) a4 a5) by apply evolves_weaken, evolves_addNamed_hooks.
  assert (E56 : evolves (Some o) a5 (snd p1)) by apply evolves_renameVariable.
  assert (E67 : evolves (Some o) (snd p1) (snd p2)) by apply evolves_renameFunctionDecl.
  assert (E7r : evolves (Some o) (snd p2) r) by apply evolves_weaken, evolves_reappend.
  assert (E27 : evolves (Some o) a2 (snd p2)).
  { eapply evolves_trans; [exact E23 |]. eapply evolves_trans; [exact E34 |].
    eapply evolves_trans; [exact E45 |]. eapply evolves_trans; [exact E56 | exact E67]. }
  assert (E2r : evolves (Some o) a2 r) by (eapply evolves_trans; eassumption).
  assert (Eall : evolves (Some o) a r) by (eapply evolves_trans; eassumption).
  assert (Hlt : o < length (heap a)) by (eapply lookup_lt_Some; exact Ho).
  assert (Hxo : x <> o) by (intros ->; congruence).
  assert (Hx7 : heap (snd p2) !! x = Some (NExport xd xsp)).
  { eapply ev_same; [eapply evolves_trans; [exact E2 | exact E27] | exact Hx | | reflexivity].
    congruence. }
  split; [exact Eall |]. split; [| split].
  - eapply ev_same; [exact E2r | | | reflexivity].
    + unfold a2, alloc. cbn [snd heap]. apply lookup_alloc_new.
    + intros [= ->]. lia.
  - intros P Po Px Pd Pfresh.
    assert (L2 : length (heap a) <= length (heap a2)) by (eapply evolves_length; exact E2).
    assert (L3 : length (heap a) <= length (heap a3)).
    { etransitivity; [exact L2 | eapply evolves_length; exact E23]. }
    assert (L4 : length (heap a) <= length (heap a4)).
    { etransitivity; [exact L3 | eapply evolves_length; exact E34]. }
    assert (L7 : length (heap a) <= length (heap (snd p2))).
    { etransitivity; [exact L2 | eapply evolves_length; exact E27]. }
    assert (B7 : body (snd p2) = body a5).
    { unfold p2. rewrite (proj2 (evolves_renameFunctionDecl _ _ _ _)).
      unfold p1. apply evolves_renameVariable. }
    transitivity (List.filter P (body (snd p2))).
    { assert (Hd : forall d, declarationOf (heap (snd p2) !! x) = Some d -> P d = false).
      { intros d Hd. rewrite Hx7 in Hd. apply Pd. rewrite Hx. exact Hd. }
      exact (body_reappend P (snd p2) ts isSpec name o x (length (heap a))
               (length (heap a3)) nm (fst p2) Po Px (Pfresh _ (le_n _)) (Pfresh _ L3)
               Hd (Pfresh _ L7) (Pfresh _ (le_S _ _ L7))). }
    rewrite B7. unfold a5. rewrite body_addNamed by (apply Pfresh; lia).
    unfold a4, alloc. cbn [snd body]. unfold a3.
    rewrite body_appendToSequence; try assumption; try (apply Pfresh; lia).
    reflexivity.
  - intros Hcond.
    assert (Hc : isSpec = true
                 \/ ((exists d, declarationOf (heap (snd p2) !! x) = Some d)
                     /\ (fst p2 = true
                         \/ isVariableDeclaration (heap (snd p2) !! o) name = true))).
    { destruct Hcond as [Hs | [[d Hd] Hdecl]]; [left; exact Hs | right]. split.
      - exists d. rewrite Hx7. rewrite Hx in Hd. exact Hd.
      - apply rename_outcome.
        assert (H5 : heap a5 !! o = heap a3 !! o).
        { destruct (ev_kind _ _ _ E2 _ _ Ho) as [n2 [H2 K2]].
          destruct (ev_kind _ _ _ E23 _ _ H2) as [n3 [H3 K3]].
          assert (K : sameKind (NDeclaration od) n3 = true)
            by (eapply sameKind_trans; eassumption).
          rewrite H3.
          eapply ev_same; [apply evolves_addNamed_hooks | | discriminate |].
          + unfold a4, alloc. cbn [snd heap]. apply lookup_alloc_Some. exact H3.
          + destruct n3; try discriminate K. reflexivity. }
        rewrite H5. unfold a3. rewrite appendToSequence_declares.
        unfold a2, alloc. cbn [snd heap]. rewrite lookup_alloc_old by exact Hlt.
        exact Hdecl. }
    exact (reappend_keeps_newDecl (snd p2) ts isSpec name o x (length (heap a))
             (length (heap a3)) nm (fst p2) Hc).
Qed.

(** ** The type import, once merged, stays merged *)

Lemma lastImportFrom_filter (P : nat -> bool) b : forall acc,
  fold_left (fun found l => if P l then Some l else found) b acc
  = fold_left (fun _ l => Some l) (List.filter P b) acc.
Proof.
  induction b as [| l b IH]; intros acc; [reflexivity |]. simpl.
  destruct (P l); simpl; apply IH.
Qed.

Lemma lastImportFrom_kitImports a :
  imports.lastImportFrom a KIT = fold_left (fun _ l => Some l) (kitImports a) None.
Proof. unfold imports.lastImportFrom, kitImports. apply lastImportFrom_filter. Qed.

Lemma addNamed_satisfied a :
  kitSatisfied a -> imports.addNamed a KIT "Handle" "Handle" true = a.
Proof.
  intros [i [s [sp [k [H1 [H2 H3]]]]]]. unfold imports.addNamed.
  rewrite H1, H2, H3. reflexivity.
Qed.

Lemma fold_last_cons (l : nat) (b : list nat) acc :
  (forall x, In x b -> x = l) ->
  fold_left (fun _ x => Some x) (l :: b) acc = Some l.
Proof.
  revert acc. induction b as [| y b IH]; intros acc H; [reflexivity |].
  simpl. assert (y = l) by (apply H; left; reflexivity). subst y.
  apply (IH (Some l)). intros x Hx. apply H. right. exact Hx.
Qed.

Lemma addNamed_establishes a :
  kitSatisfied (imports.addNamed a KIT "Handle" "Handle" true).
Proof.
  unfold imports.addNamed.
  destruct (imports.lastImportFrom a KIT) as [l|] eqn:Hlast.
  - pose proof (lastImportFrom_true _ _ _ Hlast) as Hl.
    unfold imports.isImportFrom in Hl.
    destruct (heap a !! l) as [[s sp t | | | |]|] eqn:Hn; try discriminate.
    destruct (existsb _ sp) eqn:Hsp.
    + exists l, s, sp, t. auto.
    + exists l, s, (sp ++ [ImportSpec "Handle" "Handle"]), t. split; [| split].
      * rewrite lastImportFrom_kitImports in *. unfold kitImports, mutate in *.
        cbn [heap body]. rewrite <- Hlast. f_equal.
        apply filter_ext. intros x. unfold imports.isImportFrom.
        destruct (decide (l = x)) as [<- | Hne].
        -- rewrite list_lookup_alter_eq, Hn. reflexivity.
        -- rewrite list_lookup_alter_ne by exact Hne. reflexivity.
      * unfold mutate. cbn [heap]. rewrite list_lookup_alter_eq, Hn. reflexivity.
      * rewrite existsb_app. simpl. apply orb_true_r.
  - exists (length (heap a)), KIT, [ImportSpec "Handle" "Handle"], true.
    unfold alloc, unshift. cbn [heap body fst snd]. split; [| split].
    + rewrite lastImportFrom_kitImports. unfold kitImports. cbn [heap body List.filter].
      unfold imports.isImportFrom at 1. rewrite lookup_alloc_new.
      change (String.eqb KIT KIT) with true. cbv iota.
      apply fold_last_cons. intros x Hx. apply filter_In in Hx as [Hin Hx].
      unfold imports.isImportFrom in Hx.
      destruct (lookup_alloc_cases (heap a) (NImport KIT [ImportSpec "Handle" "Handle"] true) x)
        as [[Hlt E] | [[Hxl E] | [_ [E E']]]].
      * exfalso. rewrite E in Hx.
        assert (Hk : In x (kitImports a)).
        { apply filter_In. split; [exact Hin | exact Hx]. }
        rewrite lastImportFrom_kitImports in Hlast.
        destruct (kitImports a) as [| y ys]; [destruct Hk |].
        clear -Hlast. simpl in Hlast. revert y Hlast.
        induction ys as [| z ys IH]; intros y; simpl; [discriminate |].
        apply IH.
      * exact Hxl.
      * rewrite E in Hx. discriminate.
    + apply lookup_alloc_new.
    + reflexivity.
Qed.

Lemma kitSatisfied_transfer mut a r :
  kitSatisfied a ->
  evolves mut a r ->
  (forall i, imports.isImportFrom (heap a) KIT i = true -> mut <> Some i) ->
  List.filter (imports.isImportFrom (heap a) KIT) (body r) = kitImports a ->
  kitSatisfied r.
Proof.
  intros [i [s [sp [k [H1 [H2 H3]]]]]] E Hmut Hbody.
  exists i, s, sp, k. split; [| split; [| exact H3]].
  - rewrite lastImportFrom_kitImports in *. rewrite <- H1. f_equal.
    unfold kitImports at 1. rewrite <- Hbody. apply filter_ext. intros x.
    eapply evolves_isImportFrom. exact E.
  - pose proof (lastImportFrom_true _ _ _ H1) as Hi.
    eapply ev_same; [exact E | exact H2 | apply Hmut; exact Hi |].
    unfold imports.isImportFrom in Hi. rewrite H2 in Hi.
    apply String.eqb_eq in Hi. subst s. reflexivity.
Qed.

Lemma createHandle_spec a ts nm e hname :
  evolves None a (createHandle a ts nm e hname)
  /\ heap (createHandle a ts nm e hname) !! length (heap a)
     = Some (NDeclaration (annotated ts (variables.declaration "const" nm e)))
  /\ In (length (heap a)) (body (createHandle a ts nm e hname))
  /\ forall P : nat -> bool,
       (forall l, length (heap a) <= l -> P l = false) ->
       List.filter P (body (createHandle a ts nm e hname)) = List.filter P (body a).
Proof.
  unfold createHandle, exports.namedExport, alloc, push. cbn [heap body fst snd].
  set (n0 := NDeclaration (annotated ts (variables.declaration "const" nm e))).
  set (n1 := NDeclaration _).
  split; [| split; [| split]].
  - eapply evolves_trans; [apply (evolves_grow None n0 a
      (mkAst (heap a ++ [n0]) (body a ++ [length (heap a)]))); reflexivity |].
    eapply evolves_trans; [apply (evolves_grow None n1 _
      (mkAst ((heap a ++ [n0]) ++ [n1]) (body a ++ [length (heap a)]))); reflexivity |].
    match goal with
    | |- evolves _ _ {| heap := _ ++ [?n2]; body := _ |} =>
        apply (evolves_grow None n2); reflexivity
    end.
  - rewrite <- !app_assoc. apply list_lookup_middle. reflexivity.
  - apply in_or_app. left. apply in_or_app. right. left. reflexivity.
  - intros P HP. rewrite !filter_push_neutral; [reflexivity | |].
    + intros l [<- | []]. apply HP. lia.
    + intros l [<- | []]. apply HP. rewrite !length_app. simpl. lia.
Qed.

Lemma locate_in_body ast x : exportDecl (locate ast) = Some x -> In x (body ast).
Proof.
  unfold locate.
  assert (H : forall b st,
    (forall y, exportDecl st = Some y -> In y (body ast)) ->
    (forall y, In y b -> In y (body ast)) ->
    exportDecl (fold_left (visitExport ast) b st) = Some x -> In x (body ast)).
  { induction b as [| l b IH]; intros st Hst Hb; simpl.
    - apply Hst.
    - apply IH.
      + intros y. rewrite visitExport_exportDecl.
        destruct (matches ast st l).
        * intros [= <-]. apply Hb. left. reflexivity.
        * apply Hst.
      + intros y Hy. apply Hb. right. exact Hy. }
  apply H; [discriminate | auto].
Qed.

Lemma loadFrom_declarations p : forall h,
  (forall l d, declarationOf (h !! l) = Some d ->
     exists decl, h !! d = Some (NDeclaration decl)) ->
  forall l d, declarationOf (fst (loadFrom h p) !! l) = Some d ->
    exists decl, fst (loadFrom h p) !! d = Some (NDeclaration decl).
Proof.
  induction p as [| s p IH]; intros h Hh; [exact Hh |].
  simpl. destruct (allocStatement s h) as [l0 h1] eqn:Ha.
  specialize (IH h1). destruct (loadFrom h1 p) as [h2 ls]. cbn [fst] in *.
  apply IH. clear IH.
  assert (Hext : forall ext,
    (forall l d, In (NExport (Some d) l) ext ->
       exists decl, (h ++ ext) !! d = Some (NDeclaration decl)) ->
    forall l d, declarationOf ((h ++ ext) !! l) = Some d ->
      exists decl, (h ++ ext) !! d = Some (NDeclaration decl)).
  { intros ext Hext l d Hd.
    destruct ((h ++ ext) !! l) as [[| | d' sp | |]|] eqn:Hl; try discriminate.
    simpl in Hd. subst d'.
    apply lookup_app_Some in Hl as [Hl | [_ Hl]].
    - destruct (Hh l d) as [decl Hdecl]; [rewrite Hl; reflexivity |].
      exists decl. apply lookup_app_l_Some. exact Hdecl.
    - apply (Hext sp d). apply list_elem_of_In. eapply list_elem_of_lookup_2. exact Hl. }
  destruct s as [src sp k | d | [d|] sp | e | k c]; simpl in Ha;
    injection Ha as <- <-; apply Hext; intros l d' Hin; simpl in Hin;
    repeat (destruct Hin as [Hin | Hin]; try discriminate Hin); try contradiction.
  injection Hin as <- <-. exists d.
  rewrite (lookup_fresh h _ _ 0) by lia. reflexivity.
Qed.

Lemma declarationsOk_load p : declarationsOk (load p).
Proof.
  intros l d _. unfold load.
  pose proof (loadFrom_declarations p []) as G.
  destruct (loadFrom [] p) as [h ls]. cbn [fst heap] in *.
  apply G. intros l' d' H. rewrite lookup_nil in H. discriminate H.
Qed.

Lemma declarationsOk_addNamed a src imported local isType :
  declarationsOk a -> declarationsOk (imports.addNamed a src imported local isType).
Proof.
  intros Hok. unfold imports.addNamed.
  destruct (imports.lastImportFrom a src) as [i|].
  - destruct (heap a !! i) as [[s sp t | | | |]|] eqn:Hi; try exact Hok.
    destruct (existsb _ sp); [exact Hok |].
    intros l d Hl Hd. unfold mutate in *. cbn [heap body] in *.
    assert (Hli : i <> l).
    { intros <-. rewrite list_lookup_alter_eq, Hi in Hd. discriminate Hd. }
    rewrite list_lookup_alter_ne in Hd by exact Hli.
    destruct (Hok l d Hl Hd) as [decl Hdecl]. exists decl.
    rewrite list_lookup_alter_ne; [exact Hdecl |]. intros <-. congruence.
  - intros l d Hl Hd. unfold alloc, unshift in *. cbn [heap body fst snd] in *.
    destruct Hl as [<- | Hl].
    + rewrite lookup_alloc_new in Hd. discriminate Hd.
    + destruct (lookup_alloc_cases (heap a) (NImport src [ImportSpec imported local] isType) l)
        as [[Hlt E] | [[Hxl E] | [_ [E E']]]]; rewrite E in Hd; try discriminate Hd.
      destruct (Hok l d Hl Hd) as [decl Hdecl]. exists decl.
      apply lookup_alloc_Some. exact Hdecl.
Qed.

Lemma declarationsOk_addHandleType a ts :
  declarationsOk a -> declarationsOk (addHandleType a ts).
Proof. destruct ts; simpl; [apply declarationsOk_addNamed | auto]. Qed.

(** ** C1: idempotence *)

Lemma isImportFrom_fresh (h : list Node) src l :
  length h <= l -> imports.isImportFrom h src l = false.
Proof.
  intros H. unfold imports.isImportFrom. rewrite lookup_ge_None_2 by exact H. reflexivity.
Qed.

Lemma isImportFrom_declaration (h : list Node) src l d :
  h !! l = Some (NDeclaration d) -> imports.isImportFrom h src l = false.
Proof. intros H. unfold imports.isImportFrom. rewrite H. reflexivity. Qed.

Lemma isImportFrom_export (h : list Node) src l d sp :
  h !! l = Some (NExport d sp) -> imports.isImportFrom h src l = false.
Proof. intros H. unfold imports.isImportFrom. rewrite H. reflexivity. Qed.

Lemma addHandleType_satisfied a ts :
  (ts = true -> kitSatisfied a) -> addHandleType a ts = a.
Proof.
  destruct ts; [| reflexivity]. intros H. apply addNamed_satisfied. apply H. reflexivity.
Qed.

Lemma addHandleType_establishes a ts : ts = true -> kitSatisfied (addHandleType a ts).
Proof. intros ->. apply addNamed_establishes. Qed.

(** After a call that was not stopped by the duplicate check, the type import
    is still in place and the fragment is in the program. *)
Lemma addHooksHandle_result a ts nm e :
  declarationsOk a ->
  (ts = true -> kitSatisfied (addHooksHandle a ts nm e))
  /\ common.hasNode (addHooksHandle a ts nm e) e = true.
Proof.
  intros Hok. unfold addHooksHandle.
  set (a1 := addHandleType a ts).
  assert (Hok1 : declarationsOk a1) by (apply declarationsOk_addHandleType; exact Hok).
  assert (Hk1 : ts = true -> kitSatisfied a1) by apply addHandleType_establishes.
  destruct (common.hasNode a1 e) eqn:Hhas; [split; [exact Hk1 | exact Hhas] |].
  pose proof (locate_findingOk a1) as [F1 [F2 F3]].
  pose proof (locate_in_body a1) as Fin.
  destruct (originalHandleDecl (locate a1)) as [o|] eqn:Ho.
  2: { destruct (createHandle_spec a1 ts nm e (handleName (locate a1)))
         as [E [Hl0 [Hin HP]]].
       split.
       - intros Hts. eapply kitSatisfied_transfer; [apply Hk1; exact Hts | exact E | |].
         + discriminate.
         + apply HP. intros l Hl. apply isImportFrom_fresh. exact Hl.
       - eapply hasNode_intro; [exact Hin | exact Hl0 | apply occursIn_new_declaration]. }
  destruct (exportDecl (locate a1)) as [x|] eqn:Hx.
  2: { destruct (createHandle_spec a1 ts nm e (handleName (locate a1)))
         as [E [Hl0 [Hin HP]]].
       split.
       - intros Hts. eapply kitSatisfied_transfer; [apply Hk1; exact Hts | exact E | |].
         + discriminate.
         + apply HP. intros l Hl. apply isImportFrom_fresh. exact Hl.
       - eapply hasNode_intro; [exact Hin | exact Hl0 | apply occursIn_new_declaration]. }
  destruct (F1 o eq_refl) as [od Hod].
  destruct (F2 x eq_refl) as [xd [xsp Hxn]].
  destruct (mergeHandle_spec a1 ts (isSpecifier (locate a1)) (handleName (locate a1))
              o x nm e) as [E [Hl0 [HP Hin]]].
  { exists od. exact Hod. }
  { exists xd, xsp. exact Hxn. }
  split.
  - intros Hts. eapply kitSatisfied_transfer; [apply Hk1; exact Hts | exact E | |].
    + intros i Hi [= <-]. rewrite (isImportFrom_declaration _ _ _ _ Hod) in Hi.
      discriminate Hi.
    + apply HP.
      * eapply isImportFrom_declaration. exact Hod.
      * eapply isImportFrom_export. exact Hxn.
      * intros d Hd. destruct (Hok1 x d (Fin x eq_refl) Hd) as [decl Hdecl].
        eapply isImportFrom_declaration. exact Hdecl.
      * intros l Hl. apply isImportFrom_fresh. exact Hl.
  - eapply hasNode_intro; [| exact Hl0 | apply occursIn_new_declaration].
    apply Hin. destruct (isSpecifier (locate a1)) eqn:Hs; [left; reflexivity | right].
    destruct (F3 eq_refl) as [Hname Hfound].
    destruct (Hfound o x eq_refl eq_refl) as [[sp Hsp] Hdecl].
    split.
    + exists o. rewrite Hsp. reflexivity.
    + rewrite Hname. exact Hdecl.
Qed.

Lemma addHooksHandle_fixed a ts nm e :
  declarationsOk a ->
  addHooksHandle (addHooksHandle a ts nm e) ts nm e = addHooksHandle a ts nm e.
Proof.
  intros Hok. destruct (addHooksHandle_result a ts nm e Hok) as [Hk Hh].
  set (r := addHooksHandle a ts nm e) in *.
  unfold addHooksHandle at 1.
  rewrite (addHandleType_satisfied r ts Hk), Hh. reflexivity.
Qed.

(** C1.  Applying the merge twice with the same fragment prints the same
    program as applying it once: on the already-merged tree the second call
    changes nothing, the store itself being left as the first call left it. *)
Theorem addHooksHandle_idempotent p ts name e :
  print (addHooksHandle (addHooksHandle (load p) ts name e) ts name e)
  = print (addHooksHandle (load p) ts name e)
  /\ addHooksHandle (addHooksHandle (load p) ts name e) ts name e
     = addHooksHandle (load p) ts name e.
Proof.
  assert (H : addHooksHandle (addHooksHandle (load p) ts name e) ts name e
              = addHooksHandle (load p) ts name e)
    by apply addHooksHandle_fixed, declarationsOk_load.
  split; [rewrite H; reflexivity | exact H].
Qed.

(** ** A pass-through handle *)

Lemma addNamed_keeps a src imported local isType l n :
  heap a !! l = Some n -> isImportNode n = false ->
  heap (imports.addNamed a src imported local isType) !! l = Some n.
Proof.
  intros Hl Hn. unfold imports.addNamed.
  destruct (imports.lastImportFrom a src) as [i|].
  - destruct (heap a !! i) as [[s sp t | | | |]|] eqn:Hi; try exact Hl.
    destruct (existsb _ sp); [exact Hl |].
    unfold mutate. cbn [heap]. rewrite list_lookup_alter_ne; [exact Hl |].
    intros <-. rewrite Hi in Hl. injection Hl as <-. discriminate Hn.
  - unfold alloc, unshift. cbn [heap fst snd]. apply lookup_alloc_Some. exact Hl.
Qed.

(** With a pass-through original that is no composition, lines 141-204 only
    create the two declarations and add the import. *)
Lemma mergeHandle_passthrough a ts isSpec name o x nm e k ds i other :
  heap a !! o = Some (NDeclaration (VariableDeclaration k ds)) ->
  getVariableDeclarator (VariableDeclaration k ds) name
    = Some (Declarator i (Some (Identifier other))) ->
  findSequence (heap a !! o) name = None ->
  exists a5,
    mergeHandle a ts isSpec name o x nm e
    = reappend a5 ts isSpec name o x (length (heap a)) (S (length (heap a))) nm false
    /\ heap a5 !! o = Some (NDeclaration (VariableDeclaration k ds))
    /\ heap a5 !! length (heap a)
       = Some (NDeclaration (annotated ts (variables.declaration "const" nm e)))
    /\ (forall l n, heap a !! l = Some n -> isImportNode n = false ->
          heap a5 !! l = Some n)
    /\ S (length (heap a)) < length (heap a5).
Proof.
  intros Ho Hg Hs. rewrite mergeHandle_unfold.
  set (n0 := NDeclaration (annotated ts (variables.declaration "const" nm e))).
  set (a2 := snd (alloc n0 a)).
  assert (Ho2 : heap a2 !! o = Some (NDeclaration (VariableDeclaration k ds))).
  { unfold a2, alloc. cbn [snd heap]. apply lookup_alloc_Some. exact Ho. }
  assert (E3 : appendToSequence a2 isSpec name o x (length (heap a)) nm = a2).
  { unfold appendToSequence. rewrite Ho2. rewrite Ho in Hs. rewrite Hs. reflexivity. }
  cbv zeta. rewrite E3.
  set (n1 := NDeclaration _).
  set (a4 := snd (alloc n1 a2)).
  set (a5 := imports.addNamed a4 HOOKS "sequence" "sequence" false).
  assert (L4 : length (heap a4) = S (S (length (heap a)))).
  { unfold a4, a2, alloc. cbn [snd heap]. rewrite !length_app. simpl. lia. }
  assert (K5 : forall l n, heap a !! l = Some n -> isImportNode n = false ->
                 heap a5 !! l = Some n).
  { intros l n Hl Hn. unfold a5. apply addNamed_keeps; [| exact Hn].
    unfold a4, a2, alloc. cbn [snd heap]. do 2 apply lookup_alloc_Some. exact Hl. }
  assert (Ho5 : heap a5 !! o = Some (NDeclaration (VariableDeclaration k ds))).
  { apply K5; [exact Ho | reflexivity]. }
  exists a5. split; [| split; [exact Ho5 | split; [| split; [exact K5 |]]]].
  - unfold renameVariable. rewrite Ho5, Hg. cbn [initIsIdentifier negb fst snd].
    unfold renameFunctionDecl. rewrite Ho5. cbn [isFunctionDeclaration fst snd].
    f_equal. unfold a2, alloc. cbn [snd heap]. rewrite length_app. simpl. lia.
  - unfold a5. apply addNamed_keeps; [| reflexivity].
    unfold a4, a2, alloc. cbn [snd heap]. apply lookup_alloc_Some. apply lookup_alloc_new.
  - apply Nat.lt_le_trans with (m := length (heap a4)); [lia |].
    eapply evolves_length. apply (evolves_addNamed_hooks a4).
Qed.

(** The last branch of lines 206-235 (220-235), written out. *)
Lemma reappend_passthrough a ts name o x l0 nhd nm d :
  declarationOf (heap a !! x) = Some d ->
  isVariableDeclaration (heap a !! o) name = true ->
  reappend a ts false name o x l0 nhd nm false
  = mkAst
      (heap a
       ++ [NDeclaration
             (annotated ts
                (variables.declaration "const" name
                   (functions.callByIdentifier "sequence" [initName a name o; nm])));
           NExport (Some (length (heap a))) []])
      (List.filter (keep o x l0) (body a) ++ [l0; S (length (heap a))]).
Proof.
  intros Hd Hv. unfold reappend, setBody, initName. cbn [heap body].
  rewrite Hd, Hv. unfold exports.namedExport, alloc, push. cbn [heap body].
  rewrite <- !app_assoc. cbn [app]. rewrite length_app. cbn [length].
  replace (length (heap a) + 1) with (S (length (heap a))) by lia. reflexivity.
Qed.

(** *** The locator does not look at imports *)

Lemma sameButImports_isVariableDeclaration h h' l name :
  sameButImports h h' ->
  isVariableDeclaration (h' !! l) name = isVariableDeclaration (h !! l) name.
Proof.
  intros H. destruct (H l) as [-> | [H1 H2]]; [reflexivity |].
  destruct (h !! l) as [[]|], (h' !! l) as [[]|]; simpl in *; try contradiction; reflexivity.
Qed.

Lemma sameButImports_isFunctionDeclaration h h' l name :
  sameButImports h h' ->
  isFunctionDeclaration (h' !! l) name = isFunctionDeclaration (h !! l) name.
Proof.
  intros H. destruct (H l) as [-> | [H1 H2]]; [reflexivity |].
  destruct (h !! l) as [[]|], (h' !! l) as [[]|]; simpl in *; try contradiction; reflexivity.
Qed.

Lemma find_ext_in {A} (p q : A -> bool) (l : list A) :
  (forall x, p x = q x) -> List.find p l = List.find q l.
Proof.
  intros H. induction l as [| x l IH]; simpl; [reflexivity |].
  rewrite H, IH. reflexivity.
Qed.

Lemma visitExport_sameButImports a a' st l :
  sameButImports (heap a) (heap a') ->
  (forall p : nat -> bool,
     (forall i, importOrNone (heap a' !! i) -> p i = false) ->
     List.find p (body a') = List.find p (body a)) ->
  visitExport a' st l = visitExport a st l.
Proof.
  intros Hh Hb. unfold visitExport.
  destruct (Hh l) as [-> | [H1 H2]].
  2: { destruct (heap a !! l) as [[]|], (heap a' !! l) as [[]|]; simpl in *;
         try contradiction; reflexivity. }
  destruct (heap a !! l) as [[| | d sp | |]|]; try reflexivity.
  assert (Hres : resolveExport a' st d sp = resolveExport a st d sp).
  { unfold resolveExport. destruct (List.find _ sp) as [s|]; [| reflexivity].
    rewrite (Hb (fun n => isFunctionDeclaration (heap a' !! n) (localName s))).
    2: { intros i Hi. destruct (heap a' !! i) as [[]|]; simpl in *; try contradiction;
           reflexivity. }
    rewrite (Hb (fun n => isVariableDeclaration (heap a' !! n) (localName s))).
    2: { intros i Hi. destruct (heap a' !! i) as [[]|]; simpl in *; try contradiction;
           reflexivity. }
    rewrite (find_ext_in (fun n => isFunctionDeclaration (heap a' !! n) (localName s))
               (fun n => isFunctionDeclaration (heap a !! n) (localName s)))
      by (intros n; apply sameButImports_isFunctionDeclaration; exact Hh).
    rewrite (find_ext_in (fun n => isVariableDeclaration (heap a' !! n) (localName s))
               (fun n => isVariableDeclaration (heap a !! n) (localName s)))
      by (intros n; apply sameButImports_isVariableDeclaration; exact Hh).
    reflexivity. }
  rewrite Hres. destruct (resolveExport a st d sp) as [[isSpec name] maybe].
  assert (Hdecl : declaresHandle a' maybe name = declaresHandle a maybe name).
  { unfold declaresHandle. destruct maybe as [m|]; [| reflexivity].
    rewrite (sameButImports_isVariableDeclaration _ _ _ _ Hh),
      (sameButImports_isFunctionDeclaration _ _ _ _ Hh). reflexivity. }
  rewrite Hdecl. reflexivity.
Qed.

Lemma fold_left_ext_all {A B} (f g : A -> B -> A) (b : list B) :
  (forall st l, f st l = g st l) ->
  forall st, fold_left f b st = fold_left g b st.
Proof.
  intros H. induction b as [| l b IH]; intros st; [reflexivity |].
  simpl. rewrite H. apply IH.
Qed.

Lemma locate_addNamed a src imported local isType :
  locate (imports.addNamed a src imported local isType) = locate a.
Proof.
  unfold imports.addNamed.
  destruct (imports.lastImportFrom a src) as [i|].
  - destruct (heap a !! i) as [[s sp t | | | |]|] eqn:Hi; try reflexivity.
    destruct (existsb _ sp); [reflexivity |].
    unfold locate, mutate. cbn [body].
    set (a' := mkAst _ _).
    assert (Hv : forall st l, visitExport a' st l = visitExport a st l).
    { intros st l. apply visitExport_sameButImports; [| reflexivity].
      intros l'. unfold a'. cbn [heap].
      destruct (decide (i = l')) as [<- | Hne].
      - right. rewrite list_lookup_alter_eq, Hi. simpl. auto.
      - left. apply list_lookup_alter_ne. exact Hne. }
    apply fold_left_ext_all. exact Hv.
  - unfold locate, alloc, unshift. cbn [body fst snd].
    set (a' := mkAst _ _).
    assert (Hnew : importOrNone (heap a' !! length (heap a))).
    { unfold a'. cbn [heap]. rewrite lookup_alloc_new. exact I. }
    assert (Hv : forall st l, visitExport a' st l = visitExport a st l).
    { intros st l. apply visitExport_sameButImports.
      - intros l'. unfold a'. cbn [heap].
        destruct (lookup_alloc_cases (heap a)
                    (NImport src [ImportSpec imported local] isType) l')
          as [[Hlt E] | [[Hxl E] | [_ [E E']]]].
        + left. exact E.
        + right. rewrite E. rewrite lookup_ge_None_2 by lia. simpl. auto.
        + left. rewrite E, E'. reflexivity.
      - intros p Hp. unfold a'. cbn [body List.find].
        rewrite (Hp (length (heap a)) Hnew). reflexivity. }
    cbn [fold_left].
    assert (H0 : visitExport a' noFinding (length (heap a)) = noFinding).
    { unfold visitExport. unfold a' at 1. cbn [heap]. rewrite lookup_alloc_new. reflexivity. }
    rewrite H0. apply fold_left_ext_all. exact Hv.
Qed.

Lemma locate_addHandleType a ts : locate (addHandleType a ts) = locate a.
Proof. destruct ts; [apply locate_addNamed | reflexivity]. Qed.

Lemma addHandleType_keeps a ts l n :
  heap a !! l = Some n -> isImportNode n = false ->
  heap (addHandleType a ts) !! l = Some n.
Proof. destruct ts; [apply addNamed_keeps | auto]. Qed.

Lemma isVariableDeclaration_get k ds name d :
  getVariableDeclarator (VariableDeclaration k ds) name = Some d ->
  isVariableDeclaration (Some (NDeclaration (VariableDeclaration k ds))) name = true.
Proof. intros H. unfold isVariableDeclaration. rewrite H. reflexivity. Qed.

(** The store after a merge when the declaration the locator found holds the
    handle as a mere identifier reference (and is no composition): the
    declaration object is left exactly as it was, and when the flag is unset
    the body ends with the declaration of the new unit followed by an inline
    export of [sequence(otherHandle, c)], the old export statement being
    gone. *)
Lemma pass_through_composed ast ts nm e o x k ds i other :
  common.hasNode ast e = false ->
  originalHandleDecl (locate ast) = Some o ->
  exportDecl (locate ast) = Some x ->
  heap ast !! o = Some (NDeclaration (VariableDeclaration k ds)) ->
  getVariableDeclarator (VariableDeclaration k ds) (handleName (locate ast))
    = Some (Declarator i (Some (Identifier other))) ->
  findSequence (heap ast !! o) (handleName (locate ast)) = None ->
  heap (addHooksHandle ast ts nm e) !! o = Some (NDeclaration (VariableDeclaration k ds))
  /\ (isSpecifier (locate ast) = false ->
      (exists rest,
         print (addHooksHandle ast ts nm e)
         = rest ++ [constDecl nm (handleType ts) e;
                    exportConst "handle" (handleType ts) (sequenceOf [other; nm])])
      /\ ~ In x (body (addHooksHandle ast ts nm e))).
Proof.
  intros Hfresh Ho Hx Hod Hg Hs. unfold addHooksHandle.
  rewrite hasNode_addHandleType, Hfresh, locate_addHandleType, Ho, Hx.
  set (a1 := addHandleType ast ts).
  set (name := handleName (locate ast)) in *.
  assert (Hod1 : heap a1 !! o = Some (NDeclaration (VariableDeclaration k ds)))
    by (apply addHandleType_keeps; [exact Hod | reflexivity]).
  assert (Hs1 : findSequence (heap a1 !! o) name = None) by (rewrite Hod1, <- Hod; exact Hs).
  destruct (mergeHandle_passthrough a1 ts (isSpecifier (locate ast)) name o x nm e
              k ds i other Hod1 Hg Hs1) as [a5 [Hm [Ho5 [Hl5 [K5 L5]]]]].
  rewrite Hm. split.
  - eapply ev_same; [apply evolves_reappend | exact Ho5 | discriminate | reflexivity].
  - intros Hspec. rewrite Hspec.
    pose proof (locate_findingOk a1) as [_ [_ F3]].
    assert (El : locate a1 = locate ast) by apply locate_addHandleType.
    rewrite El in F3.
    destruct (F3 Hspec) as [Hname Hfound].
    destruct (Hfound o x Ho Hx) as [[sp Hxn] _].
    assert (Hx5 : heap a5 !! x = Some (NExport (Some o) sp)) by (apply K5; [exact Hxn | reflexivity]).
    rewrite (reappend_passthrough a5 ts name o x _ _ nm o).
    2: { rewrite Hx5. reflexivity. }
    2: { rewrite Ho5. eapply isVariableDeclaration_get. exact Hg. }
    split.
    + eexists. unfold print. cbn [heap body]. rewrite map_app. f_equal.
      cbn [map]. f_equal; [| f_equal].
      * unfold printStatement. rewrite lookup_app_l by lia. rewrite Hl5.
        rewrite annotated_declaration. reflexivity.
      * unfold printStatement, printDeclaration.
        rewrite (lookup_fresh _ _ _ 1) by lia. cbn.
        rewrite (lookup_fresh _ _ _ 0) by lia. cbn.
        unfold initName. rewrite Ho5, Hg.
        change name with (handleName (locate ast)). rewrite Hname.
        destruct ts; reflexivity.
    + cbn [body]. intros Hin. apply in_app_or in Hin as [Hin | Hin].
      * apply filter_In in Hin as [_ Hk]. unfold keep in Hk.
        rewrite Nat.eqb_refl in Hk. rewrite andb_false_r in Hk. discriminate Hk.
      * apply lookup_lt_Some in Hxn. simpl in Hin. lia.
Qed.

Lemma pass_through_composed_witness :
  merged [exportConst "handle" None (Identifier "otherHandle")] false "c" sampleHandle
  = [hooksImport;
     constDecl "c" None sampleHandle;
     exportConst "handle" None (sequenceOf ["otherHandle"; "c"])]
  /\ exists rest,
       merged [exportConst "handle" None (Identifier "otherHandle")] false "c" sampleHandle
       = rest ++ [constDecl "c" None sampleHandle;
                  exportConst "handle" None (sequenceOf ["otherHandle"; "c"])].
Proof.
  split; [reflexivity |].
  destruct (pass_through_composed
              (load [exportConst "handle" None (Identifier "otherHandle")])
              false "c" sampleHandle 0 1 "const"
              [Declarator (PIdentifier "handle" None) (Some (Identifier "otherHandle"))]
              (PIdentifier "handle" None) "otherHandle"
              eq_refl eq_refl eq_refl eq_refl eq_refl eq_refl) as [_ H].
  destruct (H eq_refl) as [Hrest _]. exact Hrest.
Defined.

(** ** [addGlobalAppInterface]: paths and pushes *)

Lemma nodeAt_single (ast : list TSNode) g : nodeAt ast [g] = ast !! g.
Proof. unfold nodeAt. destruct (ast !! g); reflexivity. Qed.

Lemma childAt_app p q n :
  childAt (p ++ q) n = n' ← childAt p n; childAt q n'.
Proof.
  revert n. induction p as [| i p IH]; intros n; [reflexivity |].
  simpl. destruct n as [g d m [b|] | ns | i0 ms | t cs]; try reflexivity.
  - destruct i; [apply IH | reflexivity].
  - destruct (ns !! i) as [c|]; simpl; [apply IH | reflexivity].
  - destruct (cs !! i) as [c|]; simpl; [apply IH | reflexivity].
Qed.

(** Pushing into the block of the module declaration at [p] puts the new node
    at the end of that block. *)
Lemma childAt_pushChild_new p new : forall n g d m ns,
  childAt p n = Some (TSModuleDeclaration g d m (Some (TSModuleBlock ns))) ->
  childAt (p ++ [0; length ns]) (pushChild p new n) = Some new.
Proof.
  induction p as [| i p IH]; intros n g d m ns H.
  - simpl in H. injection H as ->. simpl.
    rewrite list_lookup_middle by reflexivity. reflexivity.
  - simpl in H. destruct n as [g' d' m' [b|] | ns' | i0 ms | t cs]; try discriminate.
    + destruct i; [| discriminate]. simpl. eapply IH. exact H.
    + destruct (ns' !! i) as [c|] eqn:Hc; [| discriminate]. simpl in H.
      cbn [pushChild]. rewrite <- app_comm_cons. cbn [childAt].
      rewrite list_lookup_alter_eq, Hc. simpl.
      eapply IH. exact H.
    + destruct (cs !! i) as [c|] eqn:Hc; [| discriminate]. simpl in H.
      cbn [pushChild]. rewrite <- app_comm_cons. cbn [childAt].
      rewrite list_lookup_alter_eq, Hc. simpl.
      eapply IH. exact H.
Qed.


Lemma nodeAt_pushInto_new (ast : list TSNode) p new g d m ns :
  nodeAt ast p = Some (TSModuleDeclaration g d m (Some (TSModuleBlock ns))) ->
  nodeAt (pushInto p new ast) (p ++ [0; length ns]) = Some new.
Proof.
  destruct p as [| i p]; [discriminate |]. unfold nodeAt, pushInto. cbn [app].
  destruct (ast !! i) as [n|] eqn:Hi; [| discriminate]. simpl. intros H.
  rewrite list_lookup_alter_eq, Hi. simpl. eapply childAt_pushChild_new. exact H.
Qed.


Lemma hasBlockBody_inv n :
  hasBlockBody n = true ->
  exists g d m ns, n = Some (TSModuleDeclaration g d m (Some (TSModuleBlock ns))).
Proof.
  destruct n as [[g d m [[| ns | |]|] | | |]|]; simpl; try discriminate.
  intros _. exists g, d, m, ns. reflexivity.
Qed.

Lemma blockLength_spec (ast : list TSNode) p g d m ns :
  nodeAt ast p = Some (TSModuleDeclaration g d m (Some (TSModuleBlock ns))) ->
  blockLength ast p = length ns.
Proof. intros H. unfold blockLength. rewrite H. reflexivity. Qed.

Lemma findGlobalDecl_Some ns : forall i g,
  findGlobalDecl i ns = Some g ->
  exists n, ns !! (g - i) = Some n /\ isGlobalDecl n = true /\ i <= g
            /\ forall j m, j < g - i -> ns !! j = Some m -> isGlobalDecl m = false.
Proof.
  induction ns as [| n ns IH]; intros i g H; [discriminate |].
  simpl in H. destruct (isGlobalDecl n) eqn:Hn.
  - injection H as <-. exists n. rewrite Nat.sub_diag. repeat split; auto. lia.
  - destruct (IH _ _ H) as [n' [H1 [H2 [H3 H4]]]]. exists n'.
    replace (g - i) with (S (g - S i)) by lia. repeat split; auto; try lia.
    intros [| j] m Hj Hm.
    + simpl in Hm. injection Hm as <-. exact Hn.
    + simpl in Hm. apply (H4 j m); [lia | exact Hm].
Qed.

Lemma findGlobalDecl_None ns : forall i,
  findGlobalDecl i ns = None -> forall n, In n ns -> isGlobalDecl n = false.
Proof.
  induction ns as [| n ns IH]; intros i H m Hm; [destruct Hm |].
  simpl in H. destruct (isGlobalDecl n) eqn:Hn; [discriminate |].
  destruct Hm as [<- | Hm]; [exact Hn | eapply IH; eassumption].
Qed.

(** ** C9: errors leave the tree alone *)

Lemma returned_or_thrown_interface seen (ast : list TSNode) a name (P : Outcome -> Prop) :
  (forall ast' i, P (Returned ast' i)) ->
  P (match interfaceNode seen with
     | Some i => Returned ast i
     | None => Returned (pushInto a (emptyInterface name) ast) (a ++ [0; blockLength ast a])
     end).
Proof. intros H. destruct (interfaceNode seen); apply H. Qed.

(** C9.  [addGlobalAppInterface] throws exactly when the [declare global]
    block it finds, or the [App] namespace found in it, has a body that is not
    a block; and whenever it throws, the tree is the one it was given: nothing
    was created before the throw. *)
Theorem throws_iff_malformed_and_unchanged ast name :
  match addGlobalAppInterface ast name with
  | Thrown ast' _ => ast' = ast /\ malformed ast name = true
  | Returned _ _ => malformed ast name = false
  end.
Proof.
  unfold addGlobalAppInterface, withGlobalDecl, malformed.
  destruct (findGlobalDecl 0 ast) as [g|] eqn:Hg.
  - destruct (hasBlockBody (nodeAt ast [g])) eqn:Hb; cbn [negb orb];
      [| split; reflexivity].
    destruct (hasBlockBody_inv _ Hb) as [gl [dc [m [ns Hgd]]]]. rewrite Hgd.
    set (seen := walk (nameString name) [g] _ nothingSeen).
    destruct (app seen) as [a|] eqn:Ha.
    + destruct (hasBlockBody (nodeAt ast a)) eqn:Hab; cbn [negb];
        [| split; reflexivity].
      apply returned_or_thrown_interface. reflexivity.
    + rewrite (blockLength_spec _ _ _ _ _ _ Hgd).
      rewrite (nodeAt_pushInto_new _ _ _ _ _ _ _ Hgd). cbn [hasBlockBody namespaceApp negb].
      apply returned_or_thrown_interface. reflexivity.
  - assert (Hgd : nodeAt (ast ++ [declareGlobal]) [length ast] = Some declareGlobal).
    { rewrite nodeAt_single. apply list_lookup_middle. reflexivity. }
    rewrite Hgd. cbn [hasBlockBody declareGlobal negb]. fold declareGlobal.
    assert (Hw : walk (nameString name) [length ast] declareGlobal nothingSeen
                 = nothingSeen) by reflexivity.
    rewrite Hw. cbn [app interfaceNode nothingSeen].
    rewrite (blockLength_spec _ _ _ _ _ _ Hgd).
    rewrite (nodeAt_pushInto_new _ _ _ _ _ _ _ Hgd). cbn [hasBlockBody namespaceApp negb].
    reflexivity.
Qed.

(** ** [addGlobalAppInterface]: the walk *)

Lemma TSNode_induction (P : TSNode -> Prop) :
  (forall g d m, P (TSModuleDeclaration g d m None)) ->
  (forall g d m b, P b -> P (TSModuleDeclaration g d m (Some b))) ->
  (forall ns, Forall P ns -> P (TSModuleBlock ns)) ->
  (forall i ms, P (TSInterfaceDeclaration i ms)) ->
  (forall t cs, Forall P cs -> P (TSOther t cs)) ->
  forall n, P n.
Proof.
  intros H1 H2 H3 H4 H5. fix IH 1.
  intros [g d m [b|] | ns | i ms | t cs].
  - apply H2, IH.
  - apply H1.
  - apply H3. induction ns as [| n ns IHns]; constructor; [apply IH | exact IHns].
  - apply H4.
  - apply H5. induction cs as [| n cs IHcs]; constructor; [apply IH | exact IHcs].
Qed.

Lemma walk_block name p ns st :
  walk name p (TSModuleBlock ns) st = walkList name p 0 ns st.
Proof.
  cbn [walk]. generalize 0. revert st.
  induction ns as [| n ns IH]; intros st i; [reflexivity |].
  cbn [walkList]. apply IH.
Qed.

Lemma walk_other name p t cs st :
  walk name p (TSOther t cs) st = walkList name p 0 cs st.
Proof.
  cbn [walk]. generalize 0. revert st.
  induction cs as [| n cs IH]; intros st i; [reflexivity |].
  cbn [walkList]. apply IH.
Qed.

Lemma walk_module name p g d m b st :
  walk name p (TSModuleDeclaration g d m b) st
  = let st1 := if isApp m then mkSeen (Some p) (interfaceNode st) else st in
    match b with
    | Some b => walk name (p ++ [0]) b st1
    | None => st1
    end.
Proof. destruct b; reflexivity. Qed.

Lemma walk_interface name p i ms st :
  walk name p (TSInterfaceDeclaration i ms) st
  = if String.eqb i name then mkSeen (app st) (Some p) else st.
Proof. reflexivity. Qed.





(** Where no interface of the name occurs, the walk leaves [interfaceNode]
    as it is. *)
Lemma list_sum_zero (l : list nat) : list_sum l = 0 -> Forall (fun x => x = 0) l.
Proof.
  induction l as [| x l IH]; intros H; constructor; simpl in H; [lia | apply IH; lia].
Qed.

Lemma walk_no_interface name n : forall p st,
  countInterfaces name n = 0 -> interfaceNode (walk name p n st) = interfaceNode st.
Proof.
  induction n as [g d m | g d m b IH | ns IH | i ms | t cs IH] using TSNode_induction;
    intros p st H.
  - rewrite walk_module. cbv zeta. destruct (isApp m); reflexivity.
  - rewrite walk_module. cbv zeta. rewrite IH by exact H. destruct (isApp m); reflexivity.
  - rewrite walk_block. cbn [countInterfaces] in H. apply list_sum_zero in H.
    generalize 0. revert st.
    induction ns as [| n ns IHns]; intros st i; [reflexivity |].
    cbn [walkList]. inversion IH as [| ? ? Hn Hns]; subst.
    inversion H as [| ? ? H0 H1]; subst.
    rewrite IHns by assumption. apply Hn. exact H0.
  - rewrite walk_interface. cbn [countInterfaces] in H.
    destruct (String.eqb i name); [discriminate | reflexivity].
  - rewrite walk_other. cbn [countInterfaces] in H. apply list_sum_zero in H.
    generalize 0. revert st.
    induction cs as [| n cs IHcs]; intros st i; [reflexivity |].
    cbn [walkList]. inversion IH as [| ? ? Hn Hns]; subst.
    inversion H as [| ? ? H0 H1]; subst.
    rewrite IHcs by assumption. apply Hn. exact H0.
Qed.


Lemma alter_split {A} (f : A -> A) (l : list A) : forall i c,
  l !! i = Some c ->
  exists pre post, l = pre ++ c :: post /\ length pre = i
                   /\ alter f i l = pre ++ f c :: post.
Proof.
  induction l as [| x l IH]; intros i c H; [discriminate |].
  destruct i as [| i].
  - injection H as ->. exists [], l. repeat split.
  - simpl in H. destruct (IH i c H) as [pre [post [E1 [E2 E3]]]].
    exists (x :: pre), post. split; [simpl; f_equal; exact E1 |].
    split; [simpl; f_equal; exact E2 |].
    change (alter f (S i) (x :: l)) with (x :: alter f i l). rewrite E3. reflexivity.
Qed.

(** Once set, [interfaceNode] stays set. *)
Lemma walk_interface_stays name n : forall p st,
  interfaceNode st <> None -> interfaceNode (walk name p n st) <> None.
Proof.
  induction n as [g d m | g d m b IH | ns IH | i ms | t cs IH] using TSNode_induction;
    intros p st H.
  - rewrite walk_module. cbv zeta. destruct (isApp m); exact H.
  - rewrite walk_module. cbv zeta. apply IH. destruct (isApp m); exact H.
  - rewrite walk_block. generalize 0. revert st H.
    induction ns as [| n ns IHns]; intros st H i; [exact H |].
    cbn [walkList]. inversion IH as [| ? ? Hn Hns]; subst.
    apply IHns; [exact Hns |]. apply Hn. exact H.
  - rewrite walk_interface. destruct (String.eqb i name); [discriminate | exact H].
  - rewrite walk_other. generalize 0. revert st H.
    induction cs as [| n cs IHcs]; intros st H i; [exact H |].
    cbn [walkList]. inversion IH as [| ? ? Hn Hns]; subst.
    apply IHcs; [exact Hns |]. apply Hn. exact H.
Qed.

Lemma walkList_interface_stays name ns : forall p i st,
  interfaceNode st <> None -> interfaceNode (walkList name p i ns st) <> None.
Proof.
  induction ns as [| n ns IH]; intros p i st H; [exact H |].
  cbn [walkList]. apply IH. apply walk_interface_stays. exact H.
Qed.

(** If the walk ends with no interface seen, none of the name occurs. *)
Lemma walk_interface_none name n : forall p st,
  interfaceNode (walk name p n st) = None -> countInterfaces name n = 0.
Proof.
  induction n as [g d m | g d m b IH | ns IH | i ms | t cs IH] using TSNode_induction;
    intros p st H.
  - reflexivity.
  - rewrite walk_module in H. cbv zeta in H. cbn [countInterfaces]. eapply IH. exact H.
  - rewrite walk_block in H. cbn [countInterfaces]. revert st H. generalize 0 at 1.
    induction ns as [| n ns IHns]; intros i st H; [reflexivity |].
    cbn [walkList] in H. inversion IH as [| ? ? Hn Hns]; subst. simpl.
    rewrite (IHns Hns _ _ H).
    destruct (interfaceNode (walk name (p ++ [i]) n st)) eqn:E.
    + exfalso. eapply walkList_interface_stays; [| exact H]. rewrite E. discriminate.
    + rewrite (Hn _ _ E). reflexivity.
  - rewrite walk_interface in H. cbn [countInterfaces].
    destruct (String.eqb i name); [discriminate | reflexivity].
  - rewrite walk_other in H. cbn [countInterfaces]. revert st H. generalize 0 at 1.
    induction cs as [| n cs IHcs]; intros i st H; [reflexivity |].
    cbn [walkList] in H. inversion IH as [| ? ? Hn Hns]; subst. simpl.
    rewrite (IHcs Hns _ _ H).
    destruct (interfaceNode (walk name (p ++ [i]) n st)) eqn:E.
    + exfalso. eapply walkList_interface_stays; [| exact H]. rewrite E. discriminate.
    + rewrite (Hn _ _ E). reflexivity.
Qed.

Lemma walkList_found (proj : Seen -> option Path) (good : TSNode -> Path -> Prop)
  name p ns :
  Forall (fun n => forall q st a, proj (walk name q n st) = Some a ->
            proj st = Some a \/ exists rest, a = q ++ rest /\ good n rest) ns ->
  forall i st a, proj (walkList name p i ns st) = Some a ->
    proj st = Some a
    \/ exists j c rest, ns !! j = Some c /\ a = p ++ (i + j) :: rest /\ good c rest.
Proof.
  induction 1 as [| n ns Hn _ IH]; intros i st a H; [left; exact H |].
  cbn [walkList] in H. destruct (IH _ _ _ H) as [H' | [j [c [rest [Hj [Ha Hg]]]]]].
  - destruct (Hn _ _ _ H') as [H'' | [rest [Ha Hg]]]; [left; exact H'' | right].
    exists 0, n, rest. split; [reflexivity |]. split; [| exact Hg].
    rewrite Ha, <- app_assoc, Nat.add_0_r. reflexivity.
  - right. exists (S j), c, rest. split; [exact Hj |]. split; [| exact Hg].
    rewrite Ha. replace (i + S j) with (S i + j) by lia. reflexivity.
Qed.

Lemma walk_app_valid name n : forall p st a,
  app (walk name p n st) = Some a ->
  app st = Some a \/ exists rest, a = p ++ rest /\ appAt n rest.
Proof.
  induction n as [g d m | g d m b IH | ns IH | i ms | t cs IH] using TSNode_induction;
    intros p st a H.
  - rewrite walk_module in H. cbv zeta in H. destruct (isApp m) eqn:Hm; [| left; exact H].
    injection H as <-. right. exists []. rewrite app_nil_r. split; [reflexivity |].
    exists g, d, m, None. split; [reflexivity | exact Hm].
  - rewrite walk_module in H. cbv zeta in H.
    destruct (IH _ _ _ H) as [H' | [rest [Ha [g' [d' [m' [b' [Hc Hm']]]]]]]].
    + destruct (isApp m) eqn:Hm; [| left; exact H'].
      injection H' as <-. right. exists []. rewrite app_nil_r. split; [reflexivity |].
      exists g, d, m, (Some b). split; [reflexivity | exact Hm].
    + right. exists (0 :: rest). split; [rewrite Ha, <- app_assoc; reflexivity |].
      exists g', d', m', b'. split; [exact Hc | exact Hm'].
  - rewrite walk_block in H.
    destruct (walkList_found app appAt name p ns IH _ _ _ H)
      as [H' | [j [c [rest [Hj [Ha Hg]]]]]]; [left; exact H' | right].
    exists (j :: rest). split; [exact Ha |].
    destruct Hg as [g' [d' [m' [b' [Hc Hm']]]]]. exists g', d', m', b'.
    split; [| exact Hm']. cbn [childAt]. rewrite Hj. exact Hc.
  - rewrite walk_interface in H. destruct (String.eqb i name); left; exact H.
  - rewrite walk_other in H.
    destruct (walkList_found app appAt name p cs IH _ _ _ H)
      as [H' | [j [c [rest [Hj [Ha Hg]]]]]]; [left; exact H' | right].
    exists (j :: rest). split; [exact Ha |].
    destruct Hg as [g' [d' [m' [b' [Hc Hm']]]]]. exists g', d', m', b'.
    split; [| exact Hm']. cbn [childAt]. rewrite Hj. exact Hc.
Qed.

Lemma walk_interface_valid name n : forall p st a,
  interfaceNode (walk name p n st) = Some a ->
  interfaceNode st = Some a \/ exists rest, a = p ++ rest /\ interfaceAt name n rest.
Proof.
  induction n as [g d m | g d m b IH | ns IH | i ms | t cs IH] using TSNode_induction;
    intros p st a H.
  - rewrite walk_module in H. cbv zeta in H. left. destruct (isApp m); exact H.
  - rewrite walk_module in H. cbv zeta in H.
    destruct (IH _ _ _ H) as [H' | [rest [Ha [ms Hc]]]].
    + left. destruct (isApp m); exact H'.
    + right. exists (0 :: rest). split; [rewrite Ha, <- app_assoc; reflexivity |].
      exists ms. exact Hc.
  - rewrite walk_block in H.
    destruct (walkList_found interfaceNode (interfaceAt name) name p ns IH _ _ _ H)
      as [H' | [j [c [rest [Hj [Ha [ms Hc]]]]]]]; [left; exact H' | right].
    exists (j :: rest). split; [exact Ha |]. exists ms. cbn [childAt]. rewrite Hj. exact Hc.
  - rewrite walk_interface in H. destruct (String.eqb i name) eqn:Hi; [| left; exact H].
    injection H as <-. right. exists []. rewrite app_nil_r. split; [reflexivity |].
    apply String.eqb_eq in Hi. subst i. exists ms. reflexivity.
  - rewrite walk_other in H.
    destruct (walkList_found interfaceNode (interfaceAt name) name p cs IH _ _ _ H)
      as [H' | [j [c [rest [Hj [Ha [ms Hc]]]]]]]; [left; exact H' | right].
    exists (j :: rest). split; [exact Ha |]. exists ms. cbn [childAt]. rewrite Hj. exact Hc.
Qed.




(** ** [addGlobalAppInterface]: nothing is removed *)








(** ** [addGlobalAppInterface]: counting interfaces *)

Lemma list_sum_alter (f : TSNode -> nat) (g : TSNode -> TSNode) ns i c k :
  ns !! i = Some c -> f (g c) = f c + k ->
  list_sum (map f (alter g i ns)) = list_sum (map f ns) + k.
Proof.
  intros Hc Hk. destruct (alter_split g ns i c Hc) as [pre [post [E1 [_ E3]]]].
  rewrite E3. subst ns. rewrite !map_app, !list_sum_app. simpl. lia.
Qed.

Lemma countInterfaces_pushChild name new rest : forall n g d m ns,
  childAt rest n = Some (TSModuleDeclaration g d m (Some (TSModuleBlock ns))) ->
  countInterfaces name (pushChild rest new n)
  = countInterfaces name n + countInterfaces name new.
Proof.
  induction rest as [| i rest IH]; intros n g d m ns H.
  - cbn [childAt] in H. injection H as ->. cbn [pushChild countInterfaces].
    rewrite map_app, list_sum_app. simpl. lia.
  - cbn [childAt] in H.
    destruct n as [g' d' m' [b|] | ns' | i0 ms | t cs]; try discriminate.
    + destruct i; [| discriminate]. cbn [pushChild countInterfaces]. eapply IH. exact H.
    + destruct (ns' !! i) as [c|] eqn:Hc; [| discriminate]. simpl in H.
      cbn [pushChild countInterfaces]. eapply list_sum_alter; [exact Hc |].
      eapply IH. exact H.
    + destruct (cs !! i) as [c|] eqn:Hc; [| discriminate]. simpl in H.
      cbn [pushChild countInterfaces]. eapply list_sum_alter; [exact Hc |].
      eapply IH. exact H.
Qed.

Lemma interfacesNamed_pushInto name new (ast : list TSNode) p g d m ns :
  nodeAt ast p = Some (TSModuleDeclaration g d m (Some (TSModuleBlock ns))) ->
  interfacesNamed name (pushInto p new ast)
  = interfacesNamed name ast + countInterfaces (nameString name) new.
Proof.
  destruct p as [| i rest]; [discriminate |]. unfold nodeAt, pushInto, interfacesNamed.
  destruct (ast !! i) as [c|] eqn:Hc; [| discriminate]. simpl. intros H.
  eapply list_sum_alter; [exact Hc |]. eapply countInterfaces_pushChild. exact H.
Qed.

(** ** [addGlobalAppInterface]: finding the [declare global] block again *)




Lemma findGlobalDecl_lookup (ast : list TSNode) g :
  findGlobalDecl 0 ast = Some g -> exists n, ast !! g = Some n /\ isGlobalDecl n = true.
Proof.
  intros H. destruct (findGlobalDecl_Some _ _ _ H) as [n [H1 [H2 _]]].
  rewrite Nat.sub_0_r in H1. exists n. split; assumption.
Qed.


(** ** C8: calling twice *)


Lemma nodeAt_cons (ast : list TSNode) g rest gd :
  ast !! g = Some gd -> nodeAt ast (g :: rest) = childAt rest gd.
Proof. intros H. unfold nodeAt. rewrite H. reflexivity. Qed.

Lemma countInterfaces_le_total name (ast : list TSNode) g gd :
  ast !! g = Some gd -> countInterfaces (nameString name) gd <= interfacesNamed name ast.
Proof.
  unfold interfacesNamed. revert g. induction ast as [| n ast IH]; intros g H; [discriminate |].
  destruct g as [| g]; simpl in *.
  - injection H as ->. lia.
  - specialize (IH g H). lia.
Qed.






Lemma found_interface_is_interface ast name g gd i0 :
  ast !! g = Some gd ->
  interfaceNode (walk (nameString name) [g] gd nothingSeen) = Some i0 ->
  (exists ms, nodeAt ast i0 = Some (TSInterfaceDeclaration (nameString name) ms))
  /\ 0 < interfacesNamed name ast.
Proof.
  intros Hgd Hi. split.
  - destruct (walk_interface_valid _ _ _ _ _ Hi) as [H | [rest [-> [ms Hc]]]];
      [discriminate H |].
    exists ms. change ([g] ++ rest) with (g :: rest).
    rewrite (nodeAt_cons _ _ _ _ Hgd). exact Hc.
  - destruct (interfacesNamed name ast) eqn:E; [exfalso | lia].
    pose proof (countInterfaces_le_total name ast g gd Hgd) as Hle.
    rewrite walk_no_interface in Hi by lia. discriminate Hi.
Qed.






(** ** The parser's object graph is a tree *)

Lemma NoDup_insert_middle (x : nat) l1 l2 :
  List.NoDup (l1 ++ l2) -> ~ In x (l1 ++ l2) -> List.NoDup (l1 ++ x :: l2).
Proof.
  intros Hnd Hx. eapply Permutation_NoDup; [apply Permutation_middle |].
  constructor; assumption.
Qed.

Lemma omap_ext_in {A B} (f g : A -> option B) (l : list A) :
  (forall x, In x l -> f x = g x) -> omap f l = omap g l.
Proof.
  induction l as [| x l IH]; intros H; [reflexivity |].
  cbn [omap list_omap]. rewrite (H x) by (left; reflexivity).
  rewrite IH by (intros y Hy; apply H; right; exact Hy). reflexivity.
Qed.

Lemma in_omap {A B} (f : A -> option B) (l : list A) y :
  In y (omap f l) <-> exists x, In x l /\ f x = Some y.
Proof.
  rewrite <- list_elem_of_In, list_elem_of_omap. split.
  - intros [x [H1 H2]]. exists x. split; [apply list_elem_of_In; exact H1 | exact H2].
  - intros [x [H1 H2]]. exists x. split; [apply list_elem_of_In; exact H1 | exact H2].
Qed.

Lemma allocStatement_nested_ne s h d :
  declarationOf (snd (allocStatement s h) !! fst (allocStatement s h)) = Some d ->
  d <> fst (allocStatement s h).
Proof.
  destruct s as [src sp k | d0 | [d0|] sp | e | k c]; simpl;
    try (rewrite lookup_alloc_new; discriminate).
  rewrite (lookup_fresh h _ _ 1) by lia. simpl. intros [= <-]. lia.
Qed.

Lemma loadFrom_NoDup p : forall h,
  List.NoDup (snd (loadFrom h p)
              ++ omap (fun l => declarationOf (fst (loadFrom h p) !! l))
                   (snd (loadFrom h p))).
Proof.
  induction p as [| s p IH]; intros h; [constructor |].
  simpl.
  destruct (allocStatement_spec s h) as [e1 [H1 [H2 [H3 _]]]].
  pose proof (allocStatement_nested_ne s h) as Hne.
  destruct (allocStatement s h) as [l0 h1] eqn:Ha. simpl in H1, H2, H3, Hne. subst h1.
  specialize (IH (h ++ e1)).
  destruct (loadFrom_spec p (h ++ e1)) as [e2 [G1 [_ G3]]].
  destruct (loadFrom (h ++ e1) p) as [h2 ls] eqn:Hl. simpl in G1, G3, IH. subst h2.
  cbn [fst snd].
  assert (Hl0 : ((h ++ e1) ++ e2) !! l0 = (h ++ e1) !! l0) by (apply lookup_app_l; lia).
  assert (Hfresh : forall r,
            In r (ls ++ omap (fun l => declarationOf (((h ++ e1) ++ e2) !! l)) ls) ->
            length (h ++ e1) <= r).
  { intros r Hr. apply in_app_or in Hr as [Hr | Hr].
    - apply G3 in Hr. lia.
    - apply in_omap in Hr as [l [Hin Hd]]. destruct (G3 l Hin) as [_ K]. apply K in Hd. lia. }
  cbn [omap list_omap]. rewrite Hl0.
  destruct (declarationOf ((h ++ e1) !! l0)) as [d0|] eqn:Hd0.
  - constructor.
    + intros Hin. apply in_app_or in Hin as [Hin | [Hin | Hin]].
      * apply G3 in Hin. lia.
      * apply (Hne d0); [reflexivity | exact Hin].
      * assert (length (h ++ e1) <= l0) by (apply Hfresh; apply in_or_app; right; exact Hin).
        lia.
    + apply NoDup_insert_middle; [exact IH |].
      intros Hin. apply Hfresh in Hin. specialize (H3 d0 eq_refl). lia.
  - constructor; [| exact IH].
    intros Hin. apply Hfresh in Hin. lia.
Qed.

Lemma treeShaped_load p : treeShaped (load p).
Proof.
  split; [| split; [apply closed_load | apply declarationsOk_load]].
  unfold references, load. pose proof (loadFrom_NoDup p []) as H.
  destruct (loadFrom [] p) as [h ls]. exact H.
Qed.

Lemma treeShaped_addNamed a src imported local isType :
  treeShaped a -> treeShaped (imports.addNamed a src imported local isType).
Proof.
  intros [Hnd [Hc Hok]].
  split; [| split; [apply closed_addNamed; exact Hc | apply declarationsOk_addNamed; exact Hok]].
  unfold imports.addNamed.
  destruct (imports.lastImportFrom a src) as [i|].
  - destruct (heap a !! i) as [[s sp t | | | |]|] eqn:Hi; try exact Hnd.
    destruct (existsb _ sp); [exact Hnd |].
    unfold references, mutate in *. cbn [heap body].
    rewrite (omap_ext_in _ (fun l => declarationOf (heap a !! l))); [exact Hnd |].
    intros x _. destruct (decide (i = x)) as [<- | Hne].
    + rewrite list_lookup_alter_eq, Hi. reflexivity.
    + rewrite list_lookup_alter_ne by exact Hne. reflexivity.
  - unfold references, alloc, unshift in *. cbn [heap body fst snd].
    cbn [omap list_omap]. rewrite lookup_alloc_new. cbn [declarationOf].
    rewrite (omap_ext_in _ (fun l => declarationOf (heap a !! l))).
    + constructor; [| exact Hnd].
      intros Hin. unfold closed, references in Hc.
      rewrite List.Forall_forall in Hc. apply Hc in Hin. lia.
    + intros x Hx. apply closed_alt in Hx as [Hx _]; [| exact Hc].
      rewrite lookup_alloc_old by exact Hx. reflexivity.
Qed.

Lemma treeShaped_addHandleType a ts : treeShaped a -> treeShaped (addHandleType a ts).
Proof. destruct ts; [apply treeShaped_addNamed | auto]. Qed.

(** In a tree-shaped store the body has no repeated statement, and the inline
    declaration of one export is neither a statement of the body nor the
    inline declaration of another export. *)
Lemma treeShaped_body a : treeShaped a -> List.NoDup (body a).
Proof. intros [H _]. eapply NoDup_app_remove_r. exact H. Qed.

Lemma NoDup_app_disjoint (l1 l2 : list nat) x :
  List.NoDup (l1 ++ l2) -> In x l1 -> In x l2 -> False.
Proof.
  induction l1 as [| a l1 IH]; intros H H1 H2; [destruct H1 |].
  simpl in H. inversion H as [| ? ? Hna Hnd]; subst.
  destruct H1 as [-> | H1].
  - apply Hna. apply in_or_app. right. exact H2.
  - apply IH; assumption.
Qed.

Lemma NoDup_omap_injective {A} (f : A -> option nat) (l : list A) x y d :
  List.NoDup l -> List.NoDup (omap f l) -> In x l -> In y l ->
  f x = Some d -> f y = Some d -> x = y.
Proof.
  induction l as [| a l IH]; intros Hl Ho Hx Hy Fx Fy; [destruct Hx |].
  inversion Hl as [| ? ? Hal Hl']; subst.
  cbn [omap list_omap] in Ho.
  destruct Hx as [-> | Hx], Hy as [-> | Hy]; try reflexivity.
  - rewrite Fx in Ho. inversion Ho as [| ? ? Hnd _]; subst.
    exfalso. apply Hnd. apply in_omap. exists y. split; assumption.
  - rewrite Fy in Ho. inversion Ho as [| ? ? Hnd _]; subst.
    exfalso. apply Hnd. apply in_omap. exists x. split; assumption.
  - apply IH; try assumption.
    destruct (f a); [inversion Ho; assumption | exact Ho].
Qed.

Lemma treeShaped_nested_not_body a l d :
  treeShaped a -> In l (body a) -> declarationOf (heap a !! l) = Some d ->
  ~ In d (body a).
Proof.
  intros [H _] Hl Hd Hin. unfold references in H.
  apply (NoDup_app_disjoint _ _ d H Hin).
  apply in_omap. exists l. split; assumption.
Qed.

Lemma treeShaped_nested_injective a l l' d :
  treeShaped a -> In l (body a) -> In l' (body a) ->
  declarationOf (heap a !! l) = Some d -> declarationOf (heap a !! l') = Some d ->
  l = l'.
Proof.
  intros Ht Hl Hl' Hd Hd'.
  eapply (NoDup_omap_injective (fun l => declarationOf (heap a !! l)) (body a));
    try eassumption.
  - apply treeShaped_body. exact Ht.
  - destruct Ht as [H _]. eapply NoDup_app_remove_l. exact H.
Qed.

(** ** Where the finding comes from *)

Lemma find_some_existsb {A} (p : A -> bool) (l : list A) x :
  List.find p l = Some x -> existsb p l = true.
Proof.
  intros H. apply find_some in H as [H1 H2]. apply existsb_exists. exists x. auto.
Qed.

Lemma visitExport_findingOrigin ast st node :
  In node (body ast) ->
  findingOrigin ast st -> findingOrigin ast (visitExport ast st node).
Proof.
  intros Hin [H1 [H2 H3]]. unfold visitExport.
  destruct (heap ast !! node) as [[| | d sp | |]|] eqn:Hnode;
    try (split; [exact H1 | split; [exact H2 | exact H3]]).
  unfold resolveExport.
  destruct (List.find _ sp) as [s|] eqn:Hfind.
  - assert (Hspec : exists s' d' sp', In s' (body ast)
                      /\ heap ast !! s' = Some (NExport d' sp')
                      /\ hasHandleSpecifier sp' = true).
    { exists node, d, sp. split; [exact Hin | split; [exact Hnode |]].
      eapply find_some_existsb. exact Hfind. }
    set (name := localName s).
    set (handleFunc := List.find (fun n => isFunctionDeclaration (heap ast !! n) name) (body ast)).
    set (handleVar := List.find (fun n => isVariableDeclaration (heap ast !! n) name) (body ast)).
    set (maybe := match match handleFunc with Some f => Some f | None => handleVar end with
                  | Some d0 => Some d0 | None => d end).
    assert (Hmaybe : forall o, maybe = Some o -> In o (body ast) \/ d = Some o).
    { intros o Ho. unfold maybe in Ho.
      destruct handleFunc as [f|] eqn:Hf.
      - injection Ho as <-. left. unfold handleFunc in Hf. apply find_some in Hf. tauto.
      - destruct handleVar as [v|] eqn:Hv.
        + injection Ho as <-. left. unfold handleVar in Hv. apply find_some in Hv. tauto.
        + right. exact Ho. }
    destruct (declaresHandle ast maybe name) eqn:Hdecl.
    + destruct maybe as [o|] eqn:Hm; [| discriminate Hdecl].
      split; [| split]; cbn.
      * split; discriminate.
      * intros o' x [= <-] [= <-]. rewrite Hnode. cbn. apply Hmaybe. reflexivity.
      * intros _. exact Hspec.
    + split; [exact H1 | split; [exact H2 | intros _; exact Hspec]].
  - destruct d as [o|]; [| cbn; split; [exact H1 | split; [exact H2 | exact H3]]].
    destruct (declaresHandle ast (Some o) (handleName st)) eqn:Hdecl.
    + split; [| split]; cbn.
      * split; discriminate.
      * intros o' x [= <-] [= <-]. right. rewrite Hnode. reflexivity.
      * exact H3.
    + split; [exact H1 | split; [exact H2 | exact H3]].
Qed.

Lemma locate_findingOrigin ast : findingOrigin ast (locate ast).
Proof.
  unfold locate.
  assert (H0 : findingOrigin ast noFinding).
  { split; [| split]; cbn; [tauto | discriminate | discriminate]. }
  assert (H : forall b st, (forall y, In y b -> In y (body ast)) ->
                findingOrigin ast st ->
                findingOrigin ast (fold_left (visitExport ast) b st)).
  { induction b as [| l b IH]; intros st Hb Hst; [exact Hst |].
    simpl. apply IH.
    - intros y Hy. apply Hb. right. exact Hy.
    - apply visitExport_findingOrigin; [apply Hb; left; reflexivity | exact Hst]. }
  apply H; [auto | exact H0].
Qed.

(** ** C3: exports of [handle] before and after *)

Lemma keep_self_o o x l0 : keep o x l0 o = false.
Proof. unfold keep. rewrite Nat.eqb_refl. reflexivity. Qed.

Lemma keep_self_x o x l0 : keep o x l0 x = false.
Proof. unfold keep. rewrite Nat.eqb_refl. apply andb_false_iff. left. apply andb_false_r. Qed.

Lemma keep_self_l o x l0 : keep o x l0 l0 = false.
Proof. unfold keep. rewrite Nat.eqb_refl. apply andb_false_r. Qed.

Lemma keep_other o x l0 l : l <> o -> l <> x -> l <> l0 -> keep o x l0 l = true.
Proof.
  intros H1 H2 H3. unfold keep.
  destruct (Nat.eqb_spec l o), (Nat.eqb_spec l x), (Nat.eqb_spec l l0); try contradiction.
  reflexivity.
Qed.

Lemma sameKind_import n n' :
  sameKind n n' = true -> isImportNode n = true -> isImportNode n' = true.
Proof. destruct n, n'; simpl; try discriminate; auto. Qed.

Lemma body_addNamed_cases a src imported local isType :
  body (imports.addNamed a src imported local isType) = body a
  \/ (body (imports.addNamed a src imported local isType) = length (heap a) :: body a
      /\ exists n, heap (imports.addNamed a src imported local isType) !! length (heap a)
                   = Some n /\ isImportNode n = true).
Proof.
  unfold imports.addNamed.
  destruct (imports.lastImportFrom a src) as [l|].
  - left. destruct (heap a !! l) as [[s sp t | | | |]|]; try reflexivity.
    destruct (existsb _ sp); reflexivity.
  - right. split; [reflexivity |]. eexists. split; [apply lookup_alloc_new | reflexivity].
Qed.

(** Lines 141-204, up to the point where the declarations are re-appended. *)
Lemma mergeHandle_shape a ts isSpec name o x nm e :
  (exists d, heap a !! o = Some (NDeclaration d)) ->
  (exists d sp, heap a !! x = Some (NExport d sp)) ->
  exists a7 rr nhd pre,
    mergeHandle a ts isSpec name o x nm e
    = reappend a7 ts isSpec name o x (length (heap a)) nhd nm rr
    /\ evolves (Some o) a a7
    /\ heap a7 !! length (heap a)
       = Some (NDeclaration (annotated ts (variables.declaration "const" nm e)))
    /\ heap a7 !! nhd
       = Some (NDeclaration
                 (variables.declaration "const" name
                    (functions.callByIdentifier "sequence" [NEW_HANDLE_NAME; nm])))
    /\ length (heap a) < nhd
    /\ List.filter (keep o x (length (heap a))) (body a7)
       = pre ++ List.filter (keep o x (length (heap a))) (body a)
    /\ (forall l, In l pre -> exists n, heap a7 !! l = Some n /\ isImportNode n = true)
    /\ (isVariableDeclaration (heap a !! o) name
        || isFunctionDeclaration (heap a !! o) name = true ->
        rr = true \/ isVariableDeclaration (heap a7 !! o) name = true).
Proof.
  intros [od Ho] [xd [xsp Hx]]. rewrite mergeHandle_unfold.
  set (n0 := NDeclaration (annotated ts (variables.declaration "const" nm e))).
  set (a2 := snd (alloc n0 a)).
  set (a3 := appendToSequence a2 isSpec name o x (length (heap a)) nm).
  set (n1 := NDeclaration _).
  set (a4 := snd (alloc n1 a3)).
  set (a5 := imports.addNamed a4 HOOKS "sequence" "sequence" false).
  set (p1 := renameVariable a5 name o).
  set (p2 := renameFunctionDecl (snd p1) name o (fst p1)).
  cbv zeta.
  assert (E2 : evolves (Some o) a a2) by (apply evolves_alloc; reflexivity).
  assert (E23 : evolves (Some o) a2 a3) by apply evolves_appendToSequence.
  assert (E34 : evolves (Some o) a3 a4) by (apply evolves_alloc; reflexivity).
  assert (E45 : evolves (Some o) a4 a5) by apply evolves_weaken, evolves_addNamed_hooks.
  assert (E56 : evolves (Some o) a5 (snd p1)) by apply evolves_renameVariable.
  assert (E67 : evolves (Some o) (snd p1) (snd p2)) by apply evolves_renameFunctionDecl.
  assert (E57 : evolves (Some o) a5 (snd p2)) by (eapply evolves_trans; eassumption).
  assert (E47 : evolves (Some o) a4 (snd p2)) by (eapply evolves_trans; eassumption).
  assert (E27 : evolves (Some o) a2 (snd p2)).
  { eapply evolves_trans; [exact E23 |]. eapply evolves_trans; [exact E34 | exact E47]. }
  assert (Hlt : o < length (heap a)) by (eapply lookup_lt_Some; exact Ho).
  assert (Hxlt : x < length (heap a)) by (eapply lookup_lt_Some; exact Hx).
  assert (L2 : length (heap a) < length (heap a2)).
  { unfold a2, alloc. cbn [snd heap]. rewrite length_app. simpl. lia. }
  assert (L3 : length (heap a2) <= length (heap a3)) by (eapply evolves_length; exact E23).
  assert (B7 : body (snd p2) = body a5).
  { unfold p2. rewrite (proj2 (evolves_renameFunctionDecl _ _ _ _)).
    unfold p1. apply evolves_renameVariable. }
  exists (snd p2), (fst p2), (length (heap a3)).
  assert (B3 : List.filter (keep o x (length (heap a))) (body a3)
               = List.filter (keep o x (length (heap a))) (body a)).
  { unfold a3. rewrite body_appendToSequence;
      [reflexivity | apply keep_self_o | apply keep_self_x | apply keep_self_l]. }
  assert (Hpre : exists pre,
    List.filter (keep o x (length (heap a))) (body a5)
    = pre ++ List.filter (keep o x (length (heap a))) (body a)
    /\ forall l, In l pre -> exists n, heap a5 !! l = Some n /\ isImportNode n = true).
  { destruct (body_addNamed_cases a4 HOOKS "sequence" "sequence" false)
      as [Hb | [Hb [n [Hn Hi]]]]; fold a5 in Hb.
    - exists []. rewrite Hb. split; [exact B3 | intros l []].
    - fold a5 in Hn. exists [length (heap a4)]. rewrite Hb. cbn [List.filter].
      assert (L4 : length (heap a3) < length (heap a4)).
      { unfold a4, alloc. cbn [snd heap]. rewrite length_app. simpl. lia. }
      rewrite keep_other by lia. split.
      + cbn [app]. f_equal. exact B3.
      + intros l [<- | []]. exists n. split; assumption. }
  destruct Hpre as [pre [Hpre1 Hpre2]].
  exists pre. split; [reflexivity |]. split.
  { eapply evolves_trans; [exact E2 | exact E27]. }
  split.
  { eapply ev_same; [exact E27 | | | reflexivity].
    - unfold a2, alloc. cbn [snd heap]. apply lookup_alloc_new.
    - intros [= ->]. lia. }
  split.
  { eapply ev_same; [exact E47 | | | reflexivity].
    - unfold a4, alloc. cbn [snd heap]. apply lookup_alloc_new.
    - intros [= Heq]. lia. }
  split; [lia |]. split; [rewrite B7; exact Hpre1 |]. split.
  { intros l Hl. destruct (Hpre2 l Hl) as [n [Hn Hi]].
    destruct (ev_kind _ _ _ E57 _ _ Hn) as [n' [Hn' K]].
    exists n'. split; [exact Hn' | eapply sameKind_import; eassumption]. }
  intros Hdecl. apply rename_outcome.
  assert (H5 : heap a5 !! o = heap a3 !! o).
  { destruct (ev_kind _ _ _ E2 _ _ Ho) as [n2 [H2 K2]].
    destruct (ev_kind _ _ _ E23 _ _ H2) as [n3 [H3 K3]].
    assert (K : sameKind (NDeclaration od) n3 = true)
      by (eapply sameKind_trans; eassumption).
    rewrite H3.
    eapply ev_same; [apply evolves_addNamed_hooks | | discriminate |].
    + unfold a4, alloc. cbn [snd heap]. apply lookup_alloc_Some. exact H3.
    + destruct n3; try discriminate K. reflexivity. }
  rewrite H5. unfold a3. rewrite appendToSequence_declares.
  unfold a2, alloc. cbn [snd heap]. rewrite lookup_alloc_old by exact Hlt.
  exact Hdecl.
Qed.

Lemma reappend_specifier a ts name o x l0 nhd nm rr :
  declarationOf (heap a !! x) = None ->
  reappend a ts true name o x l0 nhd nm rr
  = mkAst (heap a) (List.filter (keep o x l0) (body a) ++ [o; l0; nhd; x]).
Proof.
  intros Hd. unfold reappend, setBody, push. cbn [heap body]. rewrite Hd. reflexivity.
Qed.

Lemma reappend_renamed a ts name o x l0 nhd nm d :
  declarationOf (heap a !! x) = Some d ->
  reappend a ts false name o x l0 nhd nm true
  = mkAst (heap a ++ [NExport (Some nhd) []])
      (List.filter (keep o x l0) (body a) ++ [d; l0; length (heap a)]).
Proof.
  intros Hd. unfold reappend, setBody, push, exports.namedExport, alloc. cbn [heap body].
  rewrite Hd. cbn [heap body]. unfold push. cbn [heap body].
  rewrite <- app_assoc. reflexivity.
Qed.

Lemma count_print a :
  countHandleExports (print a)
  = length (List.filter (fun l => exportsHandle (printStatement (heap a) l)) (body a)).
Proof.
  unfold countHandleExports, print. induction (body a) as [| l b IH]; [reflexivity |].
  simpl. destruct (exportsHandle (printStatement (heap a) l)); simpl; rewrite IH; reflexivity.
Qed.

Lemma count_filter_keep_absent (Q : nat -> bool) b o x l0 :
  Q o = false -> ~ In x b -> ~ In l0 b ->
  List.filter Q (List.filter (keep o x l0) b) = List.filter Q b.
Proof.
  intros Ho Hx Hl. induction b as [| l b IH]; [reflexivity |].
  simpl. assert (l <> x) by (intros ->; apply Hx; left; reflexivity).
  assert (l <> l0) by (intros ->; apply Hl; left; reflexivity).
  assert (IH' : List.filter Q (List.filter (keep o x l0) b) = List.filter Q b).
  { apply IH; intros Hin; [apply Hx | apply Hl]; right; exact Hin. }
  destruct (Nat.eq_dec l o) as [-> | Hne].
  - rewrite keep_self_o, Ho. exact IH'.
  - rewrite keep_other by assumption. simpl. rewrite IH'. reflexivity.
Qed.

Lemma count_filter_keep (Q : nat -> bool) b o x l0 :
  List.NoDup b -> In x b -> Q o = false -> ~ In l0 b ->
  length (List.filter Q (List.filter (keep o x l0) b)) + (if Q x then 1 else 0)
  = length (List.filter Q b).
Proof.
  intros Hnd Hx Ho Hl. induction b as [| l b IH]; [destruct Hx |].
  inversion Hnd as [| ? ? Hnl Hnd']; subst.
  assert (Hl' : ~ In l0 b) by (intros Hin; apply Hl; right; exact Hin).
  assert (l <> l0) by (intros ->; apply Hl; left; reflexivity).
  simpl. destruct Hx as [-> | Hx].
  - rewrite keep_self_x. rewrite count_filter_keep_absent by assumption.
    destruct (Q x); simpl; lia.
  - assert (l <> x) by (intros ->; contradiction).
    specialize (IH Hnd' Hx Hl').
    destruct (Nat.eq_dec l o) as [-> | Hne].
    + rewrite keep_self_o, Ho. exact IH.
    + rewrite keep_other by assumption. simpl. destruct (Q l); simpl; lia.
Qed.

Lemma one_counted (Q : nat -> bool) b y :
  In y b -> Q y = true -> 1 <= length (List.filter Q b).
Proof.
  induction b as [| l b IH]; intros Hy Qy; [destruct Hy |].
  simpl. destruct Hy as [-> | Hy].
  - rewrite Qy. simpl. lia.
  - specialize (IH Hy Qy). destruct (Q l); simpl; lia.
Qed.

Lemma two_counted (Q : nat -> bool) b s x :
  In s b -> In x b -> s <> x -> Q s = true -> Q x = true ->
  2 <= length (List.filter Q b).
Proof.
  intros Hs Hx Hne Qs Qx.
  induction b as [| l b IH]; [destruct Hs |]. simpl.
  destruct Hs as [-> | Hs], Hx as [-> | Hx]; try contradiction.
  - rewrite Qs. simpl. pose proof (one_counted Q b x Hx Qx). lia.
  - rewrite Qx. simpl. pose proof (one_counted Q b s Hs Qs). lia.
  - specialize (IH Hs Hx). destruct (Q l); simpl; lia.
Qed.

(** A statement untouched by the merge prints as before. *)
Lemma printStatement_frame a r o l :
  evolves (Some o) a r ->
  l < length (heap a) -> l <> o ->
  (forall d, declarationOf (heap a !! l) = Some d ->
     d <> o /\ exists decl, heap a !! d = Some (NDeclaration decl)) ->
  exportsHandle (printStatement (heap r) l) = exportsHandle (printStatement (heap a) l).
Proof.
  intros E Hl Hlo Hd.
  destruct (lookup_lt_is_Some_2 _ _ Hl) as [n Hn].
  destruct (isFrom HOOKS n) eqn:Hh.
  - destruct (ev_kind _ _ _ E _ _ Hn) as [n' [Hn' K]].
    unfold printStatement. rewrite Hn, Hn'.
    destruct n; try discriminate Hh. destruct n'; try discriminate K. reflexivity.
  - assert (Hn' : heap r !! l = Some n).
    { eapply ev_same; [exact E | exact Hn | congruence | exact Hh]. }
    unfold printStatement. rewrite Hn, Hn'.
    destruct n as [| | [d|] sp | |]; try reflexivity.
    destruct (Hd d) as [Hdo [decl Hdecl]]; [rewrite Hn; reflexivity |].
    assert (Hdecl' : heap r !! d = Some (NDeclaration decl)).
    { eapply ev_same; [exact E | exact Hdecl | congruence | reflexivity]. }
    unfold printDeclaration. cbn [fmap option_fmap option_map]. rewrite Hdecl, Hdecl'.
    reflexivity.
Qed.

Lemma exportsHandle_import h l n :
  h !! l = Some n -> isImportNode n = true ->
  exportsHandle (printStatement h l) = false.
Proof. intros H Hn. unfold printStatement. rewrite H. destruct n; try discriminate. reflexivity. Qed.

Lemma exportsHandle_declaration h l d :
  h !! l = Some (NDeclaration d) -> exportsHandle (printStatement h l) = false.
Proof. intros H. unfold printStatement. rewrite H. reflexivity. Qed.

Lemma filter_all_false (Q : nat -> bool) l :
  (forall y, In y l -> Q y = false) -> List.filter Q l = [].
Proof.
  induction l as [| y l IH]; intros H; [reflexivity |]. simpl.
  rewrite (H y) by (left; reflexivity). apply IH. intros z Hz. apply H. right. exact Hz.
Qed.

(** Counting over a body made of new imports, untouched statements and the
    re-appended tail. *)
Lemma count_assemble a r pre F tail :
  body r = pre ++ F ++ tail ->
  (forall l, In l pre -> exportsHandle (printStatement (heap r) l) = false) ->
  (forall l, In l F ->
     exportsHandle (printStatement (heap r) l) = exportsHandle (printStatement (heap a) l)) ->
  countHandleExports (print r)
  = length (List.filter (fun l => exportsHandle (printStatement (heap a) l)) F)
    + length (List.filter (fun l => exportsHandle (printStatement (heap r) l)) tail).
Proof.
  intros Hb Hpre HF. rewrite count_print, Hb, !List.filter_app, !length_app.
  rewrite (filter_all_false _ pre Hpre). simpl. f_equal. f_equal.
  apply filter_ext_in. exact HF.
Qed.

(** The untouched statements of the body print as before. *)
Lemma kept_statements_frame a r o x l0 (xd : option loc) xsp :
  treeShaped a -> evolves (Some o) a r ->
  heap a !! x = Some (NExport xd xsp) -> In x (body a) ->
  (In o (body a) \/ xd = Some o) ->
  forall l, In l (List.filter (keep o x l0) (body a)) ->
    exportsHandle (printStatement (heap r) l) = exportsHandle (printStatement (heap a) l).
Proof.
  intros T E Hx Hxb Horigin l Hl.
  apply List.filter_In in Hl. destruct Hl as [Hlb Hk].
  unfold keep in Hk. apply andb_prop in Hk. destruct Hk as [Hk _].
  apply andb_prop in Hk. destruct Hk as [Hlo Hlx].
  apply negb_true_iff, Nat.eqb_neq in Hlo. apply negb_true_iff, Nat.eqb_neq in Hlx.
  pose proof T as [_ [Hc Hd]].
  destruct (proj1 (closed_alt a) Hc l Hlb) as [Hlt _].
  apply (printStatement_frame a r o l E Hlt Hlo).
  intros d Hdl. split; [| exact (Hd l d Hlb Hdl)].
  intros ->. destruct Horigin as [Hob | ->].
  - exact (treeShaped_nested_not_body a l o T Hlb Hdl Hob).
  - apply Hlx. apply (treeShaped_nested_injective a l x o T Hlb Hxb Hdl).
    rewrite Hx. reflexivity.
Qed.

(** Promoting or appending keeps the number of exports of [handle]: the
    export found is taken out of the body and exactly one export of [handle]
    is appended in its place. *)
Lemma mergeHandle_count a ts isSpec name o x nm e od (xd : option loc) xsp :
  treeShaped a ->
  heap a !! o = Some (NDeclaration od) ->
  heap a !! x = Some (NExport xd xsp) ->
  In x (body a) ->
  exportsHandle (printStatement (heap a) x) = true ->
  ((isSpec = true /\ xd = None /\ In o (body a))
   \/ (isSpec = false /\ xd = Some o /\ name = "handle"
       /\ declaresHandle a (Some o) "handle" = true)) ->
  countHandleExports (print (mergeHandle a ts isSpec name o x nm e))
  = countHandleExports (print a).
Proof.
  intros T Ho Hx Hxb Qx Hcase.
  destruct (mergeHandle_shape a ts isSpec name o x nm e
              (ex_intro _ od Ho) (ex_intro _ xd (ex_intro _ xsp Hx)))
    as (a7 & rr & nhd & pre & Hm & E & Hl0 & Hnhd & Hlt & HF & Hpre & Hrr).
  set (l0 := length (heap a)) in *.
  set (Qa := fun l => exportsHandle (printStatement (heap a) l)).
  assert (Hxo : x <> o) by (intros ->; congruence).
  assert (Hx7 : heap a7 !! x = Some (NExport xd xsp)).
  { eapply ev_same; [exact E | exact Hx | congruence | reflexivity]. }
  assert (Horigin : In o (body a) \/ xd = Some o).
  { destruct Hcase as [(_ & _ & H) | (_ & H & _)]; [left | right]; exact H. }
  pose proof T as [_ [Hc _]].
  assert (Hl0b : ~ In l0 (body a)).
  { intros Hin. destruct (proj1 (closed_alt a) Hc l0 Hin) as [H _]. unfold l0 in H. lia. }
  assert (Qo : Qa o = false) by (apply (exportsHandle_declaration _ _ od Ho)).
  pose proof (count_filter_keep Qa (body a) o x l0 (treeShaped_body a T) Hxb Qo Hl0b) as Hcount.
  unfold Qa at 2 in Hcount. rewrite Qx in Hcount.
  rewrite (count_print a). fold Qa. rewrite <- Hcount. rewrite Hm.
  destruct (ev_kind _ _ _ E _ _ Ho) as [no7 [Ho7 Ko]].
  destruct no7 as [| od7 | | |]; try discriminate Ko.
  destruct Hcase as [(-> & -> & Hob) | (-> & -> & -> & Hdecl)].
  - (* the export is a specifier list *)
    rewrite (reappend_specifier a7) by (rewrite Hx7; reflexivity).
    rewrite (count_assemble a _ pre (List.filter (keep o x l0) (body a)) [o; l0; nhd; x]).
    + fold Qa. f_equal. cbn [heap List.filter].
      rewrite (exportsHandle_declaration _ _ _ Ho7), (exportsHandle_declaration _ _ _ Hl0),
        (exportsHandle_declaration _ _ _ Hnhd).
      unfold printStatement at 1. rewrite Hx7.
      unfold printStatement in Qx. rewrite Hx in Qx.
      cbn [fmap option_fmap option_map] in Qx |- *. rewrite Qx. reflexivity.
    + cbn [body]. rewrite HF, <- app_assoc. reflexivity.
    + cbn [heap]. intros l Hl. destruct (Hpre l Hl) as [n [Hn Hi]].
      exact (exportsHandle_import _ _ _ Hn Hi).
    + cbn [heap]. intros l Hl.
      apply (kept_statements_frame a (mkAst (heap a7) (body a)) o x l0 None xsp T); try assumption.
      destruct E as [E1 E2 E3]. constructor; cbn [heap]; assumption.
  - (* the export declares [handle] inline *)
    cbn [declaresHandle] in Hdecl. specialize (Hrr Hdecl).
    assert (Hd7 : declarationOf (heap a7 !! x) = Some o) by (rewrite Hx7; reflexivity).
    destruct rr.
    + rewrite (reappend_renamed a7 ts "handle" o x l0 nhd nm o Hd7).
      assert (E' : evolves (Some o) a
                     (mkAst (heap a7 ++ [NExport (Some nhd) []]) (body a))).
      { eapply evolves_trans; [exact E |]. eapply evolves_grow; [| reflexivity]. reflexivity. }
      rewrite (count_assemble a _ pre (List.filter (keep o x l0) (body a))
                 [o; l0; length (heap a7)]).
      * fold Qa. f_equal. cbn [heap List.filter].
        rewrite (exportsHandle_declaration _ o od7)
          by (apply lookup_app_l_Some; exact Ho7).
        rewrite (exportsHandle_declaration _ l0 _ (lookup_app_l_Some _ _ _ _ Hl0)).
        unfold printStatement at 1.
        rewrite (lookup_fresh (heap a7) [NExport (Some nhd) []] (length (heap a7)) 0)
          by lia.
        cbn [lookup list_lookup fmap option_fmap option_map].
        unfold printDeclaration. rewrite (lookup_app_l_Some _ _ _ _ Hnhd).
        reflexivity.
      * cbn [body]. rewrite HF, <- app_assoc. reflexivity.
      * cbn [heap]. intros l Hl. destruct (Hpre l Hl) as [n [Hn Hi]].
        exact (exportsHandle_import _ _ _ (lookup_app_l_Some _ _ _ _ Hn) Hi).
      * cbn [heap]. intros l Hl.
        apply (kept_statements_frame a _ o x l0 (Some o) xsp T E'); try assumption.
    + destruct Hrr as [Hrr | Hv]; [discriminate Hrr |].
      rewrite (reappend_passthrough a7 ts "handle" o x l0 nhd nm o Hd7 Hv).
      set (n1 := NDeclaration _).
      assert (E' : evolves (Some o) a
                     (mkAst (heap a7 ++ [n1; NExport (Some (length (heap a7))) []]) (body a))).
      { eapply evolves_trans; [exact E |].
        eapply evolves_trans.
        - eapply (evolves_grow _ n1 a7 (mkAst (heap a7 ++ [n1]) (body a7))); reflexivity.
        - eapply evolves_grow; [| cbn [heap]; rewrite <- app_assoc; reflexivity]. reflexivity. }
      rewrite (count_assemble a _ pre (List.filter (keep o x l0) (body a))
                 [l0; S (length (heap a7))]).
      * fold Qa. f_equal. cbn [heap List.filter].
        rewrite (exportsHandle_declaration _ l0 _ (lookup_app_l_Some _ _ _ _ Hl0)).
        unfold printStatement at 1.
        rewrite (lookup_fresh (heap a7) [n1; NExport (Some (length (heap a7))) []]
                   (S (length (heap a7))) 1) by lia.
        cbn [lookup list_lookup fmap option_fmap option_map].
        unfold printDeclaration.
        rewrite (lookup_fresh (heap a7) [n1; NExport (Some (length (heap a7))) []]
                   (length (heap a7)) 0) by lia.
        cbn [lookup list_lookup]. unfold n1. destruct ts; reflexivity.
      * cbn [body]. rewrite HF, <- app_assoc. reflexivity.
      * cbn [heap]. intros l Hl. destruct (Hpre l Hl) as [n [Hn Hi]].
        exact (exportsHandle_import _ _ _ (lookup_app_l_Some _ _ _ _ Hn) Hi).
      * cbn [heap]. intros l Hl.
        apply (kept_statements_frame a _ o x l0 (Some o) xsp T E'); try assumption.
Qed.

Lemma countHandleExports_addHandleType a ts :
  countHandleExports (print (addHandleType a ts)) = countHandleExports (print a).
Proof. destruct ts; [apply countHandleExports_addNamed | reflexivity]. Qed.

Lemma exportsHandle_specifier d sp :
  hasHandleSpecifier sp = true -> exportsHandle (ExportNamedDeclaration d sp) = true.
Proof. intros H. unfold exportsHandle. unfold hasHandleSpecifier in H. rewrite H. reflexivity. Qed.

Lemma bothFields_in p s :
  existsb bothFields p = false -> In s p -> bothFields s = false.
Proof.
  intros H Hs. destruct (bothFields s) eqn:Hb; [| reflexivity].
  assert (existsb bothFields p = true) by (apply existsb_exists; exists s; split; assumption).
  congruence.
Qed.



(** * [packages/ast-tooling/index.ts] *)

(** ** [guessIndentString] *)

Lemma string_length_append (s1 s2 : string) :
  String.length (s1 ++ s2) = String.length s1 + String.length s2.
Proof. induction s1 as [| c s1 IH]; simpl; [reflexivity | rewrite IH; reflexivity]. Qed.

Lemma padding_length n result :
  String.length (padding n result) = String.length result + n.
Proof.
  revert result. induction n as [| n IH]; intros result; simpl; [lia |].
  rewrite IH. rewrite string_length_append. simpl. lia.
Qed.

(** What a line does to the counters, by the kind of line. *)
Lemma tallyLine_spec t line :
  tallyLine t line
  = if uncounted line then t
    else match spaceIndent line with
         | Some w =>
             mkTally (tabs t) (spaces t + 1)
               (if Nat.ltb 1 w && Nat.ltb w (minSpaces t) then w else minSpaces t)
         | None => mkTally (tabs t + 1) (spaces t) (minSpaces t)
         end.
Proof.
  unfold tallyLine, uncounted, spaceIndent, execLeadingWhitespace.
  destruct line as [| c rest]; [reflexivity |].
  destruct (Ascii.eqb c space) eqn:Hs.
  - apply Ascii.eqb_eq in Hs. subst c.
    destruct (Nat.eqb _ _); [reflexivity |].
    cbn [leadingRun]. rewrite Ascii.eqb_refl.
    reflexivity.
  - destruct (Ascii.eqb c tab) eqn:Ht; [| reflexivity].
    apply Ascii.eqb_eq in Ht. subst c.
    destruct (Nat.eqb _ _); [reflexivity |].
    cbn [leadingRun]. rewrite Ascii.eqb_refl.
    reflexivity.
Qed.

Lemma guessIndentString_unfold str :
  guessIndentString str
  = let t := fold_left tallyLine (split_lines str) (mkTally 0 0 8) in
    if Nat.ltb (tabs t) (spaces t) then Some (minSpaces t) else None.
Proof.
  unfold guessIndentString. cbv zeta. rewrite padding_length. reflexivity.
Qed.

Lemma tallyLine_range t line :
  2 <= minSpaces t <= 8 -> 2 <= minSpaces (tallyLine t line) <= 8.
Proof.
  intros H. rewrite tallyLine_spec.
  destruct (uncounted line); [exact H |].
  destruct (spaceIndent line) as [w |]; cbn [minSpaces]; [| exact H].
  destruct (Nat.ltb 1 w) eqn:H1; destruct (Nat.ltb w (minSpaces t)) eqn:H2;
    cbn [andb]; try exact H.
  apply Nat.ltb_lt in H1, H2. lia.
Qed.

Lemma fold_tally_range lines t :
  2 <= minSpaces t <= 8 -> 2 <= minSpaces (fold_left tallyLine lines t) <= 8.
Proof.
  revert t. induction lines as [| line lines IH]; intros t H; [exact H |].
  simpl. apply IH, tallyLine_range, H.
Qed.

(** X1.  Whatever the text, a guessed indentation is between 2 and 8
    columns. *)
Theorem guessIndentString_range str n :
  guessIndentString str = Some n -> 2 <= n <= 8.
Proof.
  rewrite guessIndentString_unfold. cbv zeta.
  destruct (Nat.ltb _ _); [| discriminate].
  intros [= <-]. apply fold_tally_range. cbn. lia.
Qed.

Lemma guessIndentString_range_witness :
  guessIndentString ("{" ++ String newline ("   a" ++ String newline "}")) = Some 3
  /\ 2 <= 3 <= 8.
Proof.
  split; [reflexivity |].
  apply (guessIndentString_range ("{" ++ String newline ("   a" ++ String newline "}")) 3).
  reflexivity.
Defined.

(** The smallest width seen so far: no counted width of two or more is below
    it, and it is the start value or the width of a line seen. *)
Lemma fold_tally_minimal lines t (seen : list string) :
  (forall line w, In line seen -> spaceIndent line = Some w -> 2 <= w -> minSpaces t <= w) ->
  (minSpaces t = 8 \/ exists line, In line seen /\ spaceIndent line = Some (minSpaces t)) ->
  let t' := fold_left tallyLine lines t in
  (forall line w, In line (seen ++ lines) -> spaceIndent line = Some w -> 2 <= w ->
     minSpaces t' <= w)
  /\ (minSpaces t' = 8
      \/ exists line, In line (seen ++ lines) /\ spaceIndent line = Some (minSpaces t')).
Proof.
  revert t seen. induction lines as [| l lines IH]; intros t seen Hmin Hatt; cbv zeta.
  - rewrite app_nil_r. split; assumption.
  - simpl fold_left.
    replace (seen ++ l :: lines) with ((seen ++ [l]) ++ lines)
      by (rewrite <- app_assoc; reflexivity).
    apply IH.
    + intros line w Hin Hw H2. rewrite tallyLine_spec.
      apply in_app_or in Hin. destruct Hin as [Hin | [<- | []]].
      * specialize (Hmin line w Hin Hw H2).
        destruct (uncounted l); [exact Hmin |].
        destruct (spaceIndent l) as [w' |]; cbn [minSpaces]; [| exact Hmin].
        destruct (Nat.ltb 1 w') eqn:H1; destruct (Nat.ltb w' (minSpaces t)) eqn:H3;
          cbn [andb]; try exact Hmin.
        apply Nat.ltb_lt in H3. lia.
      * destruct (uncounted l) eqn:Hu.
        { unfold uncounted in Hu. unfold spaceIndent in Hw.
          destruct (execLeadingWhitespace l); [| discriminate Hw].
          rewrite Hu in Hw. discriminate Hw. }
        rewrite Hw. cbn [minSpaces].
        destruct (Nat.ltb 1 w) eqn:H1; destruct (Nat.ltb w (minSpaces t)) eqn:H3;
          cbn [andb]; try lia.
        -- apply Nat.ltb_ge in H3. exact H3.
        -- apply Nat.ltb_ge in H1. lia.
        -- apply Nat.ltb_ge in H3. exact H3.
    + rewrite tallyLine_spec.
      assert (Hkeep : minSpaces t = 8
                      \/ exists line, In line (seen ++ [l])
                                      /\ spaceIndent line = Some (minSpaces t)).
      { destruct Hatt as [H8 | [line [Hin Hl]]]; [left; exact H8 | right].
        exists line. split; [apply in_or_app; left; exact Hin | exact Hl]. }
      destruct (uncounted l); [exact Hkeep |].
      destruct (spaceIndent l) as [w' |] eqn:Hw'; cbn [minSpaces]; [| exact Hkeep].
      destruct (Nat.ltb 1 w' && Nat.ltb w' (minSpaces t)); [| exact Hkeep].
      right. exists l. split; [apply in_or_app; right; left; reflexivity | exact Hw'].
Qed.

(** X2.  A guessed indentation is the smallest width of two or more columns
    among the space-indented lines: no such line is indented by less, and
    unless the guess is the default 8 some line is indented by exactly that
    much. *)
Theorem guessIndentString_smallest str n :
  guessIndentString str = Some n ->
  (forall line w, In line (split_lines str) -> spaceIndent line = Some w -> 2 <= w -> n <= w)
  /\ (n = 8 \/ exists line, In line (split_lines str) /\ spaceIndent line = Some n).
Proof.
  rewrite guessIndentString_unfold. cbv zeta.
  destruct (Nat.ltb _ _); [| discriminate].
  intros [= <-].
  apply (fold_tally_minimal (split_lines str) (mkTally 0 0 8) []).
  - intros line w [].
  - left. reflexivity.
Qed.

Lemma guessIndentString_smallest_witness :
  exists line,
    In line (split_lines ("    a" ++ String newline ("  b" ++ String newline "}")))
    /\ spaceIndent line = Some 2.
Proof.
  destruct (guessIndentString_smallest
              ("    a" ++ String newline ("  b" ++ String newline "}")) 2 eq_refl)
    as [_ [H | H]]; [discriminate H | exact H].
Defined.

Lemma tallyLine_comm t a b :
  tallyLine (tallyLine t a) b = tallyLine (tallyLine t b) a.
Proof.
  rewrite !tallyLine_spec.
  destruct (uncounted a), (uncounted b); try reflexivity.
  destruct (spaceIndent a) as [wa |], (spaceIndent b) as [wb |];
    cbn [tabs spaces minSpaces]; try reflexivity.
  f_equal.
  destruct (Nat.ltb 1 wa) eqn:A1; destruct (Nat.ltb 1 wb) eqn:B1; cbn [andb];
    try reflexivity.
  destruct (Nat.ltb wa (minSpaces t)) eqn:A2; destruct (Nat.ltb wb (minSpaces t)) eqn:B2;
    cbn [andb]; rewrite ?A2, ?B2; try reflexivity.
  - destruct (Nat.ltb wb wa) eqn:C; destruct (Nat.ltb wa wb) eqn:D; try reflexivity.
    + apply Nat.ltb_lt in C, D. lia.
    + apply Nat.ltb_ge in C, D. lia.
  - destruct (Nat.ltb wb wa) eqn:C; [| reflexivity].
    apply Nat.ltb_lt in C, A2. apply Nat.ltb_ge in B2. lia.
  - destruct (Nat.ltb wa wb) eqn:C; [| reflexivity].
    apply Nat.ltb_lt in C, B2. apply Nat.ltb_ge in A2. lia.
Qed.

Lemma fold_tally_permutation lines lines' :
  Permutation lines lines' ->
  forall t, fold_left tallyLine lines t = fold_left tallyLine lines' t.
Proof.
  induction 1 as [| x l l' _ IH | x y l | l l' l'' _ IH1 _ IH2]; intros t.
  - reflexivity.
  - simpl. apply IH.
  - simpl. rewrite tallyLine_comm. reflexivity.
  - rewrite IH1. apply IH2.
Qed.

(** X3.  The guess does not depend on the order of the lines. *)
Theorem guessIndentString_order str str' :
  Permutation (split_lines str) (split_lines str') ->
  guessIndentString str = guessIndentString str'.
Proof.
  intros H. rewrite !guessIndentString_unfold. cbv zeta.
  rewrite (fold_tally_permutation _ _ H). reflexivity.
Qed.

Lemma guessIndentString_order_witness :
  guessIndentString (String space (String space "a" ++ String newline "b"))
  = guessIndentString ("b" ++ String newline (String space (String space "a"))).
Proof.
  apply guessIndentString_order. apply perm_swap.
Defined.

Lemma fold_tally_counts lines t :
  tabs (fold_left tallyLine lines t) = tabs t + length (List.filter tabIndented lines)
  /\ spaces (fold_left tallyLine lines t)
     = spaces t + length (List.filter spaceIndented lines).
Proof.
  revert t. induction lines as [| l lines IH]; intros t; [simpl; lia |].
  simpl fold_left. destruct (IH (tallyLine t l)) as [Ht Hs]. rewrite Ht, Hs.
  rewrite tallyLine_spec. simpl List.filter. unfold tabIndented, spaceIndented.
  destruct (uncounted l) eqn:Hu.
  - assert (Hn : spaceIndent l = None).
    { unfold uncounted in Hu. unfold spaceIndent.
      destruct (execLeadingWhitespace l); [rewrite Hu |]; reflexivity. }
    rewrite Hn. simpl. lia.
  - destruct (spaceIndent l); simpl; lia.
Qed.

(** X4.  A width is guessed exactly when the lines indented with spaces
    outnumber the lines indented with tabs; on a tie, and for a text without
    any indented line, the result is [undefined]. *)
Theorem guessIndentString_majority str :
  guessIndentString str = None
  <-> length (List.filter spaceIndented (split_lines str))
      <= length (List.filter tabIndented (split_lines str)).
Proof.
  rewrite guessIndentString_unfold. cbv zeta.
  destruct (fold_tally_counts (split_lines str) (mkTally 0 0 8)) as [Ht Hs].
  cbn [tabs spaces] in Ht, Hs.
  destruct (Nat.ltb _ _) eqn:H.
  - apply Nat.ltb_lt in H. split; [discriminate | lia].
  - apply Nat.ltb_ge in H. split; [lia | reflexivity].
Qed.

Lemma split_lines_nonempty str : split_lines str <> [].
Proof.
  destruct str as [| c rest]; simpl; [discriminate |].
  destruct (Ascii.eqb c newline); [discriminate |].
  destruct (split_lines rest); discriminate.
Qed.

Lemma split_lines_app s1 s2 :
  split_lines (s1 ++ String newline s2) = split_lines s1 ++ split_lines s2.
Proof.
  induction s1 as [| c s1 IH].
  - simpl. reflexivity.
  - cbn [String.append split_lines]. rewrite IH.
    destruct (Ascii.eqb c newline); [reflexivity |].
    pose proof (split_lines_nonempty s1) as Hne.
    destruct (split_lines s1) as [| l ls]; [contradiction | reflexivity].
Qed.

Lemma split_lines_single line :
  hasNewline line = false -> split_lines line = [line].
Proof.
  unfold hasNewline. induction line as [| c rest IH]; intros H; [reflexivity |].
  cbn [list_ascii_of_string existsb] in H. apply orb_false_elim in H. destruct H as [Hc Hr].
  cbn [split_lines]. rewrite Ascii.eqb_sym, Hc. rewrite (IH Hr). reflexivity.
Qed.

(** X5.  A line that does not start with a space or a tab, and a line that
    consists of spaces only or of tabs only, leaves the result as it is
    wherever it is inserted between two lines. *)
Theorem guessIndentString_skips_uncounted before line after :
  hasNewline line = false -> uncounted line = true ->
  guessIndentString (before ++ String newline (line ++ String newline after))
  = guessIndentString (before ++ String newline after).
Proof.
  intros Hn Hu. rewrite !guessIndentString_unfold. cbv zeta.
  rewrite !split_lines_app, (split_lines_single line Hn).
  rewrite !fold_left_app. cbn [fold_left].
  rewrite (tallyLine_spec _ line), Hu. reflexivity.
Qed.

Lemma guessIndentString_skips_uncounted_witness :
  guessIndentString ("{" ++ String newline ("    " ++ String newline "  a"))
  = guessIndentString ("{" ++ String newline "  a").
Proof.
  apply (guessIndentString_skips_uncounted "{" "    " "  a"); reflexivity.
Defined.

(** ** [stripAst] *)

Lemma JsValue_induction (P : JsValue -> Prop) :
  (forall literal, P (JsPrimitive literal)) ->
  (forall elements, List.Forall (slotHolds P) elements -> P (JsArray elements)) ->
  (forall properties, List.Forall (fun kv => P (snd kv)) properties ->
     P (JsObject properties)) ->
  forall node, P node.
Proof.
  intros Hp Ha Ho.
  fix IH 1. intros [literal | elements | properties].
  - apply Hp.
  - apply Ha. induction elements as [| [e |] rest IHrest]; constructor;
      try assumption; [apply IH | exact I].
  - apply Ho. induction properties as [| [k c] rest IHrest]; constructor;
      try assumption. apply IH.
Qed.

Lemma stripAst_eq node propToRemove :
  stripAst node propToRemove
  = match node with
    | JsPrimitive _ => Normal node
    | JsObject properties =>
        match forInObject propToRemove properties with
        | Normal properties' => Normal (JsObject properties')
        | ThrowTypeError => ThrowTypeError
        end
    | JsArray elements =>
        if String.eqb propToRemove "length" then ThrowTypeError
        else match forInArray propToRemove 0 elements with
             | Normal elements' => Normal (JsArray elements')
             | ThrowTypeError => ThrowTypeError
             end
    end.
Proof. destruct node; reflexivity. Qed.

Lemma forEachElement_cons p slot rest :
  forEachElement p (slot :: rest)
  = match slot with
    | None =>
        match forEachElement p rest with
        | Normal rest' => Normal (None :: rest')
        | ThrowTypeError => ThrowTypeError
        end
    | Some element =>
        match stripAst element p with
        | Normal element' =>
            match forEachElement p rest with
            | Normal rest' => Normal (Some element' :: rest')
            | ThrowTypeError => ThrowTypeError
            end
        | ThrowTypeError => ThrowTypeError
        end
    end.
Proof. destruct slot; reflexivity. Qed.

Lemma forInObject_cons p key child rest :
  forInObject p ((key, child) :: rest)
  = if String.eqb key p then forInObject p rest
    else match visitChild p child with
         | Normal child' =>
             match forInObject p rest with
             | Normal rest' => Normal ((key, child') :: rest')
             | ThrowTypeError => ThrowTypeError
             end
         | ThrowTypeError => ThrowTypeError
         end.
Proof. reflexivity. Qed.

Lemma forInArray_cons p index slot rest :
  forInArray p index (slot :: rest)
  = match slot with
    | None =>
        match forInArray p (S index) rest with
        | Normal rest' => Normal (None :: rest')
        | ThrowTypeError => ThrowTypeError
        end
    | Some child =>
        if String.eqb (indexKey index) p then
          match forInArray p (S index) rest with
          | Normal rest' => Normal (None :: rest')
          | ThrowTypeError => ThrowTypeError
          end
        else
          match visitChild p child with
          | Normal child' =>
              match forInArray p (S index) rest with
              | Normal rest' => Normal (Some child' :: rest')
              | ThrowTypeError => ThrowTypeError
              end
          | ThrowTypeError => ThrowTypeError
          end
    end.
Proof. destruct slot; reflexivity. Qed.

(** Case analysis on the completions an equation goes through. *)
Ltac completions H :=
  repeat match type of H with
         | context [match ?c with Normal _ => _ | ThrowTypeError => _ end] =>
             let E := fresh "E" in destruct c eqn:E; try discriminate H
         end.

(** *** No error but for ['length'] *)

Lemma forEachElement_returns p elements :
  List.Forall (slotHolds (fun v => returns (stripAst v p))) elements ->
  returns (forEachElement p elements).
Proof.
  induction 1 as [| slot rest Hs _ IH]; [eexists; reflexivity |].
  rewrite forEachElement_cons. destruct IH as [rest' ->].
  destruct slot as [e |]; [destruct Hs as [e' ->] |]; eexists; reflexivity.
Qed.

Lemma forInArray_returns p elements :
  List.Forall (slotHolds (fun v => returns (visitChild p v))) elements ->
  forall index, returns (forInArray p index elements).
Proof.
  induction 1 as [| slot rest Hs _ IH]; intros index; [eexists; reflexivity |].
  rewrite forInArray_cons. destruct (IH (S index)) as [rest' ->].
  destruct slot as [e |]; [| eexists; reflexivity].
  destruct (String.eqb _ _); [eexists; reflexivity |].
  destruct Hs as [e' ->]. eexists; reflexivity.
Qed.

Lemma forInObject_returns p properties :
  List.Forall (fun kv => returns (visitChild p (snd kv))) properties ->
  returns (forInObject p properties).
Proof.
  induction 1 as [| [k c] rest Hs _ IH]; [eexists; reflexivity |].
  rewrite forInObject_cons. destruct (String.eqb _ _); [exact IH |].
  destruct IH as [rest' ->]. cbn [snd] in Hs. destruct Hs as [c' ->].
  eexists; reflexivity.
Qed.

Lemma Forall_slot_impl (P Q : JsValue -> Prop) elements :
  (forall v, P v -> Q v) ->
  List.Forall (slotHolds P) elements -> List.Forall (slotHolds Q) elements.
Proof.
  intros H. apply List.Forall_impl. intros [e |]; cbn; [apply H | trivial].
Qed.

Lemma stripAst_visit_return p :
  String.eqb p "length" = false ->
  forall node, returns (stripAst node p) /\ returns (visitChild p node).
Proof.
  intros Hp. induction node as [literal | elements IH | properties IH]
    using JsValue_induction.
  - split; eexists; reflexivity.
  - split.
    + rewrite stripAst_eq, Hp.
      destruct (forInArray_returns p elements) with (index := 0) as [es' ->];
        [| eexists; reflexivity].
      revert IH. apply Forall_slot_impl. intros v [_ H]. exact H.
    + cbn [visitChild].
      destruct (forEachElement_returns p elements) as [es' ->];
        [| eexists; reflexivity].
      revert IH. apply Forall_slot_impl. intros v [H _]. exact H.
  - assert (H : returns (stripAst (JsObject properties) p)).
    { rewrite stripAst_eq.
      destruct (forInObject_returns p properties) as [ps' ->];
        [| eexists; reflexivity].
      revert IH. apply List.Forall_impl. intros kv [_ H]. exact H. }
    split; [exact H | exact H].
Qed.

(** X6.  [stripAst] throws for no property name other than ['length']:
    whatever the tree, removing any other property returns. *)
Theorem stripAst_returns node propToRemove :
  propToRemove <> "length" -> returns (stripAst node propToRemove).
Proof.
  intros Hp. apply stripAst_visit_return. apply String.eqb_neq. exact Hp.
Qed.

Lemma stripAst_returns_witness : returns (stripAst sampleCall "loc").
Proof. apply stripAst_returns. discriminate. Defined.

(** *** The property is gone *)

Lemma forEachElement_removes p elements :
  List.Forall (slotHolds (fun v => forall v', stripAst v p = Normal v' ->
                                     ownsProperty p v' = false)) elements ->
  forall elements', forEachElement p elements = Normal elements' ->
    ownsProperty p (JsArray elements') = false.
Proof.
  induction 1 as [| slot rest Hs _ IH]; intros elements' H.
  - injection H as <-. reflexivity.
  - rewrite forEachElement_cons in H. destruct slot as [e |]; completions H.
    + injection H as <-. cbn [ownsProperty existsb].
      rewrite (Hs _ E). exact (IH _ eq_refl).
    + injection H as <-. cbn [ownsProperty existsb]. exact (IH _ eq_refl).
Qed.

Lemma forInArray_removes p elements :
  List.Forall (slotHolds (fun v => forall v', visitChild p v = Normal v' ->
                                     ownsProperty p v' = false)) elements ->
  forall index elements', forInArray p index elements = Normal elements' ->
    ownsProperty p (JsArray elements') = false.
Proof.
  induction 1 as [| slot rest Hs _ IH]; intros index elements' H.
  - injection H as <-. reflexivity.
  - rewrite forInArray_cons in H. destruct slot as [e |].
    + destruct (String.eqb _ _); completions H; injection H as <-;
        cbn [ownsProperty existsb].
      * exact (IH _ _ E).
      * rewrite (Hs _ E). exact (IH _ _ E0).
    + completions H. injection H as <-. cbn [ownsProperty existsb]. exact (IH _ _ E).
Qed.

Lemma forInObject_removes p properties :
  List.Forall (fun kv => forall v', visitChild p (snd kv) = Normal v' ->
                           ownsProperty p v' = false) properties ->
  forall properties', forInObject p properties = Normal properties' ->
    ownsProperty p (JsObject properties') = false.
Proof.
  induction 1 as [| [k c] rest Hs _ IH]; intros properties' H.
  - injection H as <-. reflexivity.
  - rewrite forInObject_cons in H. destruct (String.eqb k p) eqn:Hk.
    + exact (IH _ H).
    + completions H. injection H as <-. cbn [ownsProperty existsb].
      rewrite Hk. cbn [snd] in Hs. rewrite (Hs _ E). exact (IH _ eq_refl).
Qed.

Lemma stripAst_visit_removes p node :
  (forall node', stripAst node p = Normal node' -> ownsProperty p node' = false)
  /\ (forall node', visitChild p node = Normal node' -> ownsProperty p node' = false).
Proof.
  induction node as [literal | elements IH | properties IH] using JsValue_induction.
  - split; intros node' [= <-]; reflexivity.
  - split; intros node' H.
    + rewrite stripAst_eq in H. destruct (String.eqb p "length"); [discriminate H |].
      completions H. injection H as <-.
      apply (forInArray_removes p elements) with (index := 0); [| exact E].
      revert IH. apply Forall_slot_impl. intros v [_ Hv]. exact Hv.
    + cbn [visitChild] in H. completions H. injection H as <-.
      apply (forEachElement_removes p elements); [| exact E].
      revert IH. apply Forall_slot_impl. intros v [Hv _]. exact Hv.
  - assert (H : forall node', stripAst (JsObject properties) p = Normal node' ->
                  ownsProperty p node' = false).
    { intros node' H. rewrite stripAst_eq in H. completions H. injection H as <-.
      apply (forInObject_removes p properties); [| exact E].
      revert IH. apply List.Forall_impl. intros kv [_ Hv]. exact Hv. }
    split; exact H.
Qed.

(** X7.  When [stripAst] returns, no object anywhere in the tree owns the
    property any more, however deep it sits under objects and arrays. *)
Theorem stripAst_removes_everywhere node propToRemove node' :
  stripAst node propToRemove = Normal node' ->
  ownsProperty propToRemove node' = false.
Proof. apply stripAst_visit_removes. Qed.

Lemma stripAst_removes_everywhere_witness :
  ownsProperty "loc" sampleCall = true
  /\ exists node', stripAst sampleCall "loc" = Normal node'
                   /\ ownsProperty "loc" node' = false.
Proof.
  split; [reflexivity |]. eexists. split; [reflexivity |].
  apply (stripAst_removes_everywhere sampleCall "loc"). reflexivity.
Defined.

(** *** A second pass changes nothing *)

Lemma forEachElement_again p elements :
  List.Forall (slotHolds (fun v => forall v', stripAst v p = Normal v' ->
                                     stripAst v' p = Normal v')) elements ->
  forall elements', forEachElement p elements = Normal elements' ->
    forEachElement p elements' = Normal elements'.
Proof.
  induction 1 as [| slot rest Hs _ IH]; intros elements' H.
  - injection H as <-. reflexivity.
  - rewrite forEachElement_cons in H. destruct slot as [e |]; completions H;
      injection H as <-; rewrite forEachElement_cons.
    + rewrite (Hs _ E), (IH _ eq_refl). reflexivity.
    + rewrite (IH _ eq_refl). reflexivity.
Qed.

Lemma forInArray_again p elements :
  List.Forall (slotHolds (fun v => forall v', visitChild p v = Normal v' ->
                                     visitChild p v' = Normal v')) elements ->
  forall index elements', forInArray p index elements = Normal elements' ->
    forInArray p index elements' = Normal elements'.
Proof.
  induction 1 as [| slot rest Hs _ IH]; intros index elements' H.
  - injection H as <-. reflexivity.
  - rewrite forInArray_cons in H. destruct slot as [e |].
    + destruct (String.eqb (indexKey index) p) eqn:Hk; completions H;
        injection H as <-; rewrite forInArray_cons.
      * rewrite (IH _ _ E). reflexivity.
      * rewrite Hk, (Hs _ E), (IH _ _ E0). reflexivity.
    + completions H. injection H as <-. rewrite forInArray_cons.
      rewrite (IH _ _ E). reflexivity.
Qed.

Lemma forInObject_again p properties :
  List.Forall (fun kv => forall v', visitChild p (snd kv) = Normal v' ->
                           visitChild p v' = Normal v') properties ->
  forall properties', forInObject p properties = Normal properties' ->
    forInObject p properties' = Normal properties'.
Proof.
  induction 1 as [| [k c] rest Hs _ IH]; intros properties' H.
  - injection H as <-. reflexivity.
  - rewrite forInObject_cons in H. destruct (String.eqb k p) eqn:Hk.
    + exact (IH _ H).
    + completions H. injection H as <-. rewrite forInObject_cons, Hk.
      cbn [snd] in Hs. rewrite (Hs _ E), (IH _ eq_refl). reflexivity.
Qed.

Lemma stripAst_visit_again p node :
  (forall node', stripAst node p = Normal node' -> stripAst node' p = Normal node')
  /\ (forall node', visitChild p node = Normal node' -> visitChild p node' = Normal node').
Proof.
  induction node as [literal | elements IH | properties IH] using JsValue_induction.
  - split; intros node' [= <-]; reflexivity.
  - split; intros node' H.
    + rewrite stripAst_eq in H. destruct (String.eqb p "length") eqn:Hp; [discriminate H |].
      completions H. injection H as <-. rewrite stripAst_eq, Hp.
      rewrite (forInArray_again p elements) with (elements' := value);
        [reflexivity | | exact E].
      revert IH. apply Forall_slot_impl. intros v [_ Hv]. exact Hv.
    + cbn [visitChild] in H. completions H. injection H as <-. cbn [visitChild].
      rewrite (forEachElement_again p elements) with (elements' := value);
        [reflexivity | | exact E].
      revert IH. apply Forall_slot_impl. intros v [Hv _]. exact Hv.
  - assert (H : forall node', stripAst (JsObject properties) p = Normal node' ->
                  stripAst node' p = Normal node').
    { intros node' H. rewrite stripAst_eq in H. completions H. injection H as <-.
      rewrite stripAst_eq.
      rewrite (forInObject_again p properties) with (properties' := value);
        [reflexivity | | exact E].
      revert IH. apply List.Forall_impl. intros kv [_ Hv]. exact Hv. }
    split; [exact H |].
    intros node' Hv. cbn [visitChild] in Hv. pose proof (H _ Hv) as H'.
    rewrite stripAst_eq in Hv. completions Hv. injection Hv as <-. exact H'.
Qed.

(** X8.  [stripAst] is idempotent: stripping the result of a call of the same
    property again returns it unchanged. *)
Theorem stripAst_idempotent node propToRemove node' :
  stripAst node propToRemove = Normal node' ->
  stripAst node' propToRemove = Normal node'.
Proof. apply stripAst_visit_again. Qed.

Lemma stripAst_idempotent_witness :
  exists node', stripAst sampleCall "loc" = Normal node'
                /\ stripAst node' "loc" = Normal node'.
Proof.
  eexists. split; [reflexivity |].
  apply (stripAst_idempotent sampleCall "loc"). reflexivity.
Defined.

(** *** Nothing to remove *)

Lemma forEachElement_same p elements :
  List.Forall (slotHolds (fun v => ownsProperty p v = false -> stripAst v p = Normal v))
    elements ->
  ownsProperty p (JsArray elements) = false ->
  forEachElement p elements = Normal elements.
Proof.
  induction 1 as [| slot rest Hs _ IH]; intros H; [reflexivity |].
  rewrite forEachElement_cons. cbn [ownsProperty existsb] in H.
  destruct slot as [e |].
  - apply orb_false_elim in H. destruct H as [He Hr].
    rewrite (Hs He), (IH Hr). reflexivity.
  - rewrite (IH H). reflexivity.
Qed.

Lemma forInArray_same p elements :
  (forall i, indexKey i <> p) ->
  List.Forall (slotHolds (fun v => ownsProperty p v = false -> visitChild p v = Normal v))
    elements ->
  ownsProperty p (JsArray elements) = false ->
  forall index, forInArray p index elements = Normal elements.
Proof.
  intros Hi. induction 1 as [| slot rest Hs _ IH]; intros H index; [reflexivity |].
  rewrite forInArray_cons. cbn [ownsProperty existsb] in H.
  destruct slot as [e |].
  - apply orb_false_elim in H. destruct H as [He Hr].
    rewrite (proj2 (String.eqb_neq _ _) (Hi index)).
    rewrite (Hs He), (IH Hr). reflexivity.
  - rewrite (IH H). reflexivity.
Qed.

Lemma forInObject_same p properties :
  List.Forall (fun kv => ownsProperty p (snd kv) = false ->
                         visitChild p (snd kv) = Normal (snd kv)) properties ->
  ownsProperty p (JsObject properties) = false ->
  forInObject p properties = Normal properties.
Proof.
  induction 1 as [| [k c] rest Hs _ IH]; intros H; [reflexivity |].
  rewrite forInObject_cons. cbn [ownsProperty existsb] in H.
  apply orb_false_elim in H. destruct H as [H Hr].
  apply orb_false_elim in H. destruct H as [Hk Hc].
  rewrite Hk. cbn [snd] in Hs. rewrite (Hs Hc), (IH Hr). reflexivity.
Qed.

Lemma stripAst_visit_same p node :
  p <> "length" -> (forall i, indexKey i <> p) ->
  ownsProperty p node = false ->
  stripAst node p = Normal node /\ visitChild p node = Normal node.
Proof.
  intros Hp Hi.
  induction node as [literal | elements IH | properties IH] using JsValue_induction;
    intros H.
  - split; reflexivity.
  - split.
    + rewrite stripAst_eq, (proj2 (String.eqb_neq _ _) Hp).
      rewrite (forInArray_same p elements Hi); [reflexivity | | exact H].
      revert IH. apply Forall_slot_impl. intros v Hv Ho. apply (Hv Ho).
    + cbn [visitChild].
      rewrite (forEachElement_same p elements); [reflexivity | | exact H].
      revert IH. apply Forall_slot_impl. intros v Hv Ho. apply (Hv Ho).
  - assert (Hs : stripAst (JsObject properties) p = Normal (JsObject properties)).
    { rewrite stripAst_eq.
      rewrite (forInObject_same p properties); [reflexivity | | exact H].
      revert IH. apply List.Forall_impl. intros kv Hv Ho. apply (Hv Ho). }
    split; exact Hs.
Qed.

Lemma indexKey_digits i : NilEmpty.uint_of_string (indexKey i) <> None.
Proof. unfold indexKey. rewrite NilEmpty.usu. discriminate. Qed.

(** X9.  A tree in which no object owns the property is returned as it is,
    provided the property is neither ['length'] nor an array index. *)
Theorem stripAst_nothing_to_remove node propToRemove :
  propToRemove <> "length" -> (forall i, indexKey i <> propToRemove) ->
  ownsProperty propToRemove node = false ->
  stripAst node propToRemove = Normal node.
Proof. intros Hp Hi H. apply stripAst_visit_same; assumption. Qed.

Lemma stripAst_nothing_to_remove_witness :
  stripAst sampleCall "range" = Normal sampleCall.
Proof.
  apply stripAst_nothing_to_remove.
  - discriminate.
  - intros i H. apply (indexKey_digits i). rewrite H. reflexivity.
  - reflexivity.
Defined.

(** ** [parseSvelte] *)

Lemma list_pair_induction {A : Type} (P : list A -> Prop) :
  P [] -> (forall x, P [x]) ->
  (forall x y l, P l -> P (y :: l) -> P (x :: y :: l)) ->
  forall l, P l.
Proof.
  intros H0 H1 H2 l.
  assert (H : P l /\ forall x, P (x :: l)).
  { induction l as [| y l [IH1 IH2]]; [split; [exact H0 | exact H1] |].
    split; [apply IH2 |]. intros x. apply H2; [exact IH1 | apply IH2]. }
  exact (proj1 H).
Qed.

Lemma scanNodes_cons node rest s t :
  scanNodes (node :: rest) s t
  = if isScript node then
      match rest with
      | [] => ([], Some node, t)
      | next :: rest' =>
          let '(kept, s', t') := scanNodes rest' (Some node) t in (next :: kept, s', t')
      end
    else if isStyle node then
      match rest with
      | [] => ([], s, Some node)
      | next :: rest' =>
          let '(kept, s', t') := scanNodes rest' s (Some node) in (next :: kept, s', t')
      end
    else let '(kept, s', t') := scanNodes rest s t in (node :: kept, s', t').
Proof. reflexivity. Qed.

(** The iterator over the live array does what [scanNodes] reads off the
    list, and the fuel given is enough. *)
Lemma forOfChildNodes_scan rest :
  forall done s t fuel, length rest < fuel ->
    forOfChildNodes fuel (length done) (mkTags (done ++ rest) s t)
    = let '(kept, s', t') := scanNodes rest s t in Some (mkTags (done ++ kept) s' t').
Proof.
  induction rest as [| node | node next rest IH0 IH1] using list_pair_induction;
    intros done s t fuel Hfuel.
  - destruct fuel as [| fuel]; [simpl in Hfuel; lia |].
    cbn [forOfChildNodes childNodes scanNodes]. rewrite app_nil_r.
    rewrite (lookup_ge_None_2 done (length done)) by lia. reflexivity.
  - destruct fuel as [| [| fuel]]; [simpl in Hfuel; lia | simpl in Hfuel; lia |].
    cbn [forOfChildNodes childNodes]. rewrite list_lookup_middle by reflexivity.
    unfold visitNode. cbn [scanNodes childNodes scriptTag styleTag].
    rewrite delete_middle.
    destruct (isScript node); [| destruct (isStyle node)];
      cbn [forOfChildNodes childNodes];
      rewrite ?app_nil_r;
      rewrite ?(lookup_ge_None_2 done (S (length done))) by lia;
      try reflexivity.
    rewrite (lookup_ge_None_2 (done ++ [node]) (S (length done)))
      by (rewrite length_app; simpl; lia).
    reflexivity.
  - destruct fuel as [| fuel]; [simpl in Hfuel; lia |].
    cbn [forOfChildNodes childNodes]. rewrite list_lookup_middle by reflexivity.
    unfold visitNode. cbn [childNodes scriptTag styleTag].
    rewrite delete_middle.
    assert (Hskip : forall s' t',
      forOfChildNodes fuel (S (length done)) (mkTags (done ++ next :: rest) s' t')
      = let '(kept, s'', t'') := scanNodes rest s' t' in
        Some (mkTags (done ++ next :: kept) s'' t'')).
    { intros s' t'.
      replace (done ++ next :: rest) with ((done ++ [next]) ++ rest)
        by (rewrite <- app_assoc; reflexivity).
      replace (S (length done)) with (length (done ++ [next]))
        by (rewrite length_app; simpl; lia).
      rewrite IH0 by (simpl in Hfuel; lia).
      destruct (scanNodes rest s' t') as [[kept s''] t''].
      rewrite <- app_assoc. reflexivity. }
    rewrite (scanNodes_cons node (next :: rest)).
    destruct (isScript node).
    { rewrite Hskip. destruct (scanNodes rest (Some node) t) as [[kept s''] t''].
      reflexivity. }
    destruct (isStyle node).
    { rewrite Hskip. destruct (scanNodes rest s (Some node)) as [[kept s''] t''].
      reflexivity. }
    replace (done ++ node :: next :: rest) with ((done ++ [node]) ++ next :: rest)
      by (rewrite <- app_assoc; reflexivity).
    replace (S (length done)) with (length (done ++ [node]))
      by (rewrite length_app; simpl; lia).
    rewrite IH1 by (simpl in Hfuel |- *; lia).
    destruct (scanNodes (next :: rest) s t) as [[kept s''] t''].
    rewrite <- app_assoc. reflexivity.
Qed.

Lemma parseSvelte_scan nodes :
  parseSvelte nodes
  = let '(kept, s, t) := scanNodes nodes None None in
    Some (mkSvelteParts (textContent (orNewElement s Script)) kept
            (textContent (orNewElement t Style))).
Proof.
  unfold parseSvelte.
  pose proof (forOfChildNodes_scan nodes [] None None (S (length nodes))) as H.
  change (length (@nil ChildNode)) with 0 in H. change ([] ++ nodes) with nodes in H.
  rewrite H by lia.
  destruct (scanNodes nodes None None) as [[kept s] t]. reflexivity.
Qed.

Lemma isScript_not_style node : isScript node = true -> isStyle node = false.
Proof. unfold isScript, isStyle. destruct (nodeType node); congruence. Qed.

Lemma isOther_cases node :
  (isScript node = true /\ isOther node = false)
  \/ (isScript node = false /\ isStyle node = true /\ isOther node = false)
  \/ (isScript node = false /\ isStyle node = false /\ isOther node = true).
Proof.
  unfold isOther, isTag. destruct (isScript node); [left; split; reflexivity |].
  destruct (isStyle node); right; [left | right]; repeat split; reflexivity.
Qed.

Lemma scanNodes_keeps_others nodes :
  forall s t, List.filter isOther (scanNodes nodes s t).1.1 = List.filter isOther nodes.
Proof.
  induction nodes as [| node | node next rest IH0 IH1] using list_pair_induction;
    intros s t.
  - reflexivity.
  - rewrite scanNodes_cons. cbn [List.filter scanNodes].
    destruct (isOther_cases node) as [[-> ->] | [(-> & -> & ->) | (-> & -> & Ho)]];
      [reflexivity | reflexivity |].
    cbn [fst List.filter]. rewrite Ho. reflexivity.
  - rewrite scanNodes_cons.
    change (List.filter isOther (node :: next :: rest))
      with (if isOther node then node :: List.filter isOther (next :: rest)
            else List.filter isOther (next :: rest)).
    destruct (isOther_cases node) as [[-> ->] | [(-> & -> & ->) | (-> & -> & Ho)]].
    + specialize (IH0 (Some node) t).
      destruct (scanNodes rest (Some node) t) as [[kept s'] t'].
      cbn [fst List.filter] in *. rewrite IH0. reflexivity.
    + specialize (IH0 s (Some node)).
      destruct (scanNodes rest s (Some node)) as [[kept s'] t'].
      cbn [fst List.filter] in *. rewrite IH0. reflexivity.
    + specialize (IH1 s t).
      destruct (scanNodes (next :: rest) s t) as [[kept s'] t'].
      cbn [fst] in *.
      change (List.filter isOther (node :: kept))
        with (if isOther node then node :: List.filter isOther kept
              else List.filter isOther kept).
      rewrite Ho, IH1. reflexivity.
Qed.

(** X10.  [parseSvelte] always gets through the child nodes, and every node
    that is neither a [script] nor a [style] element stays in the document, in
    its place among the others. *)
Theorem parseSvelte_keeps_other_nodes nodes :
  exists parts, parseSvelte nodes = Some parts
    /\ List.filter isOther (htmlChildren parts) = List.filter isOther nodes.
Proof.
  rewrite parseSvelte_scan.
  pose proof (scanNodes_keeps_others nodes None None) as H.
  destruct (scanNodes nodes None None) as [[kept s] t].
  eexists. split; [reflexivity |]. exact H.
Qed.

Lemma separated_tail node rest : separated (node :: rest) = true -> separated rest = true.
Proof.
  destruct rest as [| next rest]; [reflexivity |].
  intros H. cbn [separated] in H. apply andb_prop in H. exact (proj2 H).
Qed.

Lemma separated_next node next rest :
  separated (node :: next :: rest) = true -> isTag node = true -> isOther next = true.
Proof.
  intros H Hn. cbn [separated] in H. apply andb_prop in H. destruct H as [H _].
  rewrite Hn in H. unfold isOther. destruct (isTag next); [discriminate H | reflexivity].
Qed.

Lemma scanNodes_separated nodes :
  forall s t, separated nodes = true ->
    scanNodes nodes s t
    = (List.filter isOther nodes, lastAfter isScript s nodes, lastAfter isStyle t nodes).
Proof.
  unfold lastAfter.
  induction nodes as [| node | node next rest IH0 IH1] using list_pair_induction;
    intros s t Hsep.
  - reflexivity.
  - rewrite scanNodes_cons. cbn [List.filter fold_left scanNodes].
    destruct (isOther_cases node) as [[Hs ->] | [(-> & -> & ->) | (-> & -> & ->)]];
      [rewrite Hs, (isScript_not_style node Hs) | |]; reflexivity.
  - rewrite scanNodes_cons.
    pose proof (separated_tail _ _ Hsep) as Hsep1.
    pose proof (separated_tail _ _ Hsep1) as Hsep0.
    change (List.filter isOther (node :: next :: rest))
      with (if isOther node then node :: List.filter isOther (next :: rest)
            else List.filter isOther (next :: rest)).
    assert (Hnext : isTag node = true ->
              List.filter isOther (next :: rest) = next :: List.filter isOther rest
              /\ isScript next = false /\ isStyle next = false).
    { intros Hn. pose proof (separated_next _ _ _ Hsep Hn) as Ho.
      cbn [List.filter]. rewrite Ho. split; [reflexivity |].
      unfold isOther, isTag in Ho. destruct (isScript next), (isStyle next);
        try discriminate Ho. split; reflexivity. }
    destruct (isOther_cases node) as [[Hs Ho] | [(Hs & Ht & Ho) | (Hs & Ht & Ho)]];
      rewrite Hs, ?Ht, Ho.
    + destruct Hnext as (-> & Hs' & Ht'); [unfold isTag; rewrite Hs; reflexivity |].
      rewrite (IH0 _ _ Hsep0). cbn [fold_left].
      rewrite Hs, (isScript_not_style node Hs), Hs', Ht'. reflexivity.
    + destruct Hnext as (-> & Hs' & Ht');
        [unfold isTag; rewrite Ht; apply orb_true_r |].
      rewrite (IH0 _ _ Hsep0). cbn [fold_left].
      rewrite Hs, Ht, Hs', Ht'. reflexivity.
    + rewrite (IH1 _ _ Hsep1). cbn [fold_left]. rewrite Hs, Ht. reflexivity.
Qed.

(** X11.  When no [script] or [style] element is directly followed by
    another, every such element is taken out of the document, the script text
    is that of the last [script] element and the style text that of the last
    [style] element; a missing element reads as the empty text. *)
Theorem parseSvelte_separated nodes :
  separated nodes = true ->
  parseSvelte nodes
  = Some (mkSvelteParts
            (textContent (orNewElement (lastAfter isScript None nodes) Script))
            (List.filter isOther nodes)
            (textContent (orNewElement (lastAfter isStyle None nodes) Style))).
Proof.
  intros H. rewrite parseSvelte_scan, (scanNodes_separated nodes None None H).
  reflexivity.
Qed.

Lemma parseSvelte_separated_witness :
  parseSvelte [mkChildNode Script "let a;"; mkChildNode Text " "; mkChildNode Tag "<p>"; mkChildNode Style "p {}"]
  = Some (mkSvelteParts "let a;" [mkChildNode Text " "; mkChildNode Tag "<p>"] "p {}").
Proof.
  apply (parseSvelte_separated
           [mkChildNode Script "let a;"; mkChildNode Text " "; mkChildNode Tag "<p>"; mkChildNode Style "p {}"]).
  reflexivity.
Defined.

Lemma scanNodes_others_first before rest :
  forallb isOther before = true ->
  forall s t,
    scanNodes (before ++ rest) s t
    = let '(kept, s', t') := scanNodes rest s t in (before ++ kept, s', t').
Proof.
  induction before as [| node before IH]; intros H s t.
  - change ([] ++ rest) with rest.
    destruct (scanNodes rest s t) as [[kept s'] t']. reflexivity.
  - cbn [forallb] in H. apply andb_prop in H. destruct H as [Ho H].
    rewrite <- app_comm_cons, scanNodes_cons.
    destruct (isOther_cases node) as [[_ Hn] | [(_ & _ & Hn) | (-> & -> & _)]];
      try congruence.
    rewrite (IH H). destruct (scanNodes rest s t) as [[kept s'] t']. reflexivity.
Qed.

Lemma scanNodes_style nodes :
  forall s t, existsb isStyle nodes = false -> (scanNodes nodes s t).2 = t.
Proof.
  induction nodes as [| node | node next rest IH0 IH1] using list_pair_induction;
    intros s t H.
  - reflexivity.
  - cbn [existsb] in H. apply orb_false_elim in H. destruct H as [Hn _].
    rewrite scanNodes_cons, Hn. destruct (isScript node); reflexivity.
  - pose proof H as H'. cbn [existsb] in H. apply orb_false_elim in H.
    destruct H as [Hn H]. apply orb_false_elim in H. destruct H as [_ Hr].
    rewrite scanNodes_cons, Hn. destruct (isScript node).
    + specialize (IH0 (Some node) t Hr).
      destruct (scanNodes rest (Some node) t) as [[kept s'] t']. exact IH0.
    + assert (H1 : existsb isStyle (next :: rest) = false).
      { cbn [existsb] in H' |- *. apply orb_false_elim in H'. exact (proj2 H'). }
      specialize (IH1 s t H1).
      destruct (scanNodes (next :: rest) s t) as [[kept s'] t']. exact IH1.
Qed.

(** X12.  A [style] element that directly follows a [script] element is
    passed over: when it is the only [style] element, and only nodes of other
    kinds come before the [script] element, it stays in the document and the
    style text handed on is empty. *)
Theorem parseSvelte_passes_over_adjacent before script style after :
  forallb isOther before = true ->
  isScript script = true -> isStyle style = true ->
  existsb isStyle after = false ->
  exists parts,
    parseSvelte (before ++ script :: style :: after) = Some parts
    /\ In style (htmlChildren parts)
    /\ css parts = EmptyString.
Proof.
  intros Hb Hs Ht Ha. rewrite parseSvelte_scan.
  rewrite (scanNodes_others_first before _ Hb), scanNodes_cons, Hs.
  pose proof (scanNodes_style after (Some script) None Ha) as Hstyle.
  destruct (scanNodes after (Some script) None) as [[kept s'] t'].
  cbn [snd] in Hstyle. subst t'.
  eexists. split; [reflexivity |]. split.
  - cbn [htmlChildren]. apply in_or_app. right. left. reflexivity.
  - reflexivity.
Qed.

Lemma parseSvelte_passes_over_adjacent_witness :
  exists parts,
    parseSvelte [mkChildNode Script "let a;"; mkChildNode Style "p {}";
                 mkChildNode Tag "<p>"] = Some parts
    /\ In (mkChildNode Style "p {}") (htmlChildren parts)
    /\ css parts = EmptyString.
Proof.
  apply (parseSvelte_passes_over_adjacent []
           (mkChildNode Script "let a;") (mkChildNode Style "p {}")
           [mkChildNode Tag "<p>"]); reflexivity.
Defined.

(** * More on [addHooksHandle] *)

(** X13.  Take a program that is one inline export of a variable [handle]
    (of any kind, with any annotation) whose initializer is absent or is
    neither an identifier nor a call of [sequence], and a fragment whose
    expression does not occur in that initializer.  The result is the import
    of [sequence] (followed, under TypeScript, by the type import), the
    declaration without its [export], renamed to [originalHandle] and keeping
    its kind, annotation and initializer, the declaration of the new unit,
    and [export const handle = sequence(originalHandle, c);], which carries
    no type annotation, with or without TypeScript. *)
Theorem inline_variable_renamed k ann init ts name e :
  initIsIdentifier (Declarator (PIdentifier "handle" ann) init) = false ->
  usingSequence (Declarator (PIdentifier "handle" ann) init) "handle" = false ->
  common.occursInDeclarator e (Declarator (PIdentifier "handle" ann) init) = false ->
  merged [ExportNamedDeclaration
            (Some (VariableDeclaration k [Declarator (PIdentifier "handle" ann) init])) []]
         ts name e
  = (if ts then [hooksImport; kitImport] else [hooksImport])
    ++ [DeclarationStatement
          (VariableDeclaration k [Declarator (PIdentifier NEW_HANDLE_NAME ann) init]);
        constDecl name (handleType ts) e;
        exportConst "handle" None (sequenceOf [NEW_HANDLE_NAME; name])].
Proof.
  intros Hid Hseq Hfresh. unfold merged, addHooksHandle.
  rewrite hasNode_addHandleType. unfold common.hasNode.
  rewrite print_load.
  cbn [existsb common.occursInStatement common.occursInDeclaration].
  rewrite Hfresh. cbn [orb].
  destruct init as [[i | [c | f a | sh ch] args | sh ch] |]; try discriminate Hid;
    destruct ts; cbn in Hseq |- *; try reflexivity;
    unfold appendToSequence, findSequence; cbn; rewrite Hseq; cbn; reflexivity.
Qed.

Lemma inline_variable_renamed_witness :
  merged [exportConst "handle" (Some "Handle") sampleHandle] true "c"
         (OtherExpression "ArrowFunctionExpression" [Identifier "input"])
  = [hooksImport; kitImport;
     constDecl "originalHandle" (Some "Handle") sampleHandle;
     constDecl "c" (Some "Handle")
       (OtherExpression "ArrowFunctionExpression" [Identifier "input"]);
     exportConst "handle" None (sequenceOf ["originalHandle"; "c"])].
Proof.
  exact (inline_variable_renamed "const" (Some "Handle") (Some sampleHandle) true "c"
           (OtherExpression "ArrowFunctionExpression" [Identifier "input"])
           eq_refl eq_refl eq_refl).
Defined.

(** X14.  Take a program that is one inline [export function handle(...)
    {...}] and a fragment whose expression does not occur in the function.
    The result is the import of [sequence] (followed, under TypeScript, by the
    type import), the function without its [export] and renamed to
    [originalHandle], the declaration of the new unit, and
    [export const handle = sequence(originalHandle, c);] without type
    annotation. *)
Theorem inline_function_renamed fbody ts name e :
  existsb (common.occursIn e) fbody = false ->
  merged [ExportNamedDeclaration (Some (FunctionDeclaration (Some "handle") fbody)) []]
         ts name e
  = (if ts then [hooksImport; kitImport] else [hooksImport])
    ++ [DeclarationStatement (FunctionDeclaration (Some NEW_HANDLE_NAME) fbody);
        constDecl name (handleType ts) e;
        exportConst "handle" None (sequenceOf [NEW_HANDLE_NAME; name])].
Proof.
  intros Hfresh. unfold merged, addHooksHandle.
  rewrite hasNode_addHandleType. unfold common.hasNode.
  rewrite print_load. cbn [existsb common.occursInStatement common.occursInDeclaration].
  rewrite Hfresh. cbn [orb].
  destruct ts; cbn; reflexivity.
Qed.

Lemma inline_function_renamed_witness :
  merged [ExportNamedDeclaration
            (Some (FunctionDeclaration (Some "handle") [Identifier "event"])) []]
         false "c" sampleHandle
  = [hooksImport;
     DeclarationStatement (FunctionDeclaration (Some "originalHandle") [Identifier "event"]);
     constDecl "c" None sampleHandle;
     exportConst "handle" None (sequenceOf ["originalHandle"; "c"])].
Proof.
  exact (inline_function_renamed [Identifier "event"] false "c" sampleHandle eq_refl).
Defined.

(** * More on [addGlobalAppInterface] *)

Lemma alter_at_end {A : Type} (f : A -> A) (l : list A) (x : A) :
  alter f (length l) (l ++ [x]) = l ++ [f x].
Proof.
  rewrite <- (Nat.add_0_r (length l)) at 1. rewrite alter_app_r. reflexivity.
Qed.

Lemma addGlobalAppInterface_none ast name :
  findGlobalDecl 0 ast = None ->
  addGlobalAppInterface ast name
  = Returned (ast ++ [appSkeleton name]) [length ast; 0; 0; 0; 0].
Proof.
  intros Hnone. unfold addGlobalAppInterface. rewrite Hnone.
  unfold withGlobalDecl.
  assert (Hg : nodeAt (ast ++ [declareGlobal]) [length ast] = Some declareGlobal).
  { unfold nodeAt. rewrite list_lookup_middle by reflexivity. reflexivity. }
  rewrite Hg. cbn [hasBlockBody negb declareGlobal walk isApp String.eqb Ascii.eqb
                   Bool.eqb nothingSeen].
  cbn -[nodeAt pushInto blockLength].
  assert (Hbl : blockLength (ast ++ [declareGlobal]) [length ast] = 0).
  { unfold blockLength. rewrite Hg. reflexivity. }
  rewrite !Hbl.
  assert (Hpush : pushInto [length ast] namespaceApp (ast ++ [declareGlobal])
                  = ast ++ [TSModuleDeclaration true true (IdIdentifier "global")
                              (Some (TSModuleBlock [namespaceApp]))]).
  { unfold pushInto. rewrite alter_at_end. reflexivity. }
  rewrite Hpush.
  set (g1 := TSModuleDeclaration true true (IdIdentifier "global")
               (Some (TSModuleBlock [namespaceApp]))).
  assert (Ha : nodeAt (ast ++ [g1]) [length ast; 0; 0] = Some namespaceApp).
  { unfold nodeAt. rewrite list_lookup_middle by reflexivity. reflexivity. }
  change ([length ast] ++ [0; 0]) with [length ast; 0; 0].
  rewrite Ha. cbn [hasBlockBody negb namespaceApp].
  assert (Hbl' : blockLength (ast ++ [g1]) [length ast; 0; 0] = 0).
  { unfold blockLength. rewrite Ha. reflexivity. }
  rewrite Hbl'.
  unfold pushInto. rewrite alter_at_end. reflexivity.
Qed.

(** X16.  A file without a top-level [declare global], the empty file
    included, gets [declare global { namespace App { interface Name {} } }]
    appended after its statements, which are left as they are, and the new
    interface is the node returned. *)
Theorem addGlobalAppInterface_fresh ast name :
  findGlobalDecl 0 ast = None ->
  addGlobalAppInterface ast name
  = Returned (ast ++ [appSkeleton name]) [length ast; 0; 0; 0; 0].
Proof. apply addGlobalAppInterface_none. Qed.

Lemma addGlobalAppInterface_fresh_witness :
  addGlobalAppInterface [] Locals = Returned [appSkeleton Locals] [0; 0; 0; 0; 0].
Proof. exact (addGlobalAppInterface_fresh [] Locals eq_refl). Defined.

Lemma pushInto_elsewhere (ast : list TSNode) g rest new i :
  i <> g -> pushInto (g :: rest) new ast !! i = ast !! i.
Proof. intros H. unfold pushInto. apply list_lookup_alter_ne. congruence. Qed.

(** X17.  Apart from the first top-level [declare global] block, no statement
    of the file is touched: the call changes that block, or appends a new one
    after the statements of a file that has none. *)
Theorem addGlobalAppInterface_elsewhere ast name i :
  findGlobalDecl 0 ast <> Some i -> i < length ast ->
  programOf (addGlobalAppInterface ast name) !! i = ast !! i.
Proof.
  intros Hi Hlt. destruct (findGlobalDecl 0 ast) as [g |] eqn:Hfind.
  - assert (Hne : i <> g) by congruence.
    unfold addGlobalAppInterface. rewrite Hfind. unfold withGlobalDecl.
    destruct (hasBlockBody (nodeAt ast [g])) eqn:Hb; cbn [negb]; [| reflexivity].
    destruct (hasBlockBody_inv _ Hb) as (gl & dc & m & ns & Hg). rewrite Hg.
    set (gd := TSModuleDeclaration gl dc m (Some (TSModuleBlock ns))) in *.
    set (seen := walk (nameString name) [g] gd nothingSeen).
    destruct (app seen) as [a |] eqn:Happ.
    + destruct (walk_app_valid _ _ _ _ _ Happ) as [H | [rest [-> _]]];
        [discriminate H |].
      destruct (hasBlockBody (nodeAt ast ([g] ++ rest))); cbn [negb]; [| reflexivity].
      destruct (interfaceNode seen); cbn [programOf]; [reflexivity |].
      apply (pushInto_elsewhere ast g rest _ i Hne).
    + destruct (hasBlockBody
                  (nodeAt (pushInto [g] namespaceApp ast) ([g] ++ [0; blockLength ast [g]])));
        cbn [negb programOf].
      * destruct (interfaceNode seen); cbn [programOf].
        -- apply (pushInto_elsewhere ast g [] _ i Hne).
        -- change ([g] ++ [0; blockLength ast [g]]) with (g :: [0; blockLength ast [g]]).
           rewrite (pushInto_elsewhere _ g _ _ i Hne).
           apply (pushInto_elsewhere ast g [] _ i Hne).
      * apply (pushInto_elsewhere ast g [] _ i Hne).
  - rewrite addGlobalAppInterface_none by exact Hfind. cbn [programOf].
    apply lookup_app_l. exact Hlt.
Qed.

Lemma addGlobalAppInterface_elsewhere_witness :
  programOf (addGlobalAppInterface localsOutsideApp Locals) !! 0
  = Some (TSOther "ExportNamedDeclaration" []).
Proof.
  apply (addGlobalAppInterface_elsewhere localsOutsideApp Locals 0).
  - discriminate.
  - simpl. lia.
Defined.

(** X18.  When the first [declare global] block already holds an interface of
    the name anywhere below it, inside an [App] namespace or not, a call that
    returns hands back an interface that was there and adds none: the file is
    left as it is when the walk found an [App] namespace in the block, and
    otherwise only gets an empty [namespace App {}] appended to the block.  A
    call that throws leaves the file as it is. *)
Theorem existing_interface_returned ast name g gd :
  findGlobalDecl 0 ast = Some g -> ast !! g = Some gd ->
  0 < countInterfaces (nameString name) gd ->
  match addGlobalAppInterface ast name with
  | Returned ast1 i =>
      interfacesNamed name ast1 = interfacesNamed name ast
      /\ (exists ms, nodeAt ast i = Some (TSInterfaceDeclaration (nameString name) ms))
      /\ ast1 = match app (walk (nameString name) [g] gd nothingSeen) with
                | Some _ => ast
                | None => pushInto [g] namespaceApp ast
                end
  | Thrown ast1 _ => ast1 = ast
  end.
Proof.
  intros Hfind Hgd Hcount. unfold addGlobalAppInterface. rewrite Hfind.
  unfold withGlobalDecl.
  assert (Hg : nodeAt ast [g] = Some gd) by (unfold nodeAt; rewrite Hgd; reflexivity).
  rewrite Hg.
  destruct (hasBlockBody (Some gd)) eqn:Hb; cbn [negb]; [| reflexivity].
  set (seen := walk (nameString name) [g] gd nothingSeen).
  destruct (interfaceNode seen) as [i0 |] eqn:Hi.
  2:{ pose proof (walk_interface_none _ _ _ _ Hi). lia. }
  destruct (found_interface_is_interface ast name g gd i0 Hgd Hi) as [Hnode _].
  destruct (app seen) as [a |] eqn:Happ.
  - destruct (hasBlockBody (nodeAt ast a)); cbn [negb]; [| reflexivity].
    split; [reflexivity | split; [exact Hnode | reflexivity]].
  - destruct (hasBlockBody_inv _ Hb) as (gl & dc & m & ns & Heq).
    injection Heq as ->.
    assert (Hbl : blockLength ast [g] = length ns) by (unfold blockLength; rewrite Hg; reflexivity).
    rewrite Hbl.
    rewrite (nodeAt_pushInto_new ast [g] namespaceApp gl dc m ns Hg).
    cbn [hasBlockBody namespaceApp negb].
    split; [| split; [exact Hnode | reflexivity]].
    rewrite (interfacesNamed_pushInto name namespaceApp ast [g] gl dc m ns Hg).
    cbn. lia.
Qed.

Lemma existing_interface_returned_witness :
  addGlobalAppInterface localsOutsideApp Locals
  = Returned
      [TSOther "ExportNamedDeclaration" [];
       TSModuleDeclaration true true (IdIdentifier "global")
         (Some (TSModuleBlock [TSInterfaceDeclaration "Locals" ["user: User"];
                               namespaceApp]))]
      [1; 0; 0]
  /\ interfacesNamed Locals (programOf (addGlobalAppInterface localsOutsideApp Locals))
     = interfacesNamed Locals localsOutsideApp.
Proof.
  split; [reflexivity |].
  pose proof (existing_interface_returned localsOutsideApp Locals 1
                (TSModuleDeclaration true true (IdIdentifier "global")
                   (Some (TSModuleBlock [TSInterfaceDeclaration "Locals" ["user: User"]])))
                eq_refl eq_refl) as H.
  cbn [countInterfaces map list_sum nameString String.eqb Ascii.eqb Bool.eqb] in H.
  specialize (H ltac:(simpl; lia)).
  destruct (addGlobalAppInterface localsOutsideApp Locals); [exact (proj1 H) | subst; reflexivity].
Defined.

Lemma printed_declaration_in ast l d :
  In l (body ast) -> heap ast !! l = Some (NDeclaration d) ->
  In (DeclarationStatement d) (print ast).
Proof.
  intros Hin Hl. unfold print. apply in_map_iff. exists l. split; [| exact Hin].
  unfold printStatement. rewrite Hl. reflexivity.
Qed.

(** X15.  Unless the fragment's expression already occurs in the program, the
    declaration of the new unit, [const c = ...] (annotated with [Handle]
    under TypeScript), is a statement of the result, whichever way the
    existing handle is exported. *)
Theorem new_unit_declared p ts name e :
  existsb (common.occursInStatement e) p = false ->
  In (constDecl name (handleType ts) e) (merged p ts name e).
Proof.
  intros Hfresh. unfold merged, addHooksHandle, constDecl.
  rewrite <- annotated_declaration.
  set (a1 := addHandleType (load p) ts).
  assert (Hhas : common.hasNode a1 e = false).
  { unfold a1. rewrite hasNode_addHandleType. unfold common.hasNode.
    rewrite print_load. exact Hfresh. }
  assert (Hok1 : declarationsOk a1)
    by (apply declarationsOk_addHandleType, declarationsOk_load).
  rewrite Hhas.
  pose proof (locate_findingOk a1) as [F1 [F2 F3]].
  assert (Hcreate : In (DeclarationStatement
                          (annotated ts (variables.declaration "const" name e)))
                       (print (createHandle a1 ts name e (handleName (locate a1))))).
  { destruct (createHandle_spec a1 ts name e (handleName (locate a1)))
      as [_ [Hl0 [Hin _]]].
    exact (printed_declaration_in _ _ _ Hin Hl0). }
  destruct (originalHandleDecl (locate a1)) as [o |] eqn:Ho; [| exact Hcreate].
  destruct (exportDecl (locate a1)) as [x |] eqn:Hx; [| exact Hcreate].
  destruct (F1 o eq_refl) as [od Hod].
  destruct (F2 x eq_refl) as [xd [xsp Hxn]].
  destruct (mergeHandle_spec a1 ts (isSpecifier (locate a1)) (handleName (locate a1))
              o x name e) as [_ [Hl0 [_ Hin]]].
  { exists od. exact Hod. }
  { exists xd, xsp. exact Hxn. }
  apply (printed_declaration_in _ (length (heap a1))); [| exact Hl0].
  apply Hin. destruct (isSpecifier (locate a1)) eqn:Hs; [left; reflexivity | right].
  destruct (F3 eq_refl) as [Hname Hfound].
  destruct (Hfound o x eq_refl eq_refl) as [[sp Hsp] Hdecl].
  split.
  - exists o. rewrite Hsp. reflexivity.
  - rewrite Hname. exact Hdecl.
Qed.

Lemma new_unit_declared_witness :
  In (constDecl "c" None sampleHandle)
     (merged [exportConst "handle" None (Identifier "other")] false "c" sampleHandle).
Proof.
  apply (new_unit_declared [exportConst "handle" None (Identifier "other")] false "c"
           sampleHandle).
  reflexivity.
Defined.

(** X19.  Take a program that is one inline export of a variable [handle]
    initialized with a call [sequence(...)] of any arguments, and a fragment
    whose expression does not occur in that call.  The new unit's identifier
    is appended to the arguments unless an identifier of that name is already
    among them (the name is never added twice); control then runs on into
    the promote path: the result is the import of [sequence] (followed, under
    TypeScript, by the type import), the declaration without its [export],
    renamed to [originalHandle] and holding the extended call, the
    declaration of the new unit, and
    [export const handle = sequence(originalHandle, c);]. *)
Theorem sequence_extended_then_wrapped k ann args ts name e :
  common.occursIn e (CallExpression (Identifier "sequence") args) = false ->
  merged [ExportNamedDeclaration
            (Some (VariableDeclaration k
                     [Declarator (PIdentifier "handle" ann)
                        (Some (CallExpression (Identifier "sequence") args))])) []]
         ts name e
  = (if ts then [hooksImport; kitImport] else [hooksImport])
    ++ [DeclarationStatement
          (VariableDeclaration k
             [Declarator (PIdentifier NEW_HANDLE_NAME ann)
                (Some (CallExpression (Identifier "sequence")
                         (if existsb (isIdentifierNamed name) args then args
                          else args ++ [Identifier name])))]);
        constDecl name (handleType ts) e;
        exportConst "handle" None (sequenceOf [NEW_HANDLE_NAME; name])].
Proof.
  intros Hfresh. unfold merged, addHooksHandle.
  rewrite hasNode_addHandleType. unfold common.hasNode.
  rewrite print_load.
  cbn [existsb common.occursInStatement common.occursInDeclaration
       common.occursInDeclarator].
  rewrite Hfresh. cbn [orb].
  destruct ts; cbn; unfold appendToSequence, findSequence; cbn;
    destruct (existsb (isIdentifierNamed name) args); cbn; reflexivity.
Qed.

Lemma sequence_extended_then_wrapped_witness :
  merged [exportConst "handle" None (sequenceOf ["a"; "c"])] false "c" sampleHandle
  = [hooksImport;
     constDecl "originalHandle" None (sequenceOf ["a"; "c"]);
     constDecl "c" None sampleHandle;
     exportConst "handle" None (sequenceOf ["originalHandle"; "c"])].
Proof.
  exact (sequence_extended_then_wrapped "const" None [Identifier "a"; Identifier "c"]
           false "c" sampleHandle eq_refl).
Defined.

(** ** Statements the merge leaves alone *)

Lemma filter_sublist {A : Type} (P : A -> bool) (l : list A) :
  List.filter P l `sublist_of` l.
Proof.
  induction l as [| x l IH]; [constructor |]. simpl.
  destruct (P x); [apply sublist_skip | apply sublist_cons]; exact IH.
Qed.

Lemma sameButImports_addNamed a src imported local isType :
  sameButImports (heap a) (heap (imports.addNamed a src imported local isType)).
Proof.
  unfold imports.addNamed.
  destruct (imports.lastImportFrom a src) as [i |].
  - destruct (heap a !! i) as [[s sp t | | | |] |] eqn:Hi; try (intros l; left; reflexivity).
    destruct (existsb _ sp); [intros l; left; reflexivity |].
    intros l. unfold mutate. cbn [heap].
    destruct (decide (i = l)) as [<- | Hne].
    + right. rewrite list_lookup_alter_eq, Hi. simpl. auto.
    + left. apply list_lookup_alter_ne. exact Hne.
  - intros l. unfold alloc, unshift. cbn [heap fst snd].
    destruct (lookup_alloc_cases (heap a) (NImport src [ImportSpec imported local] isType) l)
      as [[Hlt E] | [[Hxl E] | [_ [E E']]]].
    + left. exact E.
    + right. rewrite E. rewrite lookup_ge_None_2 by lia. simpl. auto.
    + left. rewrite E, E'. reflexivity.
Qed.

Lemma sameButImports_addHandleType a ts :
  sameButImports (heap a) (heap (addHandleType a ts)).
Proof.
  destruct ts; [apply sameButImports_addNamed | intros l; left; reflexivity].
Qed.

Lemma printStatement_sameButImports h h' l n :
  sameButImports h h' ->
  h !! l = Some n -> isImportNode n = false ->
  (forall d, declarationOf (h !! l) = Some d -> exists decl, h !! d = Some (NDeclaration decl)) ->
  printStatement h' l = printStatement h l.
Proof.
  intros S Hl Hn Hd. unfold printStatement.
  destruct (S l) as [E | [I _]]; [| rewrite Hl in I; destruct n; try contradiction; discriminate].
  rewrite E, Hl. destruct n as [| | [d |] sp | |]; try reflexivity.
  destruct (Hd d) as [decl Hdecl]; [rewrite Hl; reflexivity |].
  cbn [fmap option_fmap option_map]. unfold printDeclaration.
  destruct (S d) as [E' | [I _]]; [| rewrite Hdecl in I; contradiction].
  rewrite E'. reflexivity.
Qed.

Lemma printStatement_same mut a r l n :
  evolves mut a r ->
  heap a !! l = Some n -> isImportNode n = false -> mut <> Some l ->
  (forall d, declarationOf (heap a !! l) = Some d ->
     mut <> Some d /\ exists decl, heap a !! d = Some (NDeclaration decl)) ->
  printStatement (heap r) l = printStatement (heap a) l.
Proof.
  intros E Hl Hn Hm Hd.
  assert (Hh : isFrom HOOKS n = false) by (destruct n; try reflexivity; discriminate Hn).
  pose proof (ev_same _ _ _ E l n Hl Hm Hh) as Hl'.
  unfold printStatement. rewrite Hl, Hl'.
  destruct n as [| | [d |] sp | |]; try reflexivity.
  destruct (Hd d) as [Hmd [decl Hdecl]]; [rewrite Hl; reflexivity |].
  cbn [fmap option_fmap option_map]. unfold printDeclaration.
  rewrite (ev_same _ _ _ E d _ Hdecl Hmd eq_refl), Hdecl. reflexivity.
Qed.

(** What is kept through a filter that passes the bystanders only. *)
Lemma bystanders_sublist mut a r (P : nat -> bool) :
  evolves mut a r ->
  List.filter P (body r) = List.filter P (body a) ->
  (forall l, In l (body a) -> P l = true ->
     printStatement (heap r) l = printStatement (heap a) l) ->
  map (printStatement (heap a)) (List.filter P (body a)) `sublist_of` print r.
Proof.
  intros E Hf Hframe.
  replace (map (printStatement (heap a)) (List.filter P (body a)))
    with (map (printStatement (heap r)) (List.filter P (body r))).
  - unfold print. apply fmap_sublist. apply filter_sublist.
  - rewrite Hf. apply map_ext_in. intros l Hl. apply List.filter_In in Hl.
    apply Hframe; tauto.
Qed.

Lemma bystander_sameButImports a a' f l :
  sameButImports (heap a) (heap a') -> bystander a' f l = bystander a f l.
Proof.
  intros S. unfold bystander. f_equal. f_equal.
  destruct (S l) as [E | [I I']]; [rewrite E; reflexivity |].
  destruct (heap a !! l) as [[| | | |] |], (heap a' !! l) as [[| | | |] |];
    try contradiction; reflexivity.
Qed.

Lemma bystander_node a f l :
  bystander a f l = true ->
  exists n, heap a !! l = Some n /\ isImportNode n = false
            /\ originalHandleDecl f <> Some l /\ exportDecl f <> Some l.
Proof.
  unfold bystander. intros H.
  apply andb_prop in H. destruct H as [H Hx]. apply andb_prop in H. destruct H as [Hn Ho].
  destruct (heap a !! l) as [n |]; [| discriminate Hn].
  exists n. split; [reflexivity |]. split; [apply negb_true_iff; exact Hn |].
  apply negb_true_iff, bool_decide_eq_false in Ho, Hx. split; assumption.
Qed.

Lemma bystanders_addHandleType a ts :
  declarationsOk a -> bystanders (addHandleType a ts) = bystanders a.
Proof.
  intros Hok. unfold bystanders. rewrite locate_addHandleType.
  pose proof (sameButImports_addHandleType a ts) as S.
  set (a1 := addHandleType a ts) in *. set (f := locate a).
  assert (Hbody : List.filter (bystander a1 f) (body a1)
                  = List.filter (bystander a1 f) (body a)).
  { unfold a1 at 2. destruct ts; [| reflexivity]. cbn [addHandleType].
    apply body_addNamed. rewrite (bystander_sameButImports a a1 f _ S).
    unfold bystander. rewrite lookup_ge_None_2 by lia. reflexivity. }
  rewrite Hbody.
  rewrite (filter_ext _ _ (fun l => bystander_sameButImports a a1 f l S)).
  apply map_ext_in. intros l Hl. apply List.filter_In in Hl. destruct Hl as [Hin Hb].
  destruct (bystander_node _ _ _ Hb) as (n & Hn & Hi & _).
  apply (printStatement_sameButImports _ _ l n S Hn Hi).
  intros d Hd. exact (Hok l d Hin Hd).
Qed.

(** X20.  In a program without namespace or module blocks the call never
    removes, changes or reorders a statement it has no business with: the
    statements of the program that are not imports and are neither the
    declaration nor the export the locator found all appear in the result,
    unchanged and in their original order. *)
Theorem bystanders_kept p ts name e :
  flat p = true ->
  bystanders (load p) `sublist_of` merged p ts name e.
Proof.
  intros _.
  rewrite <- (bystanders_addHandleType (load p) ts (declarationsOk_load p)).
  unfold merged, addHooksHandle.
  set (a1 := addHandleType (load p) ts).
  assert (T1 : treeShaped a1) by apply treeShaped_addHandleType, treeShaped_load.
  pose proof T1 as (_ & _ & Hok1).
  set (f := locate a1).
  assert (Hframe0 : forall l, In l (body a1) -> bystander a1 f l = true ->
            forall r, evolves None a1 r ->
              printStatement (heap r) l = printStatement (heap a1) l).
  { intros l Hin Hb r E. destruct (bystander_node _ _ _ Hb) as (n & Hn & Hi & _).
    apply (printStatement_same None a1 r l n E Hn Hi); [discriminate |].
    intros d Hd. split; [discriminate | exact (Hok1 l d Hin Hd)]. }
  assert (Hcreate : bystanders a1
                    `sublist_of` print (createHandle a1 ts name e (handleName f))).
  { destruct (createHandle_spec a1 ts name e (handleName f)) as [E [_ [_ HP]]].
    apply (bystanders_sublist None a1 _ (bystander a1 f) E).
    - apply HP. intros l Hl. unfold bystander. rewrite lookup_ge_None_2 by lia.
      reflexivity.
    - intros l Hin Hb. apply Hframe0; assumption. }
  destruct (common.hasNode a1 e).
  { unfold bystanders, print. apply fmap_sublist, filter_sublist. }
  pose proof (locate_findingOk a1) as [F1 [F2 _]].
  pose proof (locate_findingOrigin a1) as (_ & O1 & _).
  pose proof (locate_in_body a1) as Fin.
  fold f in F1, F2, O1, Fin |- *.
  destruct (originalHandleDecl f) as [o |] eqn:Ho; [| exact Hcreate].
  destruct (exportDecl f) as [x |] eqn:Hx; [| exact Hcreate].
  destruct (F1 o eq_refl) as [od Hod]. destruct (F2 x eq_refl) as (xd & xsp & Hxn).
  specialize (Fin x eq_refl). specialize (O1 o x eq_refl eq_refl).
  destruct (mergeHandle_spec a1 ts (isSpecifier f) (handleName f) o x name e)
    as [E [_ [HP _]]].
  { exists od. exact Hod. }
  { exists xd, xsp. exact Hxn. }
  set (P := fun l => bystander a1 f l
                     && negb (bool_decide (declarationOf (heap a1 !! x) = Some l))).
  assert (HPb : List.filter P (body a1) = List.filter (bystander a1 f) (body a1)).
  { apply filter_ext_in. intros l Hin. unfold P.
    rewrite bool_decide_eq_false_2; [apply andb_true_r |].
    intros Hd. exact (treeShaped_nested_not_body a1 x l T1 Fin Hd Hin). }
  unfold bystanders. fold f. rewrite <- HPb.
  apply (bystanders_sublist (Some o) a1 _ P E).
  - apply HP.
    + unfold P, bystander. rewrite Ho, bool_decide_eq_true_2 by reflexivity.
      cbn. rewrite andb_false_r. reflexivity.
    + unfold P, bystander. rewrite Hx, (bool_decide_eq_true_2 (Some x = Some x) eq_refl).
      cbn. rewrite !andb_false_r. reflexivity.
    + intros d Hd. unfold P. rewrite (bool_decide_eq_true_2 _ Hd). apply andb_false_r.
    + intros l Hl. unfold P, bystander. rewrite (lookup_ge_None_2 (heap a1) l) by lia.
      reflexivity.
  - intros l Hin HPl. unfold P in HPl. apply andb_prop in HPl. destruct HPl as [Hb _].
    destruct (bystander_node _ _ _ Hb) as (n & Hn & Hi & Hlo & Hlx).
    rewrite Ho in Hlo. rewrite Hx in Hlx.
    apply (printStatement_same (Some o) a1 _ l n E Hn Hi); [congruence |].
    intros d Hd. split; [| exact (Hok1 l d Hin Hd)].
    intros [= <-]. destruct O1 as [Hob | Hxo].
    + exact (treeShaped_nested_not_body a1 l o T1 Hin Hd Hob).
    + apply Hlx. f_equal.
      symmetry. exact (treeShaped_nested_injective a1 l x o T1 Hin Fin Hd Hxo).
Qed.

Lemma bystanders_kept_witness :
  [ExpressionStatement (Identifier "setup"); OtherStatement "EmptyStatement" []]
  `sublist_of`
  merged [ImportDeclaration "./other" [ImportSpec "other" "other"] false;
          ExpressionStatement (Identifier "setup");
          exportConst "handle" None (Identifier "other");
          OtherStatement "EmptyStatement" []]
         false "c" sampleHandle.
Proof.
  exact (bystanders_kept
           [ImportDeclaration "./other" [ImportSpec "other" "other"] false;
            ExpressionStatement (Identifier "setup");
            exportConst "handle" None (Identifier "other");
            OtherStatement "EmptyStatement" []]
           false "c" sampleHandle eq_refl).
Defined.

(** ** [stripAst]: removing two properties *)

Lemma forEachElement_commute p q elements :
  List.Forall (slotHolds (fun v => forall v1 v12 v2 v21,
     stripAst v p = Normal v1 -> stripAst v1 q = Normal v12 ->
     stripAst v q = Normal v2 -> stripAst v2 p = Normal v21 -> v12 = v21)) elements ->
  forall e1 e12 e2 e21,
    forEachElement p elements = Normal e1 -> forEachElement q e1 = Normal e12 ->
    forEachElement q elements = Normal e2 -> forEachElement p e2 = Normal e21 ->
    e12 = e21.
Proof.
  induction 1 as [| slot rest Hs _ IH]; intros e1 e12 e2 e21 H1 H12 H2 H21.
  - injection H1 as <-. injection H2 as <-. injection H12 as <-. injection H21 as <-.
    reflexivity.
  - rewrite forEachElement_cons in H1, H2. destruct slot as [e |].
    + destruct (stripAst e p) as [v1 |] eqn:E1; [| discriminate H1].
      destruct (forEachElement p rest) as [r1 |] eqn:R1; [| discriminate H1].
      destruct (stripAst e q) as [v2 |] eqn:E2; [| discriminate H2].
      destruct (forEachElement q rest) as [r2 |] eqn:R2; [| discriminate H2].
      injection H1 as <-. injection H2 as <-.
      rewrite forEachElement_cons in H12, H21.
      destruct (stripAst v1 q) as [v12 |] eqn:E12; [| discriminate H12].
      destruct (forEachElement q r1) as [r12 |] eqn:R12; [| discriminate H12].
      destruct (stripAst v2 p) as [v21 |] eqn:E21; [| discriminate H21].
      destruct (forEachElement p r2) as [r21 |] eqn:R21; [| discriminate H21].
      injection H12 as <-. injection H21 as <-.
      rewrite (Hs _ _ _ _ E1 E12 E2 E21), (IH _ _ _ _ eq_refl R12 eq_refl R21).
      reflexivity.
    + destruct (forEachElement p rest) as [r1 |] eqn:R1; [| discriminate H1].
      destruct (forEachElement q rest) as [r2 |] eqn:R2; [| discriminate H2].
      injection H1 as <-. injection H2 as <-.
      rewrite forEachElement_cons in H12, H21.
      destruct (forEachElement q r1) as [r12 |] eqn:R12; [| discriminate H12].
      destruct (forEachElement p r2) as [r21 |] eqn:R21; [| discriminate H21].
      injection H12 as <-. injection H21 as <-.
      rewrite (IH _ _ _ _ eq_refl R12 eq_refl R21). reflexivity.
Qed.

Lemma forInArray_commute p q elements :
  List.Forall (slotHolds (fun v => forall v1 v12 v2 v21,
     visitChild p v = Normal v1 -> visitChild q v1 = Normal v12 ->
     visitChild q v = Normal v2 -> visitChild p v2 = Normal v21 -> v12 = v21)) elements ->
  forall index e1 e12 e2 e21,
    forInArray p index elements = Normal e1 -> forInArray q index e1 = Normal e12 ->
    forInArray q index elements = Normal e2 -> forInArray p index e2 = Normal e21 ->
    e12 = e21.
Proof.
  induction 1 as [| slot rest Hs _ IH]; intros index e1 e12 e2 e21 H1 H12 H2 H21.
  - injection H1 as <-. injection H2 as <-. injection H12 as <-. injection H21 as <-.
    reflexivity.
  - rewrite forInArray_cons in H1, H2.
    destruct slot as [child |].
    + destruct (String.eqb (indexKey index) p) eqn:Kp;
        destruct (String.eqb (indexKey index) q) eqn:Kq;
        completions H1; completions H2; simplify_eq;
        rewrite forInArray_cons in H12, H21; rewrite ?Kq in H12; rewrite ?Kp in H21;
        completions H12; completions H21; simplify_eq;
        f_equal;
        try (eapply IH; eassumption).
      f_equal. eapply Hs; eassumption.
    + completions H1. completions H2. injection H1 as <-. injection H2 as <-.
      rewrite forInArray_cons in H12, H21. completions H12. completions H21.
      injection H12 as <-. injection H21 as <-. f_equal. eapply IH; eassumption.
Qed.

Lemma forInObject_commute p q properties :
  List.Forall (fun kv => forall v1 v12 v2 v21,
     visitChild p (snd kv) = Normal v1 -> visitChild q v1 = Normal v12 ->
     visitChild q (snd kv) = Normal v2 -> visitChild p v2 = Normal v21 -> v12 = v21)
    properties ->
  forall e1 e12 e2 e21,
    forInObject p properties = Normal e1 -> forInObject q e1 = Normal e12 ->
    forInObject q properties = Normal e2 -> forInObject p e2 = Normal e21 ->
    e12 = e21.
Proof.
  induction 1 as [| [k c] rest Hs _ IH]; intros e1 e12 e2 e21 H1 H12 H2 H21.
  - injection H1 as <-. injection H2 as <-. injection H12 as <-. injection H21 as <-.
    reflexivity.
  - cbn [snd] in Hs. rewrite forInObject_cons in H1, H2.
    destruct (String.eqb k p) eqn:Kp; destruct (String.eqb k q) eqn:Kq;
      completions H1; completions H2; simplify_eq;
      rewrite ?forInObject_cons in H12; rewrite ?forInObject_cons in H21;
      rewrite ?Kq in H12; rewrite ?Kp in H21;
      completions H12; completions H21; simplify_eq;
      try (eapply IH; first [eassumption | reflexivity]).
    f_equal; [f_equal; eapply Hs; first [eassumption | reflexivity] |].
    eapply IH; first [eassumption | reflexivity].
Qed.

Lemma stripAst_visit_commute p q node :
  (forall v1 v12 v2 v21,
     stripAst node p = Normal v1 -> stripAst v1 q = Normal v12 ->
     stripAst node q = Normal v2 -> stripAst v2 p = Normal v21 -> v12 = v21)
  /\ (forall v1 v12 v2 v21,
        visitChild p node = Normal v1 -> visitChild q v1 = Normal v12 ->
        visitChild q node = Normal v2 -> visitChild p v2 = Normal v21 -> v12 = v21).
Proof.
  induction node as [literal | elements IH | properties IH] using JsValue_induction.
  - split; intros v1 v12 v2 v21 H1 H12 H2 H21; cbn in H1, H2; simplify_eq;
      cbn in H12, H21; simplify_eq; reflexivity.
  - split; intros v1 v12 v2 v21 H1 H12 H2 H21.
    + rewrite stripAst_eq in H1, H2.
      destruct (String.eqb p "length") eqn:Lp; [discriminate H1 |].
      destruct (String.eqb q "length") eqn:Lq; [discriminate H2 |].
      completions H1. completions H2. simplify_eq.
      rewrite stripAst_eq in H12, H21. rewrite Lq in H12. rewrite Lp in H21.
      completions H12. completions H21. simplify_eq. f_equal.
      eapply (forInArray_commute p q elements); [| eassumption ..].
      revert IH. apply Forall_slot_impl. intros v [_ Hv]. exact Hv.
    + cbn [visitChild] in H1, H2. completions H1. completions H2. simplify_eq.
      cbn [visitChild] in H12, H21. completions H12. completions H21. simplify_eq.
      f_equal. eapply (forEachElement_commute p q elements); [| eassumption ..].
      revert IH. apply Forall_slot_impl. intros v [Hv _]. exact Hv.
  - assert (H : forall v1 v12 v2 v21,
              stripAst (JsObject properties) p = Normal v1 -> stripAst v1 q = Normal v12 ->
              stripAst (JsObject properties) q = Normal v2 -> stripAst v2 p = Normal v21 ->
              v12 = v21).
    { intros v1 v12 v2 v21 H1 H12 H2 H21.
      rewrite stripAst_eq in H1, H2. completions H1. completions H2. simplify_eq.
      rewrite stripAst_eq in H12, H21. completions H12. completions H21. simplify_eq.
      f_equal. eapply (forInObject_commute p q properties); [| eassumption ..].
      revert IH. apply List.Forall_impl. intros kv [_ Hv]. exact Hv. }
    split; [exact H |].
    intros v1 v12 v2 v21 H1 H12 H2 H21. cbn [visitChild] in H1, H2.
    assert (O1 : exists ps, v1 = JsObject ps).
    { rewrite stripAst_eq in H1. completions H1. simplify_eq. eexists; reflexivity. }
    assert (O2 : exists ps, v2 = JsObject ps).
    { rewrite stripAst_eq in H2. completions H2. simplify_eq. eexists; reflexivity. }
    destruct O1 as [ps1 ->]. destruct O2 as [ps2 ->].
    cbn [visitChild] in H12, H21. exact (H _ _ _ _ H1 H12 H2 H21).
Qed.

(** X21.  Removing two properties one after the other gives the same tree in
    either order, whenever the calls return. *)
Theorem stripAst_commutes node p q v1 v12 v2 v21 :
  stripAst node p = Normal v1 -> stripAst v1 q = Normal v12 ->
  stripAst node q = Normal v2 -> stripAst v2 p = Normal v21 ->
  v12 = v21.
Proof. exact (proj1 (stripAst_visit_commute p q node) v1 v12 v2 v21). Qed.

Lemma stripAst_commutes_witness :
  exists v1 v12 v2 v21,
    stripAst sampleCall "loc" = Normal v1 /\ stripAst v1 "name" = Normal v12
    /\ stripAst sampleCall "name" = Normal v2 /\ stripAst v2 "loc" = Normal v21
    /\ v12 = v21.
Proof.
  eexists _, _, _, _. split; [reflexivity |]. split; [reflexivity |].
  split; [reflexivity |]. split; [reflexivity |].
  eapply (stripAst_commutes sampleCall "loc" "name"); reflexivity.
Defined.

(** ** C4: a pass-through handle exported through a specifier *)

(** C4 (the code at the failing input).  On
    [const handle = otherHandle; export { handle };] and the new unit [c] the
    rename is skipped, the initializer being an identifier (lines 193-199),
    but the composition built at lines 185-187 still reads
    [sequence(originalHandle, c)] and line 210 appends it: the result declares
    [handle] twice and refers to [originalHandle], which nothing declares;
    the composition does not reference [otherHandle]. *)
Theorem specifier_pass_through_breaks :
  merged [constDecl "handle" None (Identifier "otherHandle");
          ExportNamedDeclaration None [Specifier (Some "handle") "handle"]]
         false "c" sampleHandle
  = [hooksImport;
     constDecl "handle" None (Identifier "otherHandle");
     constDecl "c" None sampleHandle;
     constDecl "handle" None (sequenceOf ["originalHandle"; "c"]);
     ExportNamedDeclaration None [Specifier (Some "handle") "handle"]].
Proof. reflexivity. Qed.

(** X22.  An inline [export const handle = otherHandle;], of any kind and with
    any annotation, whose initializer is an identifier other than the
    fragment's expression, is replaced without any rename: the result is the
    import of [sequence] (followed, under TypeScript, by the type import), the
    declaration of the new unit and
    [export const handle = sequence(otherHandle, c);], declared [const] and
    annotated with [Handle] under TypeScript only. *)
Theorem inline_pass_through_composed k ann other ts name e :
  common.occursIn e (Identifier other) = false ->
  merged [ExportNamedDeclaration
            (Some (VariableDeclaration k
                     [Declarator (PIdentifier "handle" ann) (Some (Identifier other))])) []]
         ts name e
  = (if ts then [hooksImport; kitImport] else [hooksImport])
    ++ [constDecl name (handleType ts) e;
        exportConst "handle" (handleType ts) (sequenceOf [other; name])].
Proof.
  intros Hfresh. unfold merged, addHooksHandle.
  rewrite hasNode_addHandleType. unfold common.hasNode.
  rewrite print_load.
  cbn [existsb common.occursInStatement common.occursInDeclaration
       common.occursInDeclarator].
  rewrite Hfresh. cbn [orb].
  destruct ts; cbn; reflexivity.
Qed.

Lemma inline_pass_through_composed_witness :
  merged [exportConst "handle" (Some "Handle") (Identifier "otherHandle")] true "c"
         sampleHandle
  = [hooksImport; kitImport;
     constDecl "c" (Some "Handle") sampleHandle;
     exportConst "handle" (Some "Handle") (sequenceOf ["otherHandle"; "c"])].
Proof.
  exact (inline_pass_through_composed "const" (Some "Handle") "otherHandle" true "c"
           sampleHandle eq_refl).
Defined.

(** ** Inline exports with plain bindings *)

Lemma forallb_as_existsb {A : Type} (q : A -> bool) (l : list A) :
  forallb q l = negb (existsb (fun x => negb (q x)) l).
Proof.
  induction l as [| x l IH]; [reflexivity |]. simpl. rewrite IH.
  destruct (q x); reflexivity.
Qed.

Lemma existsb_filter_true (l : list bool) :
  existsb (fun b => b) l = existsb (fun b => b) (List.filter (fun b => b) l).
Proof. induction l as [| [] l IH]; simpl; congruence. Qed.

Lemma plainExports_addHandleType a ts :
  plainExports (print (addHandleType a ts)) = plainExports (print a).
Proof.
  destruct ts; [| reflexivity]. cbn [addHandleType]. unfold plainExports.
  rewrite !forallb_as_existsb. f_equal.
  rewrite !(existsb_as_map (fun x => negb (plainExport x))).
  rewrite existsb_filter_true, (existsb_filter_true (map _ (print a))).
  rewrite blind_addNamed; [reflexivity |]. split; reflexivity.
Qed.

Lemma plainExport_at_import h l n :
  h !! l = Some n -> isImportNode n = true -> plainExport (printStatement h l) = true.
Proof. intros H Hn. unfold printStatement. rewrite H. destruct n; try discriminate. reflexivity. Qed.

Lemma plainExport_at_declaration h l d :
  h !! l = Some (NDeclaration d) -> plainExport (printStatement h l) = true.
Proof. intros H. unfold printStatement. rewrite H. reflexivity. Qed.

Lemma plainExports_in p s : plainExports p = true -> In s p -> plainExport s = true.
Proof. unfold plainExports. rewrite forallb_forall. auto. Qed.

(** The untouched statements of the body are as plain as they were. *)
Lemma kept_statements_plain a r o x l0 (xd : option loc) xsp :
  treeShaped a -> evolves (Some o) a r -> plainExports (print a) = true ->
  heap a !! x = Some (NExport xd xsp) -> In x (body a) ->
  (In o (body a) \/ xd = Some o) ->
  forall l, In l (List.filter (keep o x l0) (body a)) ->
    plainExport (printStatement (heap r) l) = true.
Proof.
  intros T E Hplain Hx Hxb Horigin l Hl.
  apply List.filter_In in Hl. destruct Hl as [Hlb Hk].
  unfold keep in Hk. apply andb_prop in Hk. destruct Hk as [Hk _].
  apply andb_prop in Hk. destruct Hk as [Hlo Hlx].
  apply negb_true_iff, Nat.eqb_neq in Hlo. apply negb_true_iff, Nat.eqb_neq in Hlx.
  pose proof T as [_ [Hc Hd]].
  destruct (proj1 (closed_alt a) Hc l Hlb) as [Hlt _].
  destruct (lookup_lt_is_Some_2 _ _ Hlt) as [n Hn].
  destruct (isImportNode n) eqn:Hi.
  - destruct (ev_kind _ _ _ E _ _ Hn) as [n' [Hn' K]].
    apply (plainExport_at_import _ _ n' Hn'). exact (sameKind_import _ _ K Hi).
  - rewrite (printStatement_same (Some o) a r l n E Hn Hi).
    + apply (plainExports_in (print a) _ Hplain). unfold print. apply in_map. exact Hlb.
    + congruence.
    + intros d Hdl. split; [| exact (Hd l d Hlb Hdl)].
      intros [= <-]. destruct Horigin as [Hob | ->].
      * exact (treeShaped_nested_not_body a l o T Hlb Hdl Hob).
      * apply Hlx. apply (treeShaped_nested_injective a l x o T Hlb Hxb Hdl).
        rewrite Hx. reflexivity.
Qed.

Lemma plain_assemble r pre F tail :
  body r = pre ++ F ++ tail ->
  (forall l, In l pre -> plainExport (printStatement (heap r) l) = true) ->
  (forall l, In l F -> plainExport (printStatement (heap r) l) = true) ->
  (forall l, In l tail -> plainExport (printStatement (heap r) l) = true) ->
  plainExports (print r) = true.
Proof.
  intros Hb Hpre HF Htail. unfold plainExports, print. apply forallb_forall.
  intros s Hs. apply in_map_iff in Hs. destruct Hs as [l [<- Hl]].
  rewrite Hb in Hl. apply in_app_or in Hl. destruct Hl as [Hl | Hl]; [auto |].
  apply in_app_or in Hl. destruct Hl as [Hl | Hl]; auto.
Qed.

(** Promoting or appending leaves the inline exports plain: the statements
    kept are as they were and the export appended declares an identifier. *)
Lemma mergeHandle_plain a ts isSpec name o x nm e od (xd : option loc) xsp :
  treeShaped a -> plainExports (print a) = true ->
  heap a !! o = Some (NDeclaration od) ->
  heap a !! x = Some (NExport xd xsp) ->
  In x (body a) ->
  ((isSpec = true /\ xd = None /\ In o (body a))
   \/ (isSpec = false /\ xd = Some o /\ name = "handle"
       /\ declaresHandle a (Some o) "handle" = true)) ->
  plainExports (print (mergeHandle a ts isSpec name o x nm e)) = true.
Proof.
  intros T Hplain Ho Hx Hxb Hcase.
  destruct (mergeHandle_shape a ts isSpec name o x nm e
              (ex_intro _ od Ho) (ex_intro _ xd (ex_intro _ xsp Hx)))
    as (a7 & rr & nhd & pre & Hm & E & Hl0 & Hnhd & Hlt & HF & Hpre & Hrr).
  set (l0 := length (heap a)) in *.
  assert (Hxo : x <> o) by (intros ->; congruence).
  assert (Hx7 : heap a7 !! x = Some (NExport xd xsp)).
  { eapply ev_same; [exact E | exact Hx | congruence | reflexivity]. }
  assert (Horigin : In o (body a) \/ xd = Some o).
  { destruct Hcase as [(_ & _ & H) | (_ & H & _)]; [left | right]; exact H. }
  rewrite Hm.
  destruct (ev_kind _ _ _ E _ _ Ho) as [no7 [Ho7 Ko]].
  destruct no7 as [| od7 | | |]; try discriminate Ko.
  destruct Hcase as [(-> & -> & Hob) | (-> & -> & -> & Hdecl)].
  - rewrite (reappend_specifier a7) by (rewrite Hx7; reflexivity).
    apply (plain_assemble _ pre (List.filter (keep o x l0) (body a)) [o; l0; nhd; x]).
    + cbn [body]. rewrite HF, <- app_assoc. reflexivity.
    + cbn [heap]. intros l Hl. destruct (Hpre l Hl) as [n [Hn Hi]].
      exact (plainExport_at_import _ _ _ Hn Hi).
    + cbn [heap]. intros l Hl.
      apply (kept_statements_plain a (mkAst (heap a7) (body a)) o x l0 None xsp T);
        try assumption.
      destruct E as [E1 E2 E3]. constructor; cbn [heap]; assumption.
    + cbn [heap]. intros l [<- | [<- | [<- | [<- | []]]]].
      * exact (plainExport_at_declaration _ _ _ Ho7).
      * exact (plainExport_at_declaration _ _ _ Hl0).
      * exact (plainExport_at_declaration _ _ _ Hnhd).
      * unfold printStatement. rewrite Hx7. reflexivity.
  - cbn [declaresHandle] in Hdecl. specialize (Hrr Hdecl).
    assert (Hd7 : declarationOf (heap a7 !! x) = Some o) by (rewrite Hx7; reflexivity).
    destruct rr.
    + rewrite (reappend_renamed a7 ts "handle" o x l0 nhd nm o Hd7).
      assert (E' : evolves (Some o) a
                     (mkAst (heap a7 ++ [NExport (Some nhd) []]) (body a))).
      { eapply evolves_trans; [exact E |]. eapply evolves_grow; [| reflexivity]. reflexivity. }
      apply (plain_assemble _ pre (List.filter (keep o x l0) (body a))
               [o; l0; length (heap a7)]).
      * cbn [body]. rewrite HF, <- app_assoc. reflexivity.
      * cbn [heap]. intros l Hl. destruct (Hpre l Hl) as [n [Hn Hi]].
        exact (plainExport_at_import _ _ _ (lookup_app_l_Some _ _ _ _ Hn) Hi).
      * cbn [heap]. intros l Hl.
        apply (kept_statements_plain a _ o x l0 (Some o) xsp T E'); try assumption.
      * cbn [heap]. intros l [<- | [<- | [<- | []]]].
        -- exact (plainExport_at_declaration _ _ _ (lookup_app_l_Some _ _ _ _ Ho7)).
        -- exact (plainExport_at_declaration _ _ _ (lookup_app_l_Some _ _ _ _ Hl0)).
        -- unfold printStatement.
           rewrite (lookup_fresh (heap a7) [NExport (Some nhd) []] (length (heap a7)) 0)
             by lia.
           cbn [lookup list_lookup fmap option_fmap option_map].
           unfold printDeclaration. rewrite (lookup_app_l_Some _ _ _ _ Hnhd).
           reflexivity.
    + destruct Hrr as [Hrr | Hv]; [discriminate Hrr |].
      rewrite (reappend_passthrough a7 ts "handle" o x l0 nhd nm o Hd7 Hv).
      set (n1 := NDeclaration _).
      assert (E' : evolves (Some o) a
                     (mkAst (heap a7 ++ [n1; NExport (Some (length (heap a7))) []]) (body a))).
      { eapply evolves_trans; [exact E |].
        eapply evolves_trans.
        - eapply (evolves_grow _ n1 a7 (mkAst (heap a7 ++ [n1]) (body a7))); reflexivity.
        - eapply evolves_grow; [| cbn [heap]; rewrite <- app_assoc; reflexivity]. reflexivity. }
      apply (plain_assemble _ pre (List.filter (keep o x l0) (body a))
               [l0; S (length (heap a7))]).
      * cbn [body]. rewrite HF, <- app_assoc. reflexivity.
      * cbn [heap]. intros l Hl. destruct (Hpre l Hl) as [n [Hn Hi]].
        exact (plainExport_at_import _ _ _ (lookup_app_l_Some _ _ _ _ Hn) Hi).
      * cbn [heap]. intros l Hl.
        apply (kept_statements_plain a _ o x l0 (Some o) xsp T E'); try assumption.
      * cbn [heap]. intros l [<- | [<- | []]].
        -- exact (plainExport_at_declaration _ _ _ (lookup_app_l_Some _ _ _ _ Hl0)).
        -- unfold printStatement.
           rewrite (lookup_fresh (heap a7) [n1; NExport (Some (length (heap a7))) []]
                      (S (length (heap a7))) 1) by lia.
           cbn [lookup list_lookup fmap option_fmap option_map].
           unfold printDeclaration.
           rewrite (lookup_fresh (heap a7) [n1; NExport (Some (length (heap a7))) []]
                      (length (heap a7)) 0) by lia.
           cbn [lookup list_lookup]. unfold n1. destruct ts; reflexivity.
Qed.

(** With a single export of [handle] that the locator finds, the call leaves a
    single export of [handle], and the inline exports stay plain. *)
Lemma found_export_count p ts nm e :
  existsb bothFields p = false ->
  plainExports p = true ->
  countHandleExports p = 1 ->
  (exists s, locatedExport (load p) = Some s /\ exportsHandle s = true) ->
  countHandleExports (merged p ts nm e) = 1
  /\ plainExports (merged p ts nm e) = true.
Proof.
  intros Hvalid Hplain Hone [s [Hs Qs]].
  unfold merged, addHooksHandle.
  set (a0 := load p). set (a1 := addHandleType a0 ts).
  assert (Hcount1 : countHandleExports (print a1) = 1).
  { unfold a1. rewrite countHandleExports_addHandleType. unfold a0. rewrite print_load. exact Hone. }
  assert (Hplain1 : plainExports (print a1) = true).
  { unfold a1. rewrite plainExports_addHandleType. unfold a0. rewrite print_load. exact Hplain. }
  destruct (common.hasNode a1 e); [split; [exact Hcount1 | exact Hplain1] |].
  assert (Hloc : locate a1 = locate a0) by apply locate_addHandleType.
  pose proof (locate_findingOk a0) as (F1 & F2 & _).
  pose proof (locate_findingOk a1) as (_ & _ & G3).
  pose proof (locate_findingOrigin a0) as (O3 & _ & O2).
  pose proof (locate_findingOrigin a1) as (_ & P1 & _).
  pose proof (locate_in_body a0) as B0.
  pose proof (locate_in_body a1) as B1.
  rewrite Hloc in *.
  unfold locatedExport in Hs. fold a0 in Hs.
  destruct (exportDecl (locate a0)) as [x |] eqn:Ex; [| discriminate Hs].
  injection Hs as <-.
  destruct (originalHandleDecl (locate a0)) as [o |] eqn:Eo;
    [| destruct O3 as [_ O3]; specialize (O3 eq_refl); discriminate O3].
  destruct (F1 o eq_refl) as [od Ho]. destruct (F2 x eq_refl) as (xd & xsp & Hx).
  specialize (B0 x eq_refl). specialize (B1 x eq_refl).
  assert (T0 : treeShaped a0) by apply treeShaped_load.
  assert (T1 : treeShaped a1) by (apply treeShaped_addHandleType; exact T0).
  assert (Ho1 : heap a1 !! o = Some (NDeclaration od))
    by (apply addHandleType_keeps; [exact Ho | reflexivity]).
  assert (Hx1 : heap a1 !! x = Some (NExport xd xsp))
    by (apply addHandleType_keeps; [exact Hx | reflexivity]).
  assert (Qx1 : exportsHandle (printStatement (heap a1) x) = true).
  { rewrite <- Qs. unfold printStatement. rewrite Hx, Hx1.
    destruct xd as [d |]; [| reflexivity].
    pose proof T0 as (_ & _ & D0).
    destruct (D0 x d B0) as [decl Hd]; [rewrite Hx; reflexivity |].
    cbn [fmap option_fmap option_map]. unfold printDeclaration.
    assert (Hd1 : heap a1 !! d = Some (NDeclaration decl))
      by (apply addHandleType_keeps; [exact Hd | reflexivity]).
    rewrite Hd, Hd1. reflexivity. }
  rewrite <- Hcount1.
  assert (Hcase : (isSpecifier (locate a0) = true /\ xd = None /\ In o (body a1))
                  \/ (isSpecifier (locate a0) = false /\ xd = Some o
                      /\ handleName (locate a0) = "handle"
                      /\ declaresHandle a1 (Some o) "handle" = true)).
  2:{ split.
      - exact (mergeHandle_count a1 ts _ _ o x nm e od xd xsp T1 Ho1 Hx1 B1 Qx1 Hcase).
      - exact (mergeHandle_plain a1 ts _ _ o x nm e od xd xsp T1 Hplain1 Ho1 Hx1 B1 Hcase). }
  destruct (isSpecifier (locate a0)) eqn:Hspec.
  - left. split; [reflexivity |].
    destruct xd as [d |].
    + exfalso.
      pose proof T0 as (_ & _ & D0).
      destruct (D0 x d B0) as [decl Hd]; [rewrite Hx; reflexivity |].
      assert (Hb : bothFields (printStatement (heap a0) x) = false).
      { apply (bothFields_in p); [exact Hvalid |].
        rewrite <- (print_load p). fold a0. unfold print. apply in_map. exact B0. }
      unfold printStatement in Hb. rewrite Hx in Hb.
      cbn [fmap option_fmap option_map bothFields] in Hb.
      destruct xsp as [| sp0 xsp]; [| discriminate Hb].
      destruct (O2 eq_refl) as (s0 & d0 & sp0 & Hs0 & Hn0 & Hh0).
      assert (Hne : s0 <> x).
      { intros ->. rewrite Hx in Hn0. injection Hn0 as _ <-. discriminate Hh0. }
      pose proof (two_counted (fun l => exportsHandle (printStatement (heap a0) l))
                    (body a0) s0 x Hs0 B0 Hne) as H2.
      cbv beta in H2. rewrite Qs in H2.
      unfold printStatement at 1 in H2. rewrite Hn0 in H2.
      rewrite (exportsHandle_specifier _ _ Hh0) in H2.
      specialize (H2 eq_refl eq_refl).
      rewrite <- count_print in H2. unfold a0 in H2. rewrite print_load in H2. lia.
    + split; [reflexivity |].
      destruct (P1 o x eq_refl eq_refl) as [Hin | Hd]; [exact Hin |].
      rewrite Hx1 in Hd. discriminate Hd.
  - right. destruct (G3 eq_refl) as [Hname G].
    destruct (G o x eq_refl eq_refl) as [[sp Hsp] Hdecl].
    rewrite Hx1 in Hsp. injection Hsp as -> _.
    repeat split; [exact Hname | exact Hdecl].
Qed.

(** ** C3: a single export of [handle] *)

(** The claim as stated fails: a program without a [handle] export that
    already holds the fragment's expression is left as it is, with no export
    of [handle] at all. *)
Lemma no_export_after_skipped_call :
  countHandleExports (merged [ExpressionStatement sampleHandle] false "c" sampleHandle) = 0.
Proof. reflexivity. Qed.

(** C3 (as amended).  Take a program without namespace or module blocks, in
    which every inline-exported declaration is a function or a variable
    declaration binding plain identifiers (so that the exports of [handle]
    are exactly the statements [exportsHandle] counts) and no export statement
    has both a declaration and specifiers.  After the call the tree holds
    exactly one export of the public name [handle], and its inline exports
    are still of that plain kind, provided that either the program has no
    export of [handle] and the fragment's expression does not yet occur in
    it, or the program has exactly one export of [handle] and that statement
    is the export the locator settles on. *)
Theorem single_handle_export p ts name e :
  flat p = true ->
  plainExports p = true ->
  existsb bothFields p = false ->
  ((countHandleExports p = 0 /\ existsb (common.occursInStatement e) p = false)
   \/ (countHandleExports p = 1
       /\ exists s, locatedExport (load p) = Some s /\ exportsHandle s = true)) ->
  countHandleExports (merged p ts name e) = 1
  /\ plainExports (merged p ts name e) = true.
Proof.
  intros _ Hplain Hvalid [[Hzero Hfresh] | [Hone Hfound]].
  - rewrite (merged_absent p ts name e Hzero Hfresh). split.
    + unfold countHandleExports. rewrite List.filter_app, length_app.
      fold (countHandleExports (print (addHandleType (load p) ts))).
      rewrite countHandleExports_addHandleType, print_load, Hzero.
      reflexivity.
    + unfold plainExports. rewrite forallb_app.
      fold (plainExports (print (addHandleType (load p) ts))).
      rewrite plainExports_addHandleType, print_load, Hplain. reflexivity.
  - exact (found_export_count p ts name e Hvalid Hplain Hone Hfound).
Qed.

Lemma single_handle_export_witness :
  countHandleExports
    (merged [exportConst "handle" None (Identifier "other")] false "c" sampleHandle) = 1.
Proof.
  apply (single_handle_export [exportConst "handle" None (Identifier "other")] false "c"
           sampleHandle); try reflexivity.
  right. split; [reflexivity |].
  exists (exportConst "handle" None (Identifier "other")). split; reflexivity.
Defined.
